(** * Salto: merger, workspace coordinator and CLI formatter

    A shallow embedding of
    - [getChangeElement]            (adapter-api, change.ts),
    - [getElapsedTime], [createActionInProgressOutput] (cli, formatter.ts),
    - [Errors], [calculateValidationSeverity], [Workspace.getWorkspaceErrors],
      [Workspace.flush]             (salto, workspace/workspace.ts),
    - the merger of core/merger.ts, whose source is not part of the tree and
      which is therefore modelled from the specification and from
      core/test/merger.test.ts.

    and of the formatter's [indent] and [addMissingEmptyChanges], the
    workspace's [createWorkspaceState], [mergeSourceMaps], [setBlueprints],
    [removeBlueprints] and [devaluate].

    JavaScript objects used as dictionaries are [gmap]s of their own
    entries (what they inherit from [Object.prototype] is written out where
    the code reads or writes through it), arrays are lists, [Set<string>] is
    an insertion-ordered duplicate-free list, integers (milliseconds,
    offsets) are [Z] or [nat] with the rounding of doubles written out where
    it can occur, NaN is [None], strings are [string]. *)

From stdpp Require Import sorting countable gmap strings list fin_maps pretty.

#[local] Set Warnings "-clear-no-such-hyp".

Open Scope string_scope.

(* ===================================================================== *)
(** ** Element identifiers *)
(* ===================================================================== *)

Module ElemIDs.

(** Modelled from the spec: the [ElemID] class of adapter-api is not in the
    tree.  Section 3.1: an ElemID is the tuple
    (adapter, type-name, id-type, name-parts), two ElemIDs are equal iff the
    tuples are equal. *)
Inductive ElemIDType :=
| IdType | IdField | IdAttr | IdInstance | IdAnnotation | IdVar.

Record ElemID := mkElemID {
  adapter : string;
  typeName : string;
  idType : ElemIDType;
  nameParts : list string;
}.

Definition idTypeName (t : ElemIDType) : string :=
  match t with
  | IdType => "type" | IdField => "field" | IdAttr => "attr"
  | IdInstance => "instance" | IdAnnotation => "annotation" | IdVar => "var"
  end.

#[global] Instance ElemIDType_eq_dec : EqDecision ElemIDType.
Proof. solve_decision. Defined.

#[global] Instance ElemID_eq_dec : EqDecision ElemID.
Proof. solve_decision. Defined.

Definition idTypeCode (t : ElemIDType) : nat :=
  match t with
  | IdType => 0 | IdField => 1 | IdAttr => 2
  | IdInstance => 3 | IdAnnotation => 4 | IdVar => 5
  end.

Definition idTypeOfCode (n : nat) : ElemIDType :=
  match n with
  | 0 => IdType | 1 => IdField | 2 => IdAttr
  | 3 => IdInstance | 4 => IdAnnotation | _ => IdVar
  end.

#[global] Instance ElemIDType_countable : Countable ElemIDType.
Proof.
  apply (inj_countable' idTypeCode idTypeOfCode). by intros [].
Defined.

#[global] Instance ElemID_countable : Countable ElemID.
Proof.
  apply (inj_countable'
    (fun i => (adapter i, typeName i, idType i, nameParts i))
    (fun '(a, t, k, ps) => mkElemID a t k ps)).
  by intros [].
Defined.

(** [new ElemID(adapter, typeName)]: a top-level type identifier. *)
Definition typeID (a t : string) : ElemID := mkElemID a t IdType [].

(** [createNestedID]: descend below a top-level identifier (the id-type is
    fixed on the first descent), or append name parts below a nested one. *)
Definition createNestedID (i : ElemID) (k : ElemIDType) (ps : list string) : ElemID :=
  match idType i with
  | IdType => mkElemID (adapter i) (typeName i) k ps
  | _ => mkElemID (adapter i) (typeName i) (idType i) (nameParts i ++ ps)
  end.

(** [createParentID]: the identifier one level up; above a top-level
    identifier it names the adapter alone. *)
Definition createParentID (i : ElemID) : ElemID :=
  match nameParts i with
  | [] => mkElemID (adapter i) "" IdType []
  | [_] => mkElemID (adapter i) (typeName i) IdType []
  | ps => mkElemID (adapter i) (typeName i) (idType i) (removelast ps)
  end.

(** [ElemID.name]: the last part of the identifier. *)
Definition nameOf (i : ElemID) : string := default (typeName i) (last (nameParts i)).

Fixpoint joinWith (sep : string) (l : list string) : string :=
  match l with
  | [] => ""
  | [x] => x
  | x :: rest => x ++ sep ++ joinWith sep rest
  end.

Definition nonEmpty (s : string) : bool :=
  match s with EmptyString => false | _ => true end.

(** The canonical dotted name.  The tests under core/test read
    ['var.varName'] for [new ElemID('var', 'varName')]: the id-type of a
    top-level type or variable is not part of the name. *)
Definition getFullNameParts (i : ElemID) : list string :=
  match idType i with
  | IdType | IdVar => [adapter i; typeName i] ++ nameParts i
  | k => [adapter i; typeName i; idTypeName k] ++ nameParts i
  end.

Definition getFullName (i : ElemID) : string :=
  joinWith "." (List.filter nonEmpty (getFullNameParts i)).

End ElemIDs.

Export ElemIDs.

(* ===================================================================== *)
(** ** adapter-api: changes *)
(* ===================================================================== *)

Module Changes.

Inductive ActionName := add | modify | remove.

(** [Change<T> = AdditionDiff<T> | ModificationDiff<T> | RemovalDiff<T>]:
    the three diff shapes of the dag package, tagged by [action]. *)
Inductive Change (T : Type) :=
| AdditionDiff (after : T)
| ModificationDiff (before after : T)
| RemovalDiff (before : T).

Arguments AdditionDiff {T} after.
Arguments ModificationDiff {T} before after.
Arguments RemovalDiff {T} before.

Definition action {T} (change : Change T) : ActionName :=
  match change with
  | AdditionDiff _ => add
  | ModificationDiff _ _ => modify
  | RemovalDiff _ => remove
  end.

(** [change.data.before], [undefined] on an addition. *)
Definition data_before {T} (change : Change T) : option T :=
  match change with
  | AdditionDiff _ => None
  | ModificationDiff b _ => Some b
  | RemovalDiff b => Some b
  end.

(** [change.data.after], [undefined] on a removal. *)
Definition data_after {T} (change : Change T) : option T :=
  match change with
  | AdditionDiff a => Some a
  | ModificationDiff _ a => Some a
  | RemovalDiff _ => None
  end.

(** [change.action === 'remove' ? change.data.before : change.data.after] *)
Definition getChangeElement {T} (change : Change T) : T :=
  match change with
  | RemovalDiff b => b
  | AdditionDiff a => a
  | ModificationDiff _ a => a
  end.

End Changes.

(* ===================================================================== *)
(** ** cli: formatter *)
(* ===================================================================== *)

Module Formatter.
Import Changes.

(** [Math.ceil(x / 1000)] on integers. *)
Definition ceilDiv1000 (x : Z) : Z := (- ((- x) / 1000))%Z.

(** The time value of a [Date], [date.getTime()]: a whole number of
    milliseconds, at most 8.64e15 in absolute value, or NaN for an invalid
    date, here [None]. *)
Definition TimeValue : Type := option Z.

(** The subtraction of two time values on doubles.  The difference of two
    whole numbers of at most 8.64e15 is below [2^54]: it is exact up to
    [2^53] and rounded to the nearest even number above, to the multiple of
    4 in a tie. *)
Definition subDouble (a b : Z) : Z :=
  let d := (a - b)%Z in
  if (Z.abs d <=? 2 ^ 53)%Z then d
  else if Z.even d then d
  else if (d mod 4 =? 1)%Z then (d - 1)%Z else (d + 1)%Z.

(** The text of a number in a template literal: its digits, or [NaN]. *)
Definition numberText (n : option Z) : string :=
  match n with
  | Some z => pretty z
  | None => "NaN"
  end.

(** [getElapsedTime]: [start] is the time value of the start date and [now]
    the reading of [new Date().getTime()], which is never NaN.  The quotient
    by 1000 of a whole number below [2^54] is rounded by less than a
    thousandth, so that [Math.ceil] of it is the ceiling of the exact
    quotient; the result is NaN when the start date is invalid. *)
Definition getElapsedTime (now : Z) (start : TimeValue) : option Z :=
  t ← start; Some (ceilDiv1000 (subDouble now t)).

Section Output.
(** The element type carried by the changes, with the full name of its
    ElemID; the [Prompts] tables and chalk's [reset] come from outside. *)
Context {T : Type}.
Variable elemFullName : T -> string.
Variable STARTACTION : ActionName -> string.
Variable ENDACTION : ActionName -> string.
Variable chalk_reset : string -> string.

(** A plan item, as far as the formatter reads it: [item.parent()]. *)
Record PlanItem := mkPlanItem { parent : Change T }.

Definition body (txt : string) : string := chalk_reset txt.

Definition fullName (change : Change T) : string :=
  elemFullName (getChangeElement change).

Definition planItemName (step : PlanItem) : string := fullName (parent step).

(** The number after [elapsed]: [Math.ceil((elapsed - elapsed) % 5)];
    [%] is the truncating remainder, and NaN stays NaN. *)
Definition elapsedRound (elapsed : option Z) : option Z :=
  e ← elapsed; Some (Z.rem (e - e) 5).

Definition createItemDoneOutput (item : PlanItem) (now : Z) (startTime : TimeValue)
  : string :=
  let elapsed := getElapsedTime now startTime in
  planItemName item ++ ": " ++ ENDACTION (action (parent item)) ++ " "
    ++ "completed after " ++ numberText elapsed ++ "s".

Definition createActionInProgressOutput (act : PlanItem) (now : Z) (start : TimeValue)
  : string :=
  let elapsed := getElapsedTime now start in
  body (planItemName act ++ ": Still " ++ STARTACTION (action (parent act))
        ++ "... (" ++ numberText (elapsedRound elapsed) ++ "s elapsed)").

(** The message the specification asks for: it shows the elapsed seconds. *)
Definition inProgressWithElapsed (act : PlanItem) (now : Z) (start : TimeValue) : string :=
  body (planItemName act ++ ": Still " ++ STARTACTION (action (parent act))
        ++ "... (" ++ numberText (getElapsedTime now start) ++ "s elapsed)").
End Output.

Arguments mkPlanItem {T} parent.
Arguments parent {T} p.

End Formatter.

(* ===================================================================== *)
(** ** core: merge errors *)
(* ===================================================================== *)

Module MergeErrors.

(** Modelled from the spec: core/merger.ts is not in the tree.  Section
    4.1.1 names the eight kinds of merge failure; section 7 says each
    carries the offending ElemID and a message, and that the string of a
    merge error is ["Error merging <full_name>: <message>"].  The test
    'returns an error when multiple base field definitions' reads the same
    string from [errors[0].message] and from [String(errors[0])];
    workspace.ts reads the bare reason as [error.error]. *)
Inductive MergeErrorKind :=
| NoBaseDefinitionMergeError
| MultipleBaseDefinitionsMergeError
| DuplicateAnnotationFieldDefinitionError
| DuplicateAnnotationTypeError
| DuplicateAnnotationError
| DuplicateInstanceKeyError
| MultiplePrimitiveTypesUnsupportedError
| DuplicateVariableNameError.

Record MergeError := mkMergeError {
  kind : MergeErrorKind;
  elemID : ElemID;
  error : string;
}.

#[global] Instance MergeErrorKind_eq_dec : EqDecision MergeErrorKind.
Proof. solve_decision. Defined.

#[global] Instance MergeError_eq_dec : EqDecision MergeError.
Proof. solve_decision. Defined.

(** Modelled from the spec: [MergeError.message] and [toString] of
    core/merger.ts (section 7 and the test named above). *)
Definition message (e : MergeError) : string :=
  "Error merging " ++ getFullName (elemID e) ++ ": " ++ error e.

Definition toString (e : MergeError) : string := message e.

End MergeErrors.

(* ===================================================================== *)
(** ** core: merger *)
(* ===================================================================== *)

Module Merger.
Import MergeErrors.

(** *** Data model (section 3.2) *)

(** Modelled from the spec: the values of adapter-api are not in the tree.
    Section 3.2: a value is a primitive, a list of values, a map of values
    or a reference expression. *)
#[warnings="-register-all"] Inductive Value :=
| VNull
| VBool (b : bool)
| VNum (n : Z)
| VStr (s : string)
| VList (items : list Value)
| VMap (entries : gmap string Value)
| VRef (traversal : string).

Inductive PrimitiveTypes := STRING | NUMBER | BOOLEAN.

(** Modelled from the spec: a type reference carries the identifier of the
    type it names, a top-level type [adapter.name], or wraps another
    reference in a list type.  Whether a reference is concrete or a
    placeholder is decided by the store below (the ElemID-keyed arena of
    section 9). *)
Record TypeName := mkTypeName { tn_adapter : string; tn_name : string }.

Inductive TypeRef :=
| RefTo (t : TypeName)
| ListOf (inner : TypeRef).

Definition typeNameID (t : TypeName) : ElemID := typeID (tn_adapter t) (tn_name t).

Record Field := mkField {
  parentID : ElemID;
  name : string;
  type : TypeRef;
  annotations : gmap string Value;
}.

(** Modelled from the spec: the elements of adapter-api.  An instance is
    built, as in merger.test.ts, from its name and its type
    ([new InstanceElement(name, type, value, path, annotations)]); its
    ElemID is derived from them. *)
Inductive Element :=
| PrimitiveType (id : ElemID) (primitive : PrimitiveTypes)
    (annos : gmap string Value) (annotationTypes : gmap string TypeRef)
| ObjectType (id : ElemID) (fields : gmap string Field)
    (annos : gmap string Value) (annotationTypes : gmap string TypeRef)
    (isSettings : bool)
| InstanceElement (iname : string) (itype : TypeName)
    (value : gmap string Value) (annos : gmap string Value)
| VariableElement (id : ElemID) (value : Value).

Definition instanceID (iname : string) (itype : TypeName) : ElemID :=
  mkElemID (tn_adapter itype) (tn_name itype) IdInstance [iname].

Definition elemID (e : Element) : ElemID :=
  match e with
  | PrimitiveType id _ _ _ => id
  | ObjectType id _ _ _ _ => id
  | InstanceElement iname itype _ _ => instanceID iname itype
  | VariableElement id _ => id
  end.

(** The types that type references resolve to: the type objects the
    elements point at. *)
Definition Store : Type := gmap ElemID Element.

Definition DEFAULT : string := "_default".
Definition UPDATE_DEFINITION : string := "update".

(** *** Errors *)

(** An identifier below [id]: [id.field.<name>], [id.attr.<name>], ... for a
    top-level [id], further name parts for a nested one. *)
Definition nestedID (id : ElemID) (k : ElemIDType) (ps : list string) : ElemID :=
  createNestedID id k ps.

Definition parentName (id : ElemID) : string := getFullName (createParentID id).

Definition lastPart (id : ElemID) : string := nameOf id.

Definition errNoBase (id : ElemID) : MergeError :=
  mkMergeError NoBaseDefinitionMergeError id
    ("Cannot merge '" ++ parentName id ++ "': '" ++ lastPart id
     ++ "' has no base definition").

Definition errMultipleBase (id : ElemID) : MergeError :=
  mkMergeError MultipleBaseDefinitionsMergeError id
    ("Cannot merge '" ++ parentName id ++ "': field '" ++ lastPart id
     ++ "' has multiple definitions").

Definition errDuplicate (k : MergeErrorKind) (id : ElemID) : MergeError :=
  mkMergeError k id
    ("Cannot merge '" ++ parentName id ++ "': '" ++ lastPart id
     ++ "' is defined more than once").

(** *** The canonical order of the contributions *)

(** The structure of an element written as a tree over strings and
    numbers: a node per constructor, the entries of a map in the order of
    its keys.  Different elements have different trees. *)
Definition Atom : Type := (string + Z)%type.

Definition leafStr (s : string) : gen_tree Atom := GenLeaf (inl s).
Definition leafNum (z : Z) : gen_tree Atom := GenLeaf (inr z).

Definition entryTree (k : string) (t : gen_tree Atom) : gen_tree Atom :=
  GenNode 0 [leafStr k; t].

Definition mapTree {V} (f : V -> gen_tree Atom) (m : gmap string V) : gen_tree Atom :=
  GenNode 1 (map (fun kv => entryTree kv.1 (f kv.2)) (map_to_list m)).

Fixpoint valueTree (v : Value) : gen_tree Atom :=
  match v with
  | VNull => GenNode 2 []
  | VBool b => GenNode 3 [leafNum (if b then 1 else 0)]
  | VNum n => GenNode 4 [leafNum n]
  | VStr s => GenNode 5 [leafStr s]
  | VList items => GenNode 6 (map valueTree items)
  | VMap entries =>
      GenNode 1 (map_fold (fun k x acc => entryTree k (valueTree x) :: acc) [] entries)
  | VRef traversal => GenNode 7 [leafStr traversal]
  end.

Definition idTree (i : ElemID) : gen_tree Atom :=
  GenNode 8 (leafStr (adapter i) :: leafStr (typeName i)
             :: leafNum (Z.of_nat (idTypeCode (idType i)))
             :: map leafStr (nameParts i)).

Fixpoint typeRefTree (t : TypeRef) : gen_tree Atom :=
  match t with
  | RefTo n => GenNode 9 [leafStr (tn_adapter n); leafStr (tn_name n)]
  | ListOf inner => GenNode 10 [typeRefTree inner]
  end.

Definition fieldTree (f : Field) : gen_tree Atom :=
  GenNode 11 [idTree (parentID f); leafStr (name f); typeRefTree (type f);
              mapTree valueTree (annotations f)].

Definition primitiveCode (p : PrimitiveTypes) : Z :=
  match p with STRING => 0 | NUMBER => 1 | BOOLEAN => 2 end.

Definition elementTree (e : Element) : gen_tree Atom :=
  match e with
  | PrimitiveType id primitive annos annotationTypes =>
      GenNode 12 [idTree id; leafNum (primitiveCode primitive);
                  mapTree valueTree annos; mapTree typeRefTree annotationTypes]
  | ObjectType id fields annos annotationTypes isSettings =>
      GenNode 13 [idTree id; mapTree fieldTree fields; mapTree valueTree annos;
                  mapTree typeRefTree annotationTypes;
                  leafNum (if isSettings then 1 else 0)]
  | InstanceElement iname itype value annos =>
      GenNode 14 [leafStr iname; leafStr (tn_adapter itype); leafStr (tn_name itype);
                  mapTree valueTree value; mapTree valueTree annos]
  | VariableElement id value => GenNode 15 [idTree id; valueTree value]
  end.

(** The code of an element: the number of its tree. *)
Definition code (e : Element) : positive := encode (elementTree e).

(** Modelled from the spec: the merge must not depend on the position of an
    element in the input and keeps "whichever value was first encountered,
    deterministically" (sections 4.1, 4.1.2 and 9).  The elements are
    therefore gathered in a canonical order before they are folded.  The
    spec names no such order; here an element comes before another when its
    code is the smaller one. *)
Definition before (a b : Element) : Prop := (code a <= code b)%positive.

#[global] Instance before_dec a b : Decision (before a b).
Proof. unfold before. apply _. Defined.

(** Modelled from the spec: the elements of the input in the canonical
    order, the same list for every permutation of the input. *)
Definition canonical (elements : list Element) : list Element :=
  merge_sort before elements.

(** *** Unions with duplicate detection *)

(** Contributions join an accumulator one after the other, in the canonical
    order in which [mergeElements] gathers them; [clash] lists what a
    contribution has in common with what was accumulated before it. *)
Definition joinAll {S X E} (join : S -> X -> S) (clash : S -> X -> list E)
    (s : S) (xs : list X) : S * list E :=
  foldl (fun st x => (join st.1 x, (st.2 ++ clash st.1 x)%list)) (s, []) xs.

(** Keys already present keep the value first encountered, in the canonical
    order, and are reported. *)
Definition duplicateKeys {V} (acc m : gmap string V) : list string :=
  elements (dom acc ∩ dom m).

Definition mergeNoDuplicates {V} (acc : gmap string V) (ms : list (gmap string V))
  : gmap string V * list string :=
  joinAll (fun a m => a ∪ m) duplicateKeys acc ms.

(** *** Objects (sections 4.1.1 and 4.1.2) *)

Record ObjectDecl := mkObjectDecl {
  o_fields : gmap string Field;
  o_annotations : gmap string Value;
  o_annotationTypes : gmap string TypeRef;
  o_isSettings : bool;
}.

Definition isUpdateMarker (t : TypeRef) : bool :=
  match t with
  | RefTo n => bool_decide (tn_name n = UPDATE_DEFINITION)
  | ListOf _ => false
  end.

(** Modelled from the spec: the classification of core/merger.ts (section
    4.1.1).  A declaration is an update when every field it declares carries
    the marker type; a declaration without fields is an update (section 9,
    as [updateAnno] and [updateAnnoValues] in the tests). *)
Definition isUpdate (o : ObjectDecl) : bool :=
  bool_decide (map_Forall (fun _ f => isUpdateMarker (type f) = true) (o_fields o)).

(** The fields an update names that the base does not have. *)
Definition missingFields (base u : ObjectDecl) : list string :=
  elements (dom (o_fields u) ∖ dom (o_fields base)).

(** The annotations the updates contribute to the field under key [n]. *)
Definition fieldContributions (updates : list ObjectDecl) (n : string)
  : list (gmap string Value) :=
  omap (fun u => annotations <$> (o_fields u !! n)) updates.

(** Modelled from the spec: a base field after the updates (section 4.1.2,
    step 2).  As in 'merges multiple update fields blocks' and scenario 1 of
    section 8, the field keeps the type of the base (the updates carry the
    marker type) and a label of an update replaces the label of the base
    without an error: the annotations of the updates are joined with
    duplicate detection and come over those of the base. *)
Definition mergeField (updates : list ObjectDecl) (n : string) (fb : Field) : Field :=
  mkField (parentID fb) (name fb) (type fb)
    ((mergeNoDuplicates ∅ (fieldContributions updates n)).1 ∪ annotations fb).

Definition fieldErrors (id : ElemID) (updates : list ObjectDecl) (n : string)
  : list MergeError :=
  map (fun k => errDuplicate DuplicateAnnotationFieldDefinitionError
                  (nestedID id IdField [n; k]))
    (mergeNoDuplicates ∅ (fieldContributions updates n)).2.

(** Modelled from the spec: the object merge of core/merger.ts (sections
    4.1.1 and 4.1.2).  [objs] are the declarations of one ElemID in the
    canonical order, [others] counts further definitions under the same ElemID
    that are not object types.  Without a base there is no merged object;
    the base is the first declaration that is not an update (glossary), and
    a second one is a failure; an update that names a field the base lacks
    is a failure and leaves no merged object (scenario 2); the top-level
    annotations and annotation types of the updates join those of the base
    with duplicate detection. *)
Definition mergeObjectDefinitions (id : ElemID) (objs : list ObjectDecl) (others : nat)
  : option Element * list MergeError :=
  let bases := filter (fun o => isUpdate o = false) objs in
  let updates := filter (fun o => isUpdate o = true) objs in
  match bases with
  | [] => (None, [errNoBase id])
  | base :: rest =>
      let multiple :=
        if decide (length rest + others = 0) then [] else [errMultipleBase id] in
      let missing := updates ≫= missingFields base in
      let annos := mergeNoDuplicates (o_annotations base) (map o_annotations updates) in
      let annoTypes :=
        mergeNoDuplicates (o_annotationTypes base) (map o_annotationTypes updates) in
      let errs :=
        (multiple
         ++ map (fun n => errNoBase (nestedID id IdField [n])) missing
         ++ (elements (dom (o_fields base)) ≫= fieldErrors id updates)
         ++ map (fun k => errDuplicate DuplicateAnnotationError (nestedID id IdAttr [k]))
              annos.2
         ++ map (fun k => errDuplicate DuplicateAnnotationTypeError
                            (nestedID id IdAnnotation [k]))
              annoTypes.2)%list in
      (match missing with
       | [] => Some (ObjectType id (map_imap (fun n fb => Some (mergeField updates n fb))
                                      (o_fields base))
                       annos.1 annoTypes.1 (o_isSettings base))
       | _ => None
       end, errs)
  end.

(** *** Instances (sections 4.1.3 and 4.1.4) *)

(** Modelled from the spec: the deep merge of instance values of
    core/merger.ts (section 4.1.3).  Two maps are merged key by key, into
    nested maps as long as both sides are maps; everywhere else the value
    first encountered stays. *)
Fixpoint deepMerge (a b : Value) : Value :=
  match a, b with
  | VMap m1, VMap m2 => VMap (union_with (fun x y => Some (deepMerge x y)) m1 m2)
  | _, _ => a
  end.

(** Modelled from the spec: the collisions of a deep merge (section 4.1.3):
    the paths of the keys held by both sides unless both hold a map there.
    As in 'should fail on multiple values for same key' and scenario 3 of
    section 8, a collision is reported also when the two values are the
    same. *)
Fixpoint conflicts (path : list string) (a b : Value) : list (list string) :=
  match a, b with
  | VMap m1, VMap m2 =>
      map_fold (fun k x acc =>
                  match m2 !! k with
                  | Some y => (conflicts (path ++ [k]) x y ++ acc)%list
                  | None => acc
                  end) [] m1
  | _, _ => [path]
  end.

(** Two values that merge without a collision: maps whose common keys hold
    values that merge without a collision. *)
Inductive Compatible : Value -> Value -> Prop :=
| Compatible_maps (m1 m2 : gmap string Value) :
    (forall k x y, m1 !! k = Some x -> m2 !! k = Some y -> Compatible x y) ->
    Compatible (VMap m1) (VMap m2).

(** The number of nodes of a value. *)
Fixpoint vsize (v : Value) : nat :=
  match v with
  | VList items => S (list_sum (map vsize items))
  | VMap m => S (map_fold (fun _ x acc => vsize x + acc) 0 m)
  | _ => 1
  end.

Definition mergeValues (acc m : gmap string Value) : gmap string Value :=
  union_with (fun x y => Some (deepMerge x y)) acc m.

Definition valueConflicts (acc m : gmap string Value) : list (list string) :=
  conflicts [] (VMap acc) (VMap m).

Definition mergeInstanceValues (vs : list (gmap string Value))
  : gmap string Value * list (list string) :=
  joinAll mergeValues valueConflicts ∅ vs.

(** The annotations of the type a reference resolves to; a placeholder and a
    list type have none. *)
Definition typeAnnotations (store : Store) (t : TypeRef) : option (gmap string Value) :=
  match t with
  | RefTo n =>
      match store !! typeNameID n with
      | Some (PrimitiveType _ _ a _) => Some a
      | Some (ObjectType _ _ a _ _) => Some a
      | _ => None
      end
  | ListOf _ => None
  end.

(** Modelled from the spec: the default of a field (section 4.1.4, I4 and
    the tests 'should use field defaults', 'should use type defaults'): the
    [_default] of its own annotations, else the [_default] of the annotations
    of its declared type. *)
Definition defaultOf (store : Store) (f : Field) : option Value :=
  match annotations f !! DEFAULT with
  | Some d => Some d
  | None => typeAnnotations store (type f) ≫= (fun a => a !! DEFAULT)
  end.

Definition fieldsOf (store : Store) (t : TypeName) : gmap string Field :=
  match store !! typeNameID t with
  | Some (ObjectType _ fields _ _ _) => fields
  | _ => ∅
  end.

(** Modelled from the spec: default injection of core/merger.ts (section
    4.1.4).  The keys the value has stay as they are, the fields of the type
    it lacks receive their default. *)
Definition injectDefaults (store : Store) (t : TypeName) (value : gmap string Value)
  : gmap string Value :=
  value ∪ omap (defaultOf store) (fieldsOf store t).

(** Modelled from the spec: the instance merge of core/merger.ts (sections
    4.1.3 and 4.1.4).  [insts] are the values and annotations of the
    instances of one ElemID in the canonical order: the values are
    deep-merged, the annotations joined with duplicate detection, the
    defaults of the type injected. *)
Definition mergeInstances (store : Store) (iname : string) (itype : TypeName)
    (insts : list (gmap string Value * gmap string Value))
  : option Element * list MergeError :=
  let id := instanceID iname itype in
  let raw := mergeInstanceValues (map fst insts) in
  let annos := mergeNoDuplicates ∅ (map snd insts) in
  (Some (InstanceElement iname itype (injectDefaults store itype raw.1) annos.1),
   (map (fun p => errDuplicate DuplicateInstanceKeyError (nestedID id IdInstance p)) raw.2
    ++ map (fun k => errDuplicate DuplicateAnnotationError (nestedID id IdAttr [k]))
         annos.2)%list).

(** Modelled from the spec: [createDefaultInstanceFromType] of
    core/merger.ts (section 4.1.4): a fresh instance whose value is built
    from the field-level defaults alone. *)
Definition createDefaultInstanceFromType (iname : string) (t : Element) : Element :=
  let id := elemID t in
  InstanceElement iname (mkTypeName (adapter id) (typeName id))
    (match t with
     | ObjectType _ fields _ _ _ => omap (fun f => annotations f !! DEFAULT) fields
     | _ => ∅
     end) ∅.

(** *** Groups *)

Definition isPrimitiveType (e : Element) : bool :=
  match e with PrimitiveType _ _ _ _ => true | _ => false end.

Definition isVariable (e : Element) : bool :=
  match e with VariableElement _ _ => true | _ => false end.

Definition asObject (e : Element) : option ObjectDecl :=
  match e with
  | ObjectType _ fields annos annotationTypes isSettings =>
      Some (mkObjectDecl fields annos annotationTypes isSettings)
  | _ => None
  end.

Definition asInstance (e : Element)
  : option (string * TypeName * (gmap string Value * gmap string Value)) :=
  match e with
  | InstanceElement iname itype value annos => Some (iname, itype, (value, annos))
  | _ => None
  end.

(** An element whose ElemID must be unique: it stays, and anything else
    under its ElemID is a failure of kind [k]. *)
Definition mergeUnique (k : MergeErrorKind) (id : ElemID) (e : Element) (g : list Element)
  : option Element * list MergeError :=
  (Some e, match g with [_] => [] | _ => [errDuplicate k id] end).

(** Modelled from the spec: the merge of the elements that share the
    ElemID [id], in the canonical order (sections 3.3 and 4.1.1).
    Primitive types and variables admit nothing else under their ElemID;
    object declarations are merged by the object rule, where an instance
    under the same ElemID counts as a further definition; instances are
    merged by the instance rule. *)
Definition mergeGroup (store : Store) (id : ElemID) (g : list Element)
  : option Element * list MergeError :=
  match filter (fun e => isPrimitiveType e = true) g with
  | p :: _ => mergeUnique MultiplePrimitiveTypesUnsupportedError id p g
  | [] =>
      match filter (fun e => isVariable e = true) g with
      | v :: _ => mergeUnique DuplicateVariableNameError id v g
      | [] =>
          match omap asObject g, omap asInstance g with
          | [], [] => (None, [])
          | [], ((iname, itype, _) :: _) as insts =>
              mergeInstances store iname itype (map snd insts)
          | objs, insts => mergeObjectDefinitions id objs (length insts)
          end
      end
  end.

(** The distinct identifiers of a list, each at its first occurrence;
    [mergeElements] takes them from the canonical list. *)
Fixpoint uniq (l : list ElemID) : list ElemID :=
  match l with
  | [] => []
  | x :: rest => x :: filter (fun y => y ≠ x) (uniq rest)
  end.

Definition groupOf (id : ElemID) (elements : list Element) : list Element :=
  filter (fun e => elemID e = id) elements.

(** The values the instances under [id] declare, and their merge before
    default injection. *)
Definition instanceValues (id : ElemID) (elements : list Element)
  : list (gmap string Value) :=
  map fst (map snd (omap asInstance (groupOf id elements))).

Definition rawValue (id : ElemID) (elements : list Element) : gmap string Value :=
  (mergeInstanceValues (instanceValues id (canonical elements))).1.

Record MergeResult := mkMergeResult {
  merged : list Element;
  errors : list MergeError;
}.

(** Modelled from the spec: the place of an element in the merged list
    (the spec asks for the same list for every permutation and names no
    order; section 5 stabilises orders lexicographically): primitive types,
    then object types, instances and variables, each kind by full name, as
    the merged lists are read in merger.test.ts. *)
Definition kindRank (e : Element) : nat :=
  match e with
  | PrimitiveType _ _ _ _ => 0
  | ObjectType _ _ _ _ _ => 1
  | InstanceElement _ _ _ _ => 2
  | VariableElement _ _ => 3
  end.

Definition precedes (a b : Element) : Prop :=
  kindRank a < kindRank b
  \/ (kindRank a = kindRank b
      /\ String.leb (getFullName (elemID a)) (getFullName (elemID b)) = true).

#[global] Instance precedes_dec a b : Decision (precedes a b).
Proof. unfold precedes. apply _. Defined.

Definition outputOrder (es : list Element) : list Element := merge_sort precedes es.

(** Modelled from the spec: [mergeElements] of core/merger.ts (section 4.1
    and section 9, "the merger must not iterate its input by source
    position; gather by ElemID first, then fold each group").  The input is
    gathered in the canonical order, so that nothing below depends on the
    positions in the input; every ElemID gives one group.  The merged list
    is put in a fixed order, by kind and full name (orders are "stabilised"
    lexicographically, section 5): in merger.test.ts the merged base type is
    read at [merged[0]] before [salto.unrelated], [var.varName] before
    [var.varName2], and the object type [salto.nested] at [merged[2]] behind
    a primitive type and [salto.base].  [store] holds the type objects the
    type references of the elements point at. *)
Definition mergeElements (store : Store) (elements : list Element) : MergeResult :=
  let gathered := canonical elements in
  let results :=
    map (fun id => mergeGroup store id (groupOf id gathered))
      (uniq (map elemID gathered)) in
  mkMergeResult (outputOrder (omap fst results)) (results ≫= snd).

End Merger.

(* ===================================================================== *)
(** ** salto: workspace *)
(* ===================================================================== *)

Module Workspace.

Definition CREDS_DIR : string := "credentials".

(** *** Parser and validator interfaces *)

Record SourcePos := mkPos { line : nat; col : nat; byte : nat }.

Record SourceRange := mkRange {
  sr_filename : string;
  sr_start : SourcePos;
  sr_end : SourcePos;
}.

Record ParseError := mkParseError {
  subject : SourceRange;
  detail : string;
}.

(** Modelled from the spec: core/validator.ts is not in the tree.  Section
    4.3 lists the validation error kinds; each carries the offending ElemID
    and a message.  [ve_error] is the [error] field and [ve_message] the
    [message] that workspace.ts reads. *)
Inductive ValidationErrorClass :=
| UnresolvedReferenceValidationError
| InvalidValueTypeValidationError
| CircularReferenceValidationError
| MissingRequiredFieldValidationError.

#[global] Instance ValidationErrorClass_eq_dec : EqDecision ValidationErrorClass.
Proof. solve_decision. Defined.

Record ValidationError := mkValidationError {
  ve_class : ValidationErrorClass;
  ve_elemID : ElemID;
  ve_error : string;
  ve_message : string;
}.

(** [ve instanceof e] *)
Definition instanceOf (ve : ValidationError) (e : ValidationErrorClass) : bool :=
  bool_decide (ve_class ve = e).

Definition SeverValidationErrors : list ValidationErrorClass :=
  [UnresolvedReferenceValidationError].

Inductive WorkspaceErrorSeverity := Error | Warning.

(** [_.some(SeverValidationErrors, e => ve instanceof e) ? 'Error' : 'Warning'] *)
Definition calculateValidationSeverity (ve : ValidationError) : WorkspaceErrorSeverity :=
  if existsb (fun e => instanceOf ve e) SeverValidationErrors then Error else Warning.

(** *** Errors *)

Record Errors := mkErrors {
  parse : list ParseError;
  merge : list MergeErrors.MergeError;
  validation : list ValidationError;
}.

(** [[this.parse, this.merge, this.validation].some(errors => errors.length > 0)];
    the three arrays have different element types, so the model lists their
    lengths. *)
Definition hasErrors (e : Errors) : bool :=
  existsb (fun len => (0 <? len)%nat)
    [length (parse e); length (merge e); length (validation e)].

Definition strings (e : Errors) : list string :=
  map detail (parse e) ++ map MergeErrors.error (merge e) ++ map ve_error (validation e).

(** *** Blueprints and state *)

Section State.
(** The elements of adapter-api: workspace.ts reads only their ElemID. *)
Context {Element : Type}.
Variable elemIDOf : Element -> ElemID.
(** [ElemID.isConfig] of adapter-api. *)
Variable isConfig : ElemID -> bool.
(** [path.join] and [path.dirname] of Node. *)
Variable path_join : string -> string -> string.
Variable path_dirname : string -> string.
(** [mergeElements] of core/merger (the merged elements and the errors),
    [validateElements] of core/validator and the built-in config type. *)
Variable mergeElementsOf : list Element -> list Element * list MergeErrors.MergeError.
Variable validateElementsOf : list Element -> list ValidationError.
Variable saltoConfigType : Element.

Record ParsedBlueprint := mkParsedBlueprint {
  buffer : string;
  filename : string;
  timestamp : option Z;
  elements : list Element;
  sourceMap : gmap string (list SourceRange);
  errors : list ParseError;
}.

Record WorkspaceState := mkState {
  parsedBlueprints : gmap string ParsedBlueprint;
  st_sourceMap : gmap string (list SourceRange);
  st_elements : list Element;
  st_errors : Errors;
}.

(** [mergeSourceMaps]: the ranges of every blueprint, appended per key in
    the order of the blueprints. *)
Definition mergeSourceMaps (bps : list ParsedBlueprint) : gmap string (list SourceRange) :=
  foldl (fun result bp =>
           map_fold (fun key ranges res =>
                       <[key := (default [] (res !! key) ++ ranges)%list]> res)
             result (sourceMap bp))
    ∅ bps.

(** [createWorkspaceState]: [_.keyBy] keeps the last blueprint of a
    filename; the parse errors are those of the blueprints, in order. *)
Definition createWorkspaceState (blueprints : list ParsedBlueprint) : WorkspaceState :=
  let parsed := foldl (fun m bp => <[filename bp := bp]> m) ∅ blueprints in
  let parseErrors := concat (map errors blueprints) in
  let elems := (concat (map elements blueprints) ++ [saltoConfigType])%list in
  let r := mergeElementsOf elems in
  mkState parsed (mergeSourceMaps blueprints) r.1
    (mkErrors parseErrors r.2 (validateElementsOf r.1)).

Record SourceFragment := mkFragment {
  sourceRange : SourceRange;
  fragment : string;
}.

Inductive Cause :=
| CauseParse (pe : ParseError)
| CauseMerge (me : MergeErrors.MergeError)
| CauseValidation (ve : ValidationError).

Record WorkspaceError := mkWorkspaceError {
  sourceFragments : list SourceFragment;
  we_error : string;
  severity : WorkspaceErrorSeverity;
  cause : option Cause;
}.

(** [String.prototype.substring(a, b)] on offsets that are natural
    numbers: the arguments are swapped when [a > b] and the slice stops at
    the end of the string. *)
Definition js_substring (s : string) (a b : nat) : string :=
  String.substring (a `min` b) ((a `max` b) - (a `min` b)) s.

(** [this.state.parsedBlueprints[sourceRange.filename].buffer]: reading
    [buffer] of [undefined] throws a TypeError, here [None]. *)
Definition resolveSourceFragment (st : WorkspaceState) (sr : SourceRange)
  : option SourceFragment :=
  bp ← parsedBlueprints st !! sr_filename sr;
  Some (mkFragment sr (js_substring (buffer bp) (byte (sr_start sr)) (byte (sr_end sr)))).

(** [this.sourceMap.get(name) || []] *)
Definition sourceRangesOf (st : WorkspaceState) (name : string) : list SourceRange :=
  default [] (st_sourceMap st !! name).

Definition parseWorkspaceError (st : WorkspaceState) (pe : ParseError)
  : option WorkspaceError :=
  sf ← resolveSourceFragment st (subject pe);
  Some (mkWorkspaceError [sf] (detail pe) Error (Some (CauseParse pe))).

Definition mergeWorkspaceError (st : WorkspaceState) (me : MergeErrors.MergeError)
  : option WorkspaceError :=
  let sourceRanges := sourceRangesOf st (getFullName (MergeErrors.elemID me)) in
  sfs ← mapM (resolveSourceFragment st) sourceRanges;
  Some (mkWorkspaceError sfs (MergeErrors.message me) Error (Some (CauseMerge me))).

Definition validationWorkspaceError (st : WorkspaceState) (ve : ValidationError)
  : option WorkspaceError :=
  let sourceRanges := sourceRangesOf st (getFullName (ve_elemID ve)) in
  sfs ← mapM (resolveSourceFragment st) sourceRanges;
  Some (mkWorkspaceError sfs (ve_message ve) (calculateValidationSeverity ve)
          (Some (CauseValidation ve))).

(** [getWorkspaceErrors]: the three mapped arrays, spread in order.  The
    result is [None] when a source fragment cannot be resolved (the
    TypeError above). *)
Definition getWorkspaceErrors (st : WorkspaceState) : option (list WorkspaceError) :=
  ps ← mapM (parseWorkspaceError st) (parse (st_errors st));
  ms ← mapM (mergeWorkspaceError st) (merge (st_errors st));
  vs ← mapM (validationWorkspaceError st) (validation (st_errors st));
  Some ((ps ++ ms ++ vs)%list).

(** Every source range an error points at names a loaded blueprint. *)
Definition rangesResolve (st : WorkspaceState) : Prop :=
  (forall pe, pe ∈ parse (st_errors st) ->
     is_Some (parsedBlueprints st !! sr_filename (subject pe)))
  /\ (forall me sr, me ∈ merge (st_errors st) ->
       sr ∈ sourceRangesOf st (getFullName (MergeErrors.elemID me)) ->
       is_Some (parsedBlueprints st !! sr_filename sr))
  /\ (forall ve sr, ve ∈ validation (st_errors st) ->
       sr ∈ sourceRangesOf st (getFullName (ve_elemID ve)) ->
       is_Some (parsedBlueprints st !! sr_filename sr)).
(** *** The dirty set and flush *)

(** The names a plain object inherits from [Object.prototype].  The map of
    parsed blueprints is a plain object read with [[]]: under one of these
    names, when no blueprint is stored there, the read gives the inherited
    member (a function, or the prototype itself for [__proto__]) and not
    [undefined]. *)
Definition objectPrototypeNames : list string :=
  [ "constructor"; "__defineGetter__"; "__defineSetter__"; "hasOwnProperty";
    "__lookupGetter__"; "__lookupSetter__"; "isPrototypeOf";
    "propertyIsEnumerable"; "toString"; "valueOf"; "__proto__"; "toLocaleString" ].

Definition inherited (name : string) : bool :=
  bool_decide (name ∈ objectPrototypeNames).

(** [Set<string>]: insertion-ordered and free of duplicates. *)
Definition set_add (name : string) (s : list string) : list string :=
  if decide (name ∈ s) then s else (s ++ [name])%list.

Definition set_delete (name : string) (s : list string) : list string :=
  filter (fun x => x ≠ name) s.

Definition markDirtyIn (names : list string) (dirty : list string) : list string :=
  foldl (fun d name => set_add name d) dirty names.

Record Config := mkConfig {
  baseDir : string;
  localStorage : string;
}.

Record Workspace := mkWorkspace {
  config : Config;
  state : WorkspaceState;
  useCache : bool;
  dirtyBlueprints : list string;
}.

Definition markDirty (names : list string) (ws : Workspace) : Workspace :=
  mkWorkspace (config ws) (state ws) (useCache ws)
    (markDirtyIn names (dirtyBlueprints ws)).

(** The calls flush makes into the file layer and the parse cache. *)
Inductive FileOp :=
| Rm (path : string)
| Mkdirp (path : string)
| WriteTextFile (path : string) (contents : string)
| CachePut (key_filename : string) (lastModified : Z) (bp : ParsedBlueprint).

(** Whether a call resolves ([true]) or rejects, and the reading of
    [Date.now()] when the file at a path is cached. *)
Variable fileOk : FileOp -> bool.
Variable dateNow : string -> Z.

(** The workspace together with the calls made so far. *)
Definition World : Type := Workspace * list FileOp.

Definition perform (op : FileOp) (w : World) : option World :=
  if fileOk op then Some (w.1, (w.2 ++ [op])%list) else None.

Definition isNewConfig (bp : option ParsedBlueprint) : bool :=
  match bp with
  | None => false
  | Some bp =>
      match elements bp with
      | [e] =>
          isConfig (elemIDOf e)
          && bool_decide
               (filename bp = path_join CREDS_DIR (adapter (elemIDOf e) ++ ".bp"))
      | _ => false
      end
  end.

Definition flushPath (ws : Workspace) (fname : string) : string :=
  if isNewConfig (parsedBlueprints (state ws) !! fname)
  then path_join (localStorage (config ws)) fname
  else path_join (baseDir (config ws)) fname.

Definition dropDirty (fname : string) (w : World) : World :=
  (mkWorkspace (config w.1) (state w.1) (useCache w.1)
     (set_delete fname (dirtyBlueprints w.1)), w.2).

(** The callback flush maps over the dirty set.  A rejected call rejects
    flush: [None].  For a name without a blueprint that the map inherits
    from [Object.prototype], [bp] is the inherited member, which is truthy
    and has no [elements]: [isNewConfig] throws a TypeError on
    [bp.elements.length] before any call is made, and flush rejects. *)
Definition flushBlueprint (fname : string) (w : World) : option World :=
  let bp := parsedBlueprints (state w.1) !! fname in
  let filePath := flushPath w.1 fname in
  w' ← match bp with
       | None => if inherited fname then None else perform (Rm filePath) w
       | Some bp =>
           w1 ← perform (Mkdirp (path_dirname filePath)) w;
           w2 ← perform (WriteTextFile filePath (buffer bp)) w1;
           if useCache w.1
           then perform (CachePut filePath (dateNow filePath) bp) w2
           else Some w2
       end;
  Some (dropDirty fname w').

Definition flushAll (names : list string) (w : option World) : option World :=
  foldl (fun acc fname => acc ≫= flushBlueprint fname) w names.

(** [flush]: the callbacks of the names that are dirty when flush starts,
    in the order of the set; each removes its name once its calls are done. *)
Definition flush (ws : Workspace) : option World :=
  flushAll (dirtyBlueprints ws) (Some (ws, [])).

(** What one callback leaves behind: the call that removes or writes the
    file is in the log, the name is no longer dirty. *)
Definition flushed (ws : Workspace) (fname : string)
    (log : list FileOp) : Prop :=
  match parsedBlueprints (state ws) !! fname with
  | None => Rm (flushPath ws fname) ∈ log
  | Some bp => WriteTextFile (flushPath ws fname) (buffer bp) ∈ log
  end.

(** The condition the specification gives for writing under local storage:
    the blueprint holds a single element and it is a config object. *)
Definition singleConfig (bp : ParsedBlueprint) : bool :=
  match elements bp with
  | [e] => isConfig (elemIDOf e)
  | _ => false
  end.
End State.

End Workspace.

(* ===================================================================== *)
(** ** Concrete inputs *)
(* ===================================================================== *)

Module FormatterSamples.
Import Changes Formatter.

(** A stand-in for the [Prompts.STARTACTION] table. *)
Definition sampleStartAction (a : ActionName) : string :=
  match a with add => "creating" | modify => "changing" | remove => "removing" end.

Definition sampleItem : @PlanItem string := mkPlanItem (AdditionDiff "salto.employee").

End FormatterSamples.

Module MergerSamples.
Import MergeErrors Merger.

(** *** The elements of merger.test.ts *)

Definition strRef : TypeRef := RefTo (mkTypeName "" "string").
Definition updateRef : TypeRef := RefTo (mkTypeName "" UPDATE_DEFINITION).

Definition baseElemID : ElemID := typeID "salto" "base".

Definition labelled (l : string) : gmap string Value := {[ "label" := VStr l ]}.

Definition base : Element :=
  ObjectType baseElemID
    {[ "field1" := mkField baseElemID "field1" strRef (labelled "base");
       "field2" := mkField baseElemID "field2" strRef (labelled "base") ]}
    {[ DEFAULT := VMap {[ "field1" := VStr "base1"; "field2" := VStr "base2" ]} ]}
    ∅ false.

Definition unrelated : Element :=
  ObjectType (typeID "salto" "unrelated")
    {[ "field1" := mkField baseElemID "field1" strRef (labelled "base") ]} ∅ ∅ false.

Definition update1 : Element :=
  ObjectType baseElemID
    {[ "field1" := mkField baseElemID "field1" updateRef (labelled "update1") ]} ∅ ∅ false.

Definition update2 : Element :=
  ObjectType baseElemID
    {[ "field2" := mkField baseElemID "field2" updateRef (labelled "update2") ]} ∅ ∅ false.

Definition updateAnno : Element :=
  ObjectType baseElemID ∅ ∅ {[ "anno1" := strRef ]} false.

Definition updateAnnoValues : Element :=
  ObjectType baseElemID ∅ {[ "anno1" := VStr "updated" ]} ∅ false.

Definition missingUpdate : Element :=
  ObjectType baseElemID
    {[ "field3" := mkField baseElemID "field3" updateRef (labelled "update3") ]} ∅ ∅ false.

Definition multipleBase : Element :=
  ObjectType baseElemID
    {[ "field1" := mkField baseElemID "field1" (ListOf strRef) (labelled "base") ]}
    ∅ ∅ false.

Definition mergedObject : Element :=
  ObjectType baseElemID
    {[ "field1" := mkField baseElemID "field1" strRef (labelled "update1");
       "field2" := mkField baseElemID "field2" strRef (labelled "update2") ]}
    {[ "anno1" := VStr "updated";
       DEFAULT := VMap {[ "field1" := VStr "base1"; "field2" := VStr "base2" ]} ]}
    {[ "anno1" := strRef ]} false.

Definition strTypeName : TypeName := mkTypeName "salto" "string".
Definition strType : Element :=
  PrimitiveType (typeID "salto" "string") STRING {[ DEFAULT := VStr "type" ]} ∅.

Definition nestedElemID : ElemID := typeID "salto" "nested".
Definition nestedName : TypeName := mkTypeName "salto" "nested".

Definition nestedField1 : Field :=
  mkField nestedElemID "field1" (RefTo strTypeName) {[ DEFAULT := VStr "field1" ]}.

Definition nestedField2 : Field :=
  mkField nestedElemID "field2" (RefTo strTypeName) ∅.

Definition nestedFields : gmap string Field :=
  {[ "field1" := nestedField1;
     "field2" := nestedField2;
     "base" := mkField nestedElemID "field2" (RefTo (mkTypeName "salto" "base")) ∅ ]}.

Definition nested : Element := ObjectType nestedElemID nestedFields ∅ ∅ false.

Definition recursiveElemID : ElemID := typeID "salto" "recursive".

Definition recursiveType : Element :=
  ObjectType recursiveElemID
    {[ "field" := mkField recursiveElemID "field"
                    (RefTo (mkTypeName "salto" "recursive")) ∅ ]} ∅ ∅ false.

Definition recursiveInstance : Element :=
  InstanceElement "ins" (mkTypeName "salto" "recursive") ∅ ∅.

(** The type objects the test elements point at. *)
Definition testStore : Store :=
  {[ typeID "salto" "string" := strType;
     baseElemID := base;
     typeID "salto" "unrelated" := unrelated;
     nestedElemID := nested;
     recursiveElemID := recursiveType ]}.

Definition instanceElement : Element :=
  InstanceElement "inst" (mkTypeName "salto" "base") ∅ ∅.

Definition instanceElement2 : Element :=
  InstanceElement "inst2" (mkTypeName "salto" "unrelated") ∅ ∅.

Definition ins1 : Element :=
  InstanceElement "ins" nestedName
    {[ "field1" := VStr "ins1"; "field2" := VStr "ins1" ]} {[ "anno" := VNum 1 ]}.

Definition ins2 : Element :=
  InstanceElement "ins" nestedName
    {[ "base" := VMap {[ "field1" := VStr "ins2"; "field2" := VStr "ins2" ]} ]}
    {[ "anno2" := VNum 1 ]}.

Definition shouldUseFieldDef : Element :=
  InstanceElement "ins" nestedName {[ "field2" := VStr "ins1" ]} ∅.

Definition shouldUseTypeDef : Element :=
  InstanceElement "ins" nestedName {[ "field1" := VStr "ins1" ]} ∅.

Definition varName : Element := VariableElement (mkElemID "var" "varName" IdVar []) (VNum 5).
Definition varName2 : Element := VariableElement (mkElemID "var" "varName2" IdVar []) (VNum 8).

Definition configType : Element :=
  ObjectType (mkElemID "test" "" IdType [])
    {[ "val1" := mkField (mkElemID "test" "" IdType []) "val1" strRef
                   {[ DEFAULT := VStr "test" ]} ]} ∅ ∅ false.

(** *** Declarations that collide *)

Definition update1Other : Element :=
  ObjectType baseElemID
    {[ "field1" := mkField baseElemID "field1" updateRef (labelled "other") ]} ∅ ∅ false.

(** The label of [field1] in a merged list that holds one object type. *)
Definition field1Label (l : list Element) : option Value :=
  match l with
  | [ObjectType _ fields _ _ _] =>
      fields !! "field1" ≫= (fun f => annotations f !! "label")
  | _ => None
  end.

Definition insMapOne : Element :=
  InstanceElement "ins" nestedName {[ "k" := VMap {[ "x" := VNum 1 ]} ]} ∅.
Definition insScalar : Element :=
  InstanceElement "ins" nestedName {[ "k" := VNum 5 ]} ∅.
Definition insMapTwo : Element :=
  InstanceElement "ins" nestedName {[ "k" := VMap {[ "x" := VNum 2 ]} ]} ∅.

Definition insWithNull : Element :=
  InstanceElement "ins" nestedName {[ "field1" := VNull ]} ∅.

Definition mergedFieldDefValue : gmap string Value :=
  {[ "field1" := VStr "field1"; "field2" := VStr "ins1";
     "base" := VMap {[ "field1" := VStr "ins2"; "field2" := VStr "ins2" ]} ]}.

Definition mergedFieldDef : Element :=
  InstanceElement "ins" nestedName mergedFieldDefValue {[ "anno2" := VNum 1 ]}.

Definition mergedTypeDefValue : gmap string Value :=
  {[ "field1" := VStr "ins1"; "field2" := VStr "type";
     "base" := VMap {[ "field1" := VStr "ins2"; "field2" := VStr "ins2" ]} ]}.

Definition mergedTypeDef : Element :=
  InstanceElement "ins" nestedName mergedTypeDefValue {[ "anno2" := VNum 1 ]}.

Definition errorKinds (r : MergeResult) : list (MergeErrorKind * string) :=
  map (fun e => (kind e, getFullName (MergeErrors.elemID e))) (errors r).

End MergerSamples.

Module WorkspaceSamples.
Import Workspace.

Definition rangeIn (file : string) (a b : nat) : SourceRange :=
  mkRange file (mkPos 1 1 a) (mkPos 1 1 b).

Definition sampleBlueprint : @ParsedBlueprint ElemID :=
  mkParsedBlueprint "type salto.employee {}" "a.bp" None [] ∅ [].

Definition sampleParseError : ParseError :=
  mkParseError (rangeIn "a.bp" 5 18) "unexpected token".

Definition sampleUnresolved : ValidationError :=
  mkValidationError UnresolvedReferenceValidationError (typeID "salto" "employee")
    "unresolved reference" "Error validating salto.employee: unresolved reference".

Definition sampleInvalid : ValidationError :=
  mkValidationError InvalidValueTypeValidationError (typeID "salto" "employee")
    "invalid value" "Error validating salto.employee: invalid value".

Definition sampleState : @WorkspaceState ElemID :=
  mkState {[ "a.bp" := sampleBlueprint ]}
    {[ "salto.employee" := [rangeIn "a.bp" 0 4] ]} []
    (mkErrors [sampleParseError] [] [sampleUnresolved; sampleInvalid]).

Definition sampleWarning : WorkspaceError :=
  mkWorkspaceError [mkFragment (rangeIn "a.bp" 0 4) "type"]
    "Error validating salto.employee: invalid value" Warning
    (Some (CauseValidation sampleInvalid)).

Definition sampleWorkspaceErrors : list WorkspaceError :=
  [ mkWorkspaceError [mkFragment (rangeIn "a.bp" 5 18) "salto.employe"]
      "unexpected token" Error (Some (CauseParse sampleParseError));
    mkWorkspaceError [mkFragment (rangeIn "a.bp" 0 4) "type"]
      "Error validating salto.employee: unresolved reference" Error
      (Some (CauseValidation sampleUnresolved));
    sampleWarning ].

(** The state of [new Workspace(config, [bp])] for a parsed blueprint
    ['a.bp'] whose parse error points into a file that is not loaded (no
    merge or validation errors). *)
Definition ghostBlueprint : @ParsedBlueprint ElemID :=
  mkParsedBlueprint "type salto.employee {" "a.bp" None [] ∅
    [mkParseError (rangeIn "ghost.bp" 0 4) "unexpected token"].

Definition danglingState : @WorkspaceState ElemID :=
  createWorkspaceState (fun elems => (elems, [])) (fun _ => [])
    (mkElemID "salto" "" IdType []) [ghostBlueprint].

(** Stand-ins for Node's [path.join] and [path.dirname] on the paths used
    below, and for [ElemID.isConfig]: an identifier that names only an
    adapter. *)
Definition sampleJoin (a b : string) : string := a ++ "/" ++ b.

Fixpoint beforeLastSlash (s : string) : option string :=
  match s with
  | EmptyString => None
  | String c rest =>
      match beforeLastSlash rest with
      | Some d => Some (String c d)
      | None => if String.eqb (String c EmptyString) "/" then Some EmptyString else None
      end
  end.

Definition sampleDirname (p : string) : string := default "." (beforeLastSlash p).

Definition sampleIsConfig (i : ElemID) : bool := bool_decide (typeName i = "").

Definition sampleConfig : Config := mkConfig "/ws" "/ws/.salto".

Definition credsBlueprint (fname : string) : @ParsedBlueprint ElemID :=
  mkParsedBlueprint "salesforce { token = 1 }" fname None
    [mkElemID "salesforce" "" IdType []] ∅ [].

Definition sampleFlush (ws : @Workspace ElemID) : option (@World ElemID) :=
  flush id sampleIsConfig sampleJoin sampleDirname (fun _ => true) (fun _ => 0%Z) ws.

(** A blueprint that holds a single config element but is not named
    [credentials/salesforce.bp]. *)
Definition strayConfigWorkspace : @Workspace ElemID :=
  mkWorkspace sampleConfig
    (mkState {[ "x.bp" := credsBlueprint "x.bp" ]} ∅ [] (mkErrors [] [] []))
    false ["x.bp"].

(** One removed blueprint and one credentials blueprint, both dirty. *)
Definition credsWorkspace : @Workspace ElemID :=
  mkWorkspace sampleConfig
    (mkState {[ "credentials/salesforce.bp" := credsBlueprint "credentials/salesforce.bp" ]}
       ∅ [] (mkErrors [] [] []))
    false ["gone.bp"; "credentials/salesforce.bp"].

Definition credsWorkspaceFlushed : @World ElemID :=
  (mkWorkspace sampleConfig (state credsWorkspace) false [],
   [ Rm "/ws/gone.bp";
     Mkdirp "/ws/.salto/credentials";
     WriteTextFile "/ws/.salto/credentials/salesforce.bp" "salesforce { token = 1 }" ]).

End WorkspaceSamples.

(* ===================================================================== *)
(** ** cli: formatter, text layout *)
(* ===================================================================== *)

Module FormatterText.
Import Changes.

(** [String.prototype.split] with a separator of one character: the pieces
    between the separators, [[""]] for the empty string. *)
Fixpoint split (sep : Ascii.ascii) (s : string) : list string :=
  match s with
  | EmptyString => [EmptyString]
  | String c rest =>
      if Ascii.eqb c sep then EmptyString :: split sep rest
      else match split sep rest with
           | piece :: pieces => String c piece :: pieces
           | [] => [String c EmptyString]
           end
  end.

Definition newline : Ascii.ascii := Ascii.ascii_of_nat 10.

(** [_.repeat(s, n)] *)
Fixpoint repeatString (s : string) (n : nat) : string :=
  match n with
  | 0 => EmptyString
  | S k => s ++ repeatString s k
  end.

(** [indent]: every line of [text] behind [level] times two spaces. *)
Definition indent (text : string) (level : nat) : string :=
  let indentText := repeatString "  " level in
  joinWith (String newline EmptyString)
    (map (fun line => indentText ++ line) (split newline text)).

(** [seperator] *)
Definition seperator : string :=
  String newline (repeatString "-" 78 ++ String newline EmptyString).

Section MissingChanges.
(** The identifiers of the changes, as far as the formatter reads them:
    [createParentID], [nameParts] and [getFullName] of ElemID. *)
Context {ID V : Type}.
Variable createParentID : ID -> ID.
Variable nameParts : ID -> list string.
Variable getFullName : ID -> string.

(** A detailed change: its action, [data.before], [data.after] and id. *)
Record DetailedChange := mkDetailedChange {
  dc_action : ActionName;
  dc_before : option V;
  dc_after : option V;
  dc_id : ID;
}.

Definition emptyChange (id : ID) : DetailedChange :=
  mkDetailedChange modify None None id.

(** [createMissingChanges]: the chain of parents of [id] up to the first one
    that has no name parts or is already known; each is recorded in
    [existingIds], the set shared by all the calls.  The recursion goes up
    the parents, [fuel] bounds its depth; [None] when it is used up. *)
Fixpoint createMissingChanges (fuel : nat) (id : ID) (existingIds : gset string)
  : option (list DetailedChange * gset string) :=
  match fuel with
  | 0 => None
  | S fuel' =>
      let parentId := createParentID id in
      if (length (nameParts parentId) =? 0)%nat
         || bool_decide (getFullName parentId ∈ existingIds)
      then Some ([], existingIds)
      else
        '(rest, existingIds') ←
          createMissingChanges fuel' parentId ({[getFullName parentId]} ∪ existingIds);
        Some (emptyChange parentId :: rest, existingIds')
  end.

(** The calls of [createMissingChanges] over the changes, in order, on the
    one set. *)
Fixpoint missingChangesOf (fuel : nat) (changes : list DetailedChange)
    (existingIds : gset string) : option (list DetailedChange * gset string) :=
  match changes with
  | [] => Some ([], existingIds)
  | change :: rest =>
      '(missing, existingIds') ← createMissingChanges fuel (dc_id change) existingIds;
      '(more, existingIds'') ← missingChangesOf fuel rest existingIds';
      Some ((missing ++ more)%list, existingIds'')
  end.

(** The parent of [id] has no name parts or is named in [names]. *)
Definition parentKnown (names : gset string) (id : ID) : Prop :=
  nameParts (createParentID id) = [] \/ getFullName (createParentID id) ∈ names.

(** [addMissingEmptyChanges]: the changes followed by an empty change for
    every level that is missing above them. *)
Definition addMissingEmptyChanges (fuel : nat) (changes : list DetailedChange)
  : option (list DetailedChange) :=
  let existingIds : gset string :=
    list_to_set (map (fun c => getFullName (dc_id c)) changes) in
  '(missingChanges, _) ← missingChangesOf fuel changes existingIds;
  Some (changes ++ missingChanges)%list.
End MissingChanges.

End FormatterText.

(* ===================================================================== *)
(** ** salto: workspace, edits *)
(* ===================================================================== *)

Module WorkspaceOps.
Import Workspace.

Section Ops.
Context {Element : Type}.
Variable elemIDOf : Element -> ElemID.
Variable isConfig : ElemID -> bool.
Variable path_join : string -> string -> string.
Variable path_dirname : string -> string.
Variable mergeElementsOf : list Element -> list Element * list MergeErrors.MergeError.
Variable validateElementsOf : list Element -> list ValidationError.
Variable saltoConfigType : Element.
Variable fileOk : @FileOp Element -> bool.
Variable dateNow : string -> Z.

(** [Blueprint]: a buffer under a filename, with the time of its last
    modification when it was read from disk. *)
Record Blueprint := mkBlueprint {
  bp_buffer : string;
  bp_filename : string;
  bp_timestamp : option Z;
}.

(** [ParseResult] of the parser. *)
Record ParseResult := mkParseResult {
  pr_elements : list Element;
  pr_sourceMap : gmap string (list SourceRange);
  pr_errors : list ParseError;
}.

(** [parse(buffer, filename)] of parser/parse. *)
Variable parse : string -> string -> ParseResult.

(** [Object.values] of a map of parsed blueprints: the blueprints in the
    order in which the engine enumerates the keys. *)
Variable objectValues : gmap string (@ParsedBlueprint Element) -> list (@ParsedBlueprint Element).

(** [parseBlueprint]: [{ ...bp, ...await parse(buffer, filename) }] *)
Definition parseBlueprint (bp : Blueprint) : @ParsedBlueprint Element :=
  let r := parse (bp_buffer bp) (bp_filename bp) in
  mkParsedBlueprint (bp_buffer bp) (bp_filename bp) (bp_timestamp bp)
    (pr_elements r) (pr_sourceMap r) (pr_errors r).

Definition parseBlueprints (blueprints : list Blueprint) : list (@ParsedBlueprint Element) :=
  map parseBlueprint blueprints.

(** [new Workspace(config, blueprints, useCache)] *)
Definition newWorkspace (cfg : Config) (blueprints : list (@ParsedBlueprint Element))
    (cache : bool) : @Workspace Element :=
  mkWorkspace cfg
    (createWorkspaceState mergeElementsOf validateElementsOf saltoConfigType blueprints)
    cache [].

(** [_.keyBy] and the own entries an object gains, one blueprint after the
    other: a later blueprint replaces an earlier one of the same filename. *)
Definition insertBlueprints (m : gmap string (@ParsedBlueprint Element))
    (parsed : list (@ParsedBlueprint Element)) : gmap string (@ParsedBlueprint Element) :=
  foldl (fun acc bp => <[filename bp := bp]> acc) m parsed.

(** [Object.assign({}, this.parsedBlueprints, ...parsed.map(bp => ({ [bp.filename]: bp })))]:
    every own entry of the sources is written to the target with an
    assignment.  The assignment to [__proto__] runs the setter of
    [Object.prototype]: it sets the prototype of the target and stores no
    entry, so the result has no own entry of that name, neither from the
    blueprints held before nor from the new ones. *)
Definition assignBlueprints (m : gmap string (@ParsedBlueprint Element))
    (parsed : list (@ParsedBlueprint Element)) : gmap string (@ParsedBlueprint Element) :=
  delete "__proto__" (insertBlueprints m parsed).

(** [setBlueprints]: parse, overwrite by filename, mark dirty, swap the
    state. *)
Definition setBlueprints (blueprints : list Blueprint) (ws : @Workspace Element)
  : @Workspace Element :=
  let parsed := parseBlueprints blueprints in
  let newParsedMap := assignBlueprints (parsedBlueprints (state ws)) parsed in
  mkWorkspace (config ws)
    (createWorkspaceState mergeElementsOf validateElementsOf saltoConfigType
       (objectValues newParsedMap))
    (useCache ws)
    (markDirtyIn (map bp_filename blueprints) (dirtyBlueprints ws)).

(** [_.omit(object, names)] for names that lodash reads as keys.  It reads
    a name as a key when the name is a key of the object or holds neither
    ['.'] nor ['[']; a name of another form is a path into the values, which
    is not modelled: see [readAsKey]. *)
Definition omit (names : list string) (m : gmap string (@ParsedBlueprint Element))
  : gmap string (@ParsedBlueprint Element) :=
  filter (fun kv => kv.1 ∉ names) m.

Definition isPathChar (c : Ascii.ascii) : bool :=
  Ascii.eqb c (Ascii.ascii_of_nat 46) || Ascii.eqb c (Ascii.ascii_of_nat 91).

Fixpoint hasPathChar (s : string) : bool :=
  match s with
  | EmptyString => false
  | String c rest => isPathChar c || hasPathChar rest
  end.

Definition readAsKey (m : gmap string (@ParsedBlueprint Element)) (name : string) : bool :=
  match m !! name with
  | Some _ => true
  | None => negb (hasPathChar name)
  end.

(** [removeBlueprints]: drop the names, mark them dirty, swap the state. *)
Definition removeBlueprints (names : list string) (ws : @Workspace Element)
  : @Workspace Element :=
  let newParsedBlueprints := objectValues (omit names (parsedBlueprints (state ws))) in
  mkWorkspace (config ws)
    (createWorkspaceState mergeElementsOf validateElementsOf saltoConfigType
       newParsedBlueprints)
    (useCache ws)
    (markDirtyIn names (dirtyBlueprints ws)).

(** Every blueprint of the map sits under its own filename. *)
Definition keyedByFilename (m : gmap string (@ParsedBlueprint Element)) : Prop :=
  forall k bp, m !! k = Some bp -> filename bp = k.

(** The parse errors and the source ranges of a blueprint point into the
    blueprint itself. *)
Definition ownRanges (bp : @ParsedBlueprint Element) : Prop :=
  (forall pe, pe ∈ errors bp -> sr_filename (subject pe) = filename bp)
  /\ (forall name ranges sr, sourceMap bp !! name = Some ranges -> sr ∈ ranges ->
      sr_filename sr = filename bp).

(** The read [this.parsedBlueprints[filename]] gives an inherited member:
    no blueprint is stored under the name and [Object.prototype] has it. *)
Definition readsInherited (ws : @Workspace Element) (fname : string) : bool :=
  match parsedBlueprints (state ws) !! fname with
  | None => inherited fname
  | Some _ => false
  end.

(** The calls flush makes for one dirty filename; none when the read gives
    an inherited member, where [isNewConfig] throws first. *)
Definition fileCalls (ws : @Workspace Element) (fname : string) : list (@FileOp Element) :=
  let filePath := flushPath elemIDOf isConfig path_join ws fname in
  match parsedBlueprints (state ws) !! fname with
  | None => if inherited fname then [] else [Rm filePath]
  | Some bp =>
      (Mkdirp (path_dirname filePath) :: WriteTextFile filePath (buffer bp)
       :: (if useCache ws then [CachePut filePath (dateNow filePath) bp] else []))
  end.

End Ops.

End WorkspaceOps.

(* ===================================================================== *)
(** ** salto: devaluate *)
(* ===================================================================== *)

Module Devaluate.
Import FormatterText.

Section Devaluate.
(** The values that are neither strings, arrays, plain objects nor
    reference expressions: numbers, booleans, [null], [undefined]. *)
Context {Other : Type}.

(** [ReferenceExpression.TRAVERSAL_SEPERATOR] of core/expressions, a string
    of one character. *)
Variable TRAVERSAL_SEPERATOR : Ascii.ascii.

(** The values devaluate tells apart.  A plain object is the list of its
    entries, in the order in which the engine enumerates them; a reference
    expression is its [traversal]. *)
#[warnings="-register-all"] Inductive JSValue :=
| JString (str : string)
| JArray (arr : list JSValue)
| JObject (obj : list (string * JSValue))
| JReference (traversal : string)
| JOther (o : Other).

(** [HCLExpression]: [{ type, expressions, value? }] *)
#[warnings="-register-all"] Inductive HCLExpression :=
| mkExpression (type : string) (expressions : list HCLExpression) (value : option JSValue).

Definition type (e : HCLExpression) : string :=
  match e with mkExpression t _ _ => t end.

Definition expressions (e : HCLExpression) : list HCLExpression :=
  match e with mkExpression _ es _ => es end.

Definition value (e : HCLExpression) : option JSValue :=
  match e with mkExpression _ _ v => v end.

Definition devaluateValue (v : JSValue) : HCLExpression :=
  mkExpression "literal" [] (Some v).

Definition devaluateString (str : string) : HCLExpression :=
  mkExpression "template" [devaluateValue (JString str)] None.

Definition devaluateReference (traversal : string) : HCLExpression :=
  mkExpression "reference" []
    (Some (JArray (map JString (split TRAVERSAL_SEPERATOR traversal)))).

(** [devaluate]: the tests of the source in their order.  In
    [devaluateObject] the keys of the flattened entries are strings, so that
    [devaluate] of a key is [devaluateString] of it. *)
Fixpoint devaluate (v : JSValue) : HCLExpression :=
  match v with
  | JString str => devaluateString str
  | JArray arr => mkExpression "list" (map devaluate arr) None
  | JObject obj =>
      mkExpression "map"
        (flat_map (fun '(k, x) => [devaluateString k; devaluate x]) obj) None
  | JReference traversal => devaluateReference traversal
  | JOther o => devaluateValue (JOther o)
  end.

(** [_(obj).entries().flatten()]: one level is flattened, the values stay
    as they are. *)
Definition flattenEntries (obj : list (string * JSValue)) : list JSValue :=
  flat_map (fun '(k, x) => [JString k; x]) obj.

(** An expression and the expressions below it. *)
Fixpoint nodes (e : HCLExpression) : list HCLExpression :=
  match e with
  | mkExpression _ es _ => e :: flat_map nodes es
  end.

End Devaluate.
End Devaluate.

(** *** Sample changes of a plan *)

Module FormatterTextSamples.
Import Changes FormatterText.

(** A change of the field [name.first] of [salto.employee]: the level
    [name] above it is missing. *)
Definition nestedChange : @DetailedChange ElemID string :=
  mkDetailedChange add None (Some "first")
    (mkElemID "salto" "employee" IdField ["name"; "first"]).

Definition missingLevel : @DetailedChange ElemID string :=
  emptyChange (mkElemID "salto" "employee" IdField ["name"]).

End FormatterTextSamples.

(** *** Sample edits of a workspace *)

Module WorkspaceOpsSamples.
Import Workspace WorkspaceSamples WorkspaceOps.

(** Stand-ins for the merger, the validator and the parser: no errors, no
    elements; and for [Object.values]: the values in the order of the keys
    of the map. *)
Definition sampleMerge (elems : list ElemID) : list ElemID * list MergeErrors.MergeError :=
  (elems, []).

Definition sampleValidate (elems : list ElemID) : list ValidationError := [].

Definition sampleConfigType : ElemID := mkElemID "salto" "" IdType [].

Definition sampleParse (buffer fname : string) : @ParseResult ElemID :=
  mkParseResult [] ∅ [].

Definition sampleObjectValues (m : gmap string (@ParsedBlueprint ElemID))
  : list (@ParsedBlueprint ElemID) :=
  (map_to_list m).*2.

(** [new Workspace(config, [a.bp], false)] *)
Definition loadedWorkspace : @Workspace ElemID :=
  newWorkspace sampleMerge sampleValidate sampleConfigType sampleConfig
    [sampleBlueprint] false.

Definition sampleRemove (names : list string) (ws : @Workspace ElemID) : @Workspace ElemID :=
  removeBlueprints sampleMerge sampleValidate sampleConfigType sampleObjectValues names ws.

Definition sampleSet (bps : list Blueprint) (ws : @Workspace ElemID) : @Workspace ElemID :=
  setBlueprints sampleMerge sampleValidate sampleConfigType sampleParse
    sampleObjectValues bps ws.

Definition newBlueprint : Blueprint := mkBlueprint "type salto.office {}" "b.bp" None.

(** The world after [removeBlueprints('a.bp')] and a flush, and after
    [setBlueprints(b.bp)] and a flush. *)
Definition removedFlushed : @World ElemID :=
  (mkWorkspace sampleConfig (state (sampleRemove ["a.bp"] loadedWorkspace)) false [],
   [Rm "/ws/a.bp"]).

Definition setFlushed : @World ElemID :=
  (mkWorkspace sampleConfig (state (sampleSet [newBlueprint] loadedWorkspace)) false [],
   [Mkdirp "/ws"; WriteTextFile "/ws/b.bp" "type salto.office {}"]).

(** A blueprint with a parse error and a source range of its own. *)
Definition ownBlueprint : @ParsedBlueprint ElemID :=
  mkParsedBlueprint "type salto.employee {" "a.bp" None
    [typeID "salto" "employee"]
    {[ "salto.employee" := [rangeIn "a.bp" 0 4] ]}
    [mkParseError (rangeIn "a.bp" 5 18) "unexpected token"].

End WorkspaceOpsSamples.

(** *** Sample values *)

Module DevaluateSamples.
Import Devaluate.

Definition dot : Ascii.ascii := Ascii.ascii_of_nat 46.

(** [{ name: 'me', tags: [1, ref] }] with numbers for the other values. *)
Definition sampleReference : @JSValue Z := JReference "salto.employee.name".

Definition sampleObject : @JSValue Z :=
  JObject [("name", JString "me"); ("tags", JArray [JOther 1%Z; sampleReference])].

Definition sampleReferenceExpression : @HCLExpression Z :=
  devaluate dot sampleReference.

End DevaluateSamples.

(* ===================================================================== *)
(** * Properties *)
(* ===================================================================== *)

(** ** Changes *)

Module ChangesProps.
Import Changes.

(** C8: [getChangeElement] returns [data.before] of a change whose action
    is ['remove'] and [data.after] of every other change ('add', 'modify'). *)
Theorem getChangeElement_before_or_after {T : Type} (change : Change T) :
  Some (getChangeElement change)
  = match action change with
    | remove => data_before change
    | add | modify => data_after change
    end.
Proof. by destruct change. Qed.

End ChangesProps.

(** ** Formatter *)

Module FormatterProps.
Import Changes Formatter FormatterSamples.

Lemma elapsedRound_zero (elapsed : Z) : elapsedRound (Some elapsed) = Some 0%Z.
Proof. unfold elapsedRound. cbn. by rewrite Z.sub_diag. Qed.

(** Whatever the plan item, the clock and the valid start date, the message
    of [createActionInProgressOutput] says [0s]. *)
Lemma createActionInProgressOutput_constant {T : Type}
    (elemFullName : T -> string) (STARTACTION : ActionName -> string)
    (chalk_reset : string -> string) (act : PlanItem) (now start : Z) :
  createActionInProgressOutput elemFullName STARTACTION chalk_reset act now (Some start)
  = chalk_reset (elemFullName (getChangeElement (parent act)) ++ ": Still "
                 ++ STARTACTION (action (parent act)) ++ "... (0s elapsed)").
Proof.
  unfold createActionInProgressOutput, body, planItemName, fullName.
  unfold getElapsedTime. cbn [mbind option_bind]. by rewrite elapsedRound_zero.
Qed.

(** Dates further apart than [2^53] milliseconds: the subtraction is rounded
    to an even number, here from 17279999999999001 down, and a thousand
    milliseconds less are counted. *)
Example getElapsedTime_far_apart :
  getElapsedTime 8639999999999001 (Some (-8640000000000000)%Z) = Some 17279999999999%Z.
Proof. vm_compute. reflexivity. Qed.

(** An invalid start date: the elapsed time is NaN and is printed so. *)
Example createItemDoneOutput_invalid_date :
  getElapsedTime 7000 None = None
  /\ createItemDoneOutput id (fun _ => "created") sampleItem 7000 None
     = "salto.employee: created completed after NaNs".
Proof. split; vm_compute; reflexivity. Qed.

(** C7: seven seconds after the start (start at 0 ms, clock at 7000 ms)
    [getElapsedTime] is 7, and [createActionInProgressOutput] still prints
    [0s elapsed] where the elapsed seconds, [7s elapsed], are due. *)
Theorem createActionInProgressOutput_ignores_elapsed :
  getElapsedTime 7000 (Some 0%Z) = Some 7%Z
  /\ createActionInProgressOutput id sampleStartAction id sampleItem 7000 (Some 0%Z)
     = "salto.employee: Still creating... (0s elapsed)"
  /\ inProgressWithElapsed id sampleStartAction id sampleItem 7000 (Some 0%Z)
     = "salto.employee: Still creating... (7s elapsed)"
  /\ createActionInProgressOutput id sampleStartAction id sampleItem 7000 (Some 0%Z)
     <> inProgressWithElapsed id sampleStartAction id sampleItem 7000 (Some 0%Z).
Proof. repeat split; try reflexivity. by vm_compute. Qed.

End FormatterProps.

(** ** Workspace errors *)

Module WorkspaceProps.
Import Workspace WorkspaceSamples.

(** C9: [hasErrors] is true exactly when one of the parse, merge and
    validation error lists is not empty. *)
Theorem hasErrors_iff_some_nonempty (e : Errors) :
  hasErrors e = true
  <-> parse e <> [] \/ merge e <> [] \/ validation e <> [].
Proof.
  unfold hasErrors.
  destruct (parse e), (merge e), (validation e); cbn; split;
    try done; try (intros [?|[?|?]]; done); auto.
Qed.

Section Props.
Context {Element : Type}.

#[local] Abbreviation State := (@WorkspaceState Element).

Lemma parseWorkspaceError_Some (st : State) pe we :
  parseWorkspaceError st pe = Some we ->
  severity we = Error /\ cause we = Some (CauseParse pe).
Proof.
  unfold parseWorkspaceError. intros H.
  destruct (resolveSourceFragment st (subject pe)); simplify_eq/=. done.
Qed.

Lemma mergeWorkspaceError_Some (st : State) me we :
  mergeWorkspaceError st me = Some we ->
  severity we = Error /\ cause we = Some (CauseMerge me).
Proof.
  unfold mergeWorkspaceError. intros H.
  destruct (mapM _ _); simplify_eq/=. done.
Qed.

Lemma validationWorkspaceError_Some (st : State) ve we :
  validationWorkspaceError st ve = Some we ->
  severity we = calculateValidationSeverity ve
  /\ cause we = Some (CauseValidation ve).
Proof.
  unfold validationWorkspaceError. intros H.
  destruct (mapM _ _); simplify_eq/=. done.
Qed.

Lemma calculateValidationSeverity_class (ve : ValidationError) :
  calculateValidationSeverity ve
  = match ve_class ve with
    | UnresolvedReferenceValidationError => Error
    | _ => Warning
    end.
Proof.
  unfold calculateValidationSeverity, SeverValidationErrors, instanceOf.
  by destruct (ve_class ve).
Qed.

(** The three parts of a result of [getWorkspaceErrors]. *)
Lemma getWorkspaceErrors_Some (st : State) errs :
  getWorkspaceErrors st = Some errs ->
  exists ps ms vs,
    errs = (ps ++ ms ++ vs)%list
    /\ Forall2 (fun pe we => parseWorkspaceError st pe = Some we)
         (parse (st_errors st)) ps
    /\ Forall2 (fun me we => mergeWorkspaceError st me = Some we)
         (merge (st_errors st)) ms
    /\ Forall2 (fun ve we => validationWorkspaceError st ve = Some we)
         (validation (st_errors st)) vs.
Proof.
  unfold getWorkspaceErrors. intros H.
  destruct (mapM (parseWorkspaceError st) _) as [ps|] eqn:Hp; [|done].
  destruct (mapM (mergeWorkspaceError st) _) as [ms|] eqn:Hm; [|done].
  destruct (mapM (validationWorkspaceError st) _) as [vs|] eqn:Hv; [|done].
  simplify_eq/=. exists ps, ms, vs.
  by rewrite <- !mapM_Some.
Qed.

(** C4: every workspace error that [getWorkspaceErrors] produces has
    severity [Error] when its cause is a parse error, a merge error or an
    [UnresolvedReferenceValidationError], and [Warning] when its cause is a
    validation error of any other kind. *)
Theorem getWorkspaceErrors_severity (st : State) errs we :
  getWorkspaceErrors st = Some errs ->
  we ∈ errs ->
  match cause we with
  | Some (CauseParse _) | Some (CauseMerge _) => severity we = Error
  | Some (CauseValidation ve) =>
      match ve_class ve with
      | UnresolvedReferenceValidationError => severity we = Error
      | InvalidValueTypeValidationError
      | CircularReferenceValidationError
      | MissingRequiredFieldValidationError => severity we = Warning
      end
  | None => False
  end.
Proof.
  intros (ps & ms & vs & -> & Hp & Hm & Hv)%getWorkspaceErrors_Some Hin.
  rewrite !elem_of_app in Hin. destruct Hin as [Hin | [Hin | Hin]].
  - apply list_elem_of_lookup in Hin as [i Hi].
    destruct (Forall2_lookup_r _ _ _ _ _ Hp Hi) as (pe & _ & Hpe).
    apply parseWorkspaceError_Some in Hpe as [? ->]. done.
  - apply list_elem_of_lookup in Hin as [i Hi].
    destruct (Forall2_lookup_r _ _ _ _ _ Hm Hi) as (me & _ & Hme).
    apply mergeWorkspaceError_Some in Hme as [? ->]. done.
  - apply list_elem_of_lookup in Hin as [i Hi].
    destruct (Forall2_lookup_r _ _ _ _ _ Hv Hi) as (ve & _ & Hve).
    apply validationWorkspaceError_Some in Hve as [Hs ->].
    rewrite Hs, calculateValidationSeverity_class. by destruct (ve_class ve).
Qed.

Lemma resolveSourceFragment_is_Some (st : State) sr :
  is_Some (parsedBlueprints st !! sr_filename sr) ->
  is_Some (resolveSourceFragment st sr).
Proof. unfold resolveSourceFragment. by intros [bp ->]. Qed.

Lemma resolve_all_is_Some (st : State) (srs : list SourceRange) :
  (forall sr, sr ∈ srs -> is_Some (parsedBlueprints st !! sr_filename sr)) ->
  is_Some (mapM (resolveSourceFragment st) srs).
Proof.
  intros H. apply mapM_is_Some, Forall_forall. intros sr Hsr.
  by apply resolveSourceFragment_is_Some, H.
Qed.

Lemma Forall2_map_cause {A} (f : A -> option WorkspaceError) (g : A -> Cause)
    (l : list A) (k : list WorkspaceError) :
  (forall a we, f a = Some we -> cause we = Some (g a)) ->
  Forall2 (fun a we => f a = Some we) l k ->
  map cause k = map (fun a => Some (g a)) l.
Proof.
  intros Hf. induction 1 as [|a we l k Ha _ IH]; [done|].
  cbn. by rewrite IH, (Hf _ _ Ha).
Qed.

(** C10, amended: when every source range an error points at names a
    loaded blueprint, [getWorkspaceErrors] returns a list with exactly one
    workspace error per underlying error, the parse errors first, then the
    merge errors, then the validation errors, each in the order of its list;
    the length of the result is the sum of the three lengths. *)
Theorem getWorkspaceErrors_one_per_error (st : State) :
  rangesResolve st ->
  exists errs,
    getWorkspaceErrors st = Some errs
    /\ map cause errs
       = (map (fun pe => Some (CauseParse pe)) (parse (st_errors st))
          ++ map (fun me => Some (CauseMerge me)) (merge (st_errors st))
          ++ map (fun ve => Some (CauseValidation ve)) (validation (st_errors st)))%list
    /\ length errs
       = length (parse (st_errors st)) + length (merge (st_errors st))
         + length (validation (st_errors st)).
Proof.
  intros (Hp & Hm & Hv).
  assert (is_Some (getWorkspaceErrors st)) as [errs Herrs].
  { unfold getWorkspaceErrors.
    assert (is_Some (mapM (parseWorkspaceError st) (parse (st_errors st)))) as [ps ->].
    { apply mapM_is_Some, Forall_forall. intros pe Hpe.
      unfold compose, parseWorkspaceError.
      destruct (resolveSourceFragment_is_Some st _ (Hp _ Hpe)) as [sf ->]. by eexists. }
    assert (is_Some (mapM (mergeWorkspaceError st) (merge (st_errors st)))) as [ms ->].
    { apply mapM_is_Some, Forall_forall. intros me Hme.
      unfold compose, mergeWorkspaceError.
      destruct (resolve_all_is_Some st _ (fun sr => Hm me sr Hme)) as [sfs ->].
      by eexists. }
    assert (is_Some (mapM (validationWorkspaceError st) (validation (st_errors st))))
      as [vs ->].
    { apply mapM_is_Some, Forall_forall. intros ve Hve.
      unfold compose, validationWorkspaceError.
      destruct (resolve_all_is_Some st _ (fun sr => Hv ve sr Hve)) as [sfs ->].
      by eexists. }
    by eexists. }
  exists errs. split; [done|].
  destruct (getWorkspaceErrors_Some _ _ Herrs) as (ps & ms & vs & -> & Fp & Fm & Fv).
  split.
  - rewrite !map_app.
    rewrite (Forall2_map_cause _ CauseParse _ _
               (fun a we H => proj2 (parseWorkspaceError_Some st a we H)) Fp).
    rewrite (Forall2_map_cause _ CauseMerge _ _
               (fun a we H => proj2 (mergeWorkspaceError_Some st a we H)) Fm).
    by rewrite (Forall2_map_cause _ CauseValidation _ _
               (fun a we H => proj2 (validationWorkspaceError_Some st a we H)) Fv).
  - rewrite !length_app.
    rewrite <- (Forall2_length _ _ _ Fp), <- (Forall2_length _ _ _ Fm),
      <- (Forall2_length _ _ _ Fv). lia.
Qed.

End Props.

(** *** Concrete states *)

Lemma getWorkspaceErrors_sampleState :
  getWorkspaceErrors sampleState = Some sampleWorkspaceErrors.
Proof. by vm_compute. Qed.

Lemma getWorkspaceErrors_severity_witness : severity sampleWarning = Warning.
Proof.
  apply (getWorkspaceErrors_severity sampleState sampleWorkspaceErrors sampleWarning).
  - vm_compute. reflexivity.
  - unfold sampleWorkspaceErrors. do 2 apply list_elem_of_further.
    apply list_elem_of_here.
Defined.

(** C10 as stated fails: on [danglingState] the lookup of the blueprint of
    ['ghost.bp'] is [undefined], reading its buffer throws, and no list of
    workspace errors is returned. *)
Lemma getWorkspaceErrors_dangling_range :
  ~ exists errs, getWorkspaceErrors danglingState = Some errs
                 /\ length errs = 1 + 0 + 0.
Proof. intros (errs & H & _). vm_compute in H. discriminate. Qed.

Lemma rangesResolve_sampleState : rangesResolve sampleState.
Proof.
  repeat split.
  - intros pe ->%list_elem_of_singleton. vm_compute. by eexists.
  - intros me sr H. by apply elem_of_nil in H.
  - intros ve sr Hve Hsr.
    assert (sr = rangeIn "a.bp" 0 4) as ->.
    { cbn in Hve. rewrite !elem_of_cons in Hve.
      destruct Hve as [-> | [-> | []%elem_of_nil]];
        vm_compute in Hsr; by apply list_elem_of_singleton in Hsr. }
    vm_compute. by eexists.
Defined.

Lemma getWorkspaceErrors_one_per_error_witness :
  exists errs,
    getWorkspaceErrors sampleState = Some errs
    /\ map cause errs
       = [Some (CauseParse sampleParseError); Some (CauseValidation sampleUnresolved);
          Some (CauseValidation sampleInvalid)]
    /\ length errs = 3.
Proof.
  apply (getWorkspaceErrors_one_per_error sampleState rangesResolve_sampleState).
Defined.

End WorkspaceProps.

(** ** Flush *)

Module FlushProps.
Import Workspace WorkspaceSamples.

Section Props.
Context {Element : Type}.
Variable elemIDOf : Element -> ElemID.
Variable isConfig : ElemID -> bool.
Variable path_join : string -> string -> string.
Variable path_dirname : string -> string.
Variable fileOk : @FileOp Element -> bool.
Variable dateNow : string -> Z.

#[local] Abbreviation flushBlueprint' :=
  (flushBlueprint elemIDOf isConfig path_join path_dirname fileOk dateNow).
#[local] Abbreviation flushAll' :=
  (flushAll elemIDOf isConfig path_join path_dirname fileOk dateNow).
#[local] Abbreviation flush' :=
  (flush elemIDOf isConfig path_join path_dirname fileOk dateNow).
#[local] Abbreviation flushPath' := (flushPath elemIDOf isConfig path_join).
#[local] Abbreviation flushed' := (flushed elemIDOf isConfig path_join).

Lemma perform_Some op (w w' : @World Element) :
  perform fileOk op w = Some w' -> w' = (w.1, (w.2 ++ [op])%list).
Proof. unfold perform. destruct (fileOk op); congruence. Qed.

Lemma flushPath_same_state (ws ws' : @Workspace Element) fname :
  config ws' = config ws -> state ws' = state ws ->
  flushPath' ws' fname = flushPath' ws fname.
Proof. unfold flushPath. by intros -> ->. Qed.

Lemma flushBlueprint_Some fname (w w' : @World Element) :
  flushBlueprint' fname w = Some w' ->
  config w'.1 = config w.1 /\ state w'.1 = state w.1
  /\ dirtyBlueprints w'.1 = set_delete fname (dirtyBlueprints w.1)
  /\ exists ops, w'.2 = (w.2 ++ ops)%list /\ flushed' w.1 fname ops.
Proof.
  unfold flushBlueprint, flushed. intros H.
  destruct (parsedBlueprints (state w.1) !! fname) as [bp|] eqn:Hbp; cbn in H.
  - destruct (perform fileOk (Mkdirp _) w) as [w1|] eqn:H1; [|done]. cbn in H.
    apply perform_Some in H1 as ->. cbn in H.
    destruct (perform fileOk (WriteTextFile _ _) _) as [w2|] eqn:H2; [|done].
    cbn in H. apply perform_Some in H2 as ->. cbn in H.
    destruct (useCache w.1).
    + destruct (perform fileOk (CachePut _ _ _) _) as [w3|] eqn:H3; [|done].
      apply perform_Some in H3 as ->. simplify_eq/=.
      repeat split. eexists [_; _; _]. rewrite <- !app_assoc. split; [done|].
      apply list_elem_of_further, list_elem_of_here.
    + simplify_eq/=. repeat split. eexists [_; _]. rewrite <- !app_assoc.
      split; [done|]. apply list_elem_of_further, list_elem_of_here.
  - destruct (inherited fname); [done|].
    destruct (perform fileOk (Rm _) w) as [w1|] eqn:H1; [|done].
    apply perform_Some in H1 as ->. simplify_eq/=.
    repeat split. eexists [_]. split; [done|]. apply list_elem_of_here.
Qed.

Lemma flushAll_None names : flushAll' names None = None.
Proof. unfold flushAll. induction names as [|n names IH]; [done|]. apply IH. Qed.

Lemma flushAll_cons fname names (w : @World Element) :
  flushAll' (fname :: names) (Some w)
  = flushAll' names (flushBlueprint' fname w).
Proof. reflexivity. Qed.

Lemma flushed_same_state (ws ws' : @Workspace Element) fname log :
  config ws' = config ws -> state ws' = state ws ->
  flushed' ws fname log -> flushed' ws' fname log.
Proof.
  unfold flushed. intros Hc Hs. rewrite Hs.
  by rewrite (flushPath_same_state ws ws' fname Hc Hs).
Qed.

Lemma flushed_app (ws : @Workspace Element) fname log1 log2 :
  flushed' ws fname log1 \/ flushed' ws fname log2 ->
  flushed' ws fname (log1 ++ log2).
Proof.
  unfold flushed. destruct (parsedBlueprints (state ws) !! fname);
    rewrite elem_of_app; tauto.
Qed.

Lemma filter_keeps_all {A} (P : A -> Prop) `{!forall x, Decision (P x)} (l : list A) :
  (forall x, x ∈ l -> P x) -> filter P l = l.
Proof.
  induction l as [|a l IH]; intros Hall; [done|].
  rewrite filter_cons_True by (apply Hall; left).
  f_equal. apply IH. intros x Hx. apply Hall. by right.
Qed.

Lemma flushAll_Some names : forall (w w' : @World Element),
  flushAll' names (Some w) = Some w' ->
  config w'.1 = config w.1 /\ state w'.1 = state w.1
  /\ dirtyBlueprints w'.1
     = filter (fun x => x ∉ names) (dirtyBlueprints w.1)
  /\ exists ops, w'.2 = (w.2 ++ ops)%list
       /\ forall fname, fname ∈ names -> flushed' w.1 fname ops.
Proof.
  induction names as [|n names IH]; intros w w' H.
  - cbn in H. simplify_eq. repeat split.
    + symmetry. apply filter_keeps_all. intros x _. apply not_elem_of_nil.
    + exists []. rewrite app_nil_r. split; [done|].
      intros fname []%elem_of_nil.
  - rewrite flushAll_cons in H.
    destruct (flushBlueprint' n w) as [w1|] eqn:H1;
      [|by rewrite flushAll_None in H].
    apply flushBlueprint_Some in H1 as (Hc1 & Hs1 & Hd1 & ops1 & Hl1 & Hf1).
    apply IH in H as (Hc & Hs & Hd & ops & Hl & Hf).
    repeat split; try congruence.
    + rewrite Hd, Hd1. unfold set_delete. rewrite list_filter_filter.
      apply list_filter_iff. intros x. rewrite elem_of_cons. tauto.
    + exists (ops1 ++ ops)%list. rewrite Hl, Hl1, app_assoc. split; [done|].
      intros fname [-> | Hin]%elem_of_cons; apply flushed_app.
      * by left.
      * right. by apply (flushed_same_state w1.1 w.1), Hf.
Qed.

(** C6, amended: when [flush] completes, for every filename that was dirty,
    the file was removed (under [baseDir]) when the filename is absent from
    the parsed blueprints, and its buffer was written otherwise: under
    [localStorage] when the blueprint holds a single config element and its
    filename is [credentials/<adapter>.bp], under [baseDir] in every other
    case; and the dirty set is empty. *)
Theorem flush_writes_and_clears (ws : @Workspace Element) (w' : @World Element)
    (fname : string) :
  flush' ws = Some w' ->
  fname ∈ dirtyBlueprints ws ->
  match parsedBlueprints (state ws) !! fname with
  | None => Rm (path_join (baseDir (config ws)) fname) ∈ w'.2
  | Some bp =>
      WriteTextFile
        (if isNewConfig elemIDOf isConfig path_join (Some bp)
         then path_join (localStorage (config ws)) fname
         else path_join (baseDir (config ws)) fname)
        (buffer bp) ∈ w'.2
  end
  /\ dirtyBlueprints w'.1 = [].
Proof.
  unfold flush. intros H Hin.
  apply flushAll_Some in H as (_ & _ & Hd & ops & Hl & Hf). cbn in *.
  split.
  - specialize (Hf fname Hin). unfold flushed, flushPath in Hf. subst ops.
    by destruct (parsedBlueprints (state ws) !! fname).
  - rewrite Hd. apply elem_of_nil_inv. intros x [Hx1 Hx2]%list_elem_of_filter.
    done.
Qed.

End Props.

(** *** A concrete file layer *)

Lemma flush_credsWorkspace : sampleFlush credsWorkspace = Some credsWorkspaceFlushed.
Proof. by vm_compute. Qed.

(** C6 as stated fails: ['x.bp'] holds a single config element, which by
    the specification is written under [localStorage]; [flush] writes it
    under [baseDir], because the filename is not
    [credentials/salesforce.bp]. *)
Lemma flush_stray_config_under_baseDir :
  singleConfig id sampleIsConfig (credsBlueprint "x.bp") = true
  /\ exists w',
       sampleFlush strayConfigWorkspace = Some w'
       /\ w'.2 = [Mkdirp "/ws"; WriteTextFile "/ws/x.bp" "salesforce { token = 1 }"]
       /\ (WriteTextFile (sampleJoin (localStorage sampleConfig) "x.bp")
            (buffer (credsBlueprint "x.bp")) ∉ w'.2).
Proof.
  split; [by vm_compute|]. eexists. split; [by vm_compute|]. cbn.
  split; [done|]. intros H.
  repeat (apply elem_of_cons in H as [H|H]; [discriminate H|]).
  by apply elem_of_nil in H.
Qed.

Lemma flush_writes_and_clears_witness :
  WriteTextFile "/ws/.salto/credentials/salesforce.bp" "salesforce { token = 1 }"
    ∈ credsWorkspaceFlushed.2
  /\ dirtyBlueprints credsWorkspaceFlushed.1 = [].
Proof.
  apply (flush_writes_and_clears id sampleIsConfig sampleJoin sampleDirname
           (fun _ => true) (fun _ => 0%Z) credsWorkspace credsWorkspaceFlushed
           "credentials/salesforce.bp").
  - vm_compute. reflexivity.
  - apply list_elem_of_further, list_elem_of_here.
Defined.

End FlushProps.

(** ** Merger *)

Module MergerProps.
Import MergeErrors Merger MergerSamples.

(** *** Distinct identifiers *)

Lemma elem_of_uniq (l : list ElemID) x : x ∈ uniq l <-> x ∈ l.
Proof.
  induction l as [|a l IH]; [done|]. cbn.
  rewrite !elem_of_cons, list_elem_of_filter, IH.
  destruct (decide (x = a)); naive_solver.
Qed.

Lemma NoDup_uniq (l : list ElemID) : NoDup (uniq l).
Proof.
  induction l as [|a l IH]; cbn; [constructor|].
  constructor.
  - rewrite list_elem_of_filter. naive_solver.
  - by apply NoDup_filter.
Qed.

Lemma uniq_Permutation (l l' : list ElemID) : l ≡ₚ l' -> uniq l ≡ₚ uniq l'.
Proof.
  intros H. apply NoDup_Permutation; try apply NoDup_uniq.
  intros x. rewrite !elem_of_uniq. by rewrite H.
Qed.

(** *** The canonical order *)




Lemma vsize_lookup (m : gmap string Value) k x :
  m !! k = Some x -> vsize x < vsize (VMap m).
Proof.
  intros H. cbn. rewrite map_fold_foldr.
  apply elem_of_map_to_list in H.
  induction (map_to_list m) as [|[k' y] l IH]; [by apply elem_of_nil in H|].
  cbn. apply elem_of_cons in H as [[= <- <-] | H]; [lia|].
  specialize (IH H). lia.
Qed.






















Lemma canonical_Permutation (l : list Element) : canonical l ≡ₚ l.
Proof. apply merge_sort_Permutation. Qed.


Lemma elem_of_canonical (l : list Element) e : e ∈ canonical l <-> e ∈ l.
Proof. by rewrite canonical_Permutation. Qed.

(** *** Folds without clashes *)

Section JoinAll.
Context {S X E : Type}.
Variable join : S -> X -> S.
Variable clash : S -> X -> list E.

(** Two contributions that join without a clash can join in either order. *)
Hypothesis exchange : forall s x y,
  clash s x = [] -> clash (join s x) y = [] ->
  clash s y = [] /\ clash (join s y) x = []
  /\ join (join s x) y = join (join s y) x.

Lemma joinAll_from (s : S) (errs : list E) (xs : list X) :
  foldl (fun st x => (join st.1 x, (st.2 ++ clash st.1 x)%list)) (s, errs) xs
  = ((joinAll join clash s xs).1, (errs ++ (joinAll join clash s xs).2)%list).
Proof.
  unfold joinAll. revert s errs.
  induction xs as [|x xs IH]; intros s errs; cbn.
  - by rewrite app_nil_r.
  - rewrite IH, (IH _ (clash s x)). cbn. by rewrite app_assoc.
Qed.

Lemma joinAll_cons (s : S) (x : X) (xs : list X) :
  joinAll join clash s (x :: xs)
  = ((joinAll join clash (join s x) xs).1,
     (clash s x ++ (joinAll join clash (join s x) xs).2)%list).
Proof. unfold joinAll at 1. cbn. by rewrite joinAll_from. Qed.

Lemma joinAll_Permutation (xs xs' : list X) :
  xs ≡ₚ xs' ->
  forall s, (joinAll join clash s xs).2 = [] ->
            joinAll join clash s xs' = joinAll join clash s xs.
Proof.
  induction 1 as [|x xs xs' _ IH|x y xs|xs xs' xs'' _ IH1 _ IH2]; intros s Hs.
  - done.
  - rewrite !joinAll_cons in *. cbn in Hs.
    apply app_eq_nil in Hs as [Hx Hxs]. by rewrite (IH _ Hxs).
  - rewrite !joinAll_cons in *. cbn in Hs.
    apply app_eq_nil in Hs as [Hy Hs]. apply app_eq_nil in Hs as [Hx Hs].
    destruct (exchange s y x Hy Hx) as (Hx' & Hy' & Heq).
    cbn. by rewrite Hx, Hy, Hx', Hy', Heq.
  - rewrite (IH2 s); [by apply IH1|]. by rewrite (IH1 s Hs).
Qed.
End JoinAll.

Lemma duplicateKeys_nil {V} (a m : gmap string V) :
  duplicateKeys a m = [] <-> dom a ## dom m.
Proof.
  unfold duplicateKeys. rewrite elements_empty_iff. set_solver.
Qed.

Lemma union_exchange {V} (s x y : gmap string V) :
  duplicateKeys s x = [] -> duplicateKeys (s ∪ x) y = [] ->
  duplicateKeys s y = [] /\ duplicateKeys (s ∪ y) x = []
  /\ s ∪ x ∪ y = s ∪ y ∪ x.
Proof.
  rewrite !duplicateKeys_nil, !dom_union_L. intros H1 H2.
  split; [set_solver|]. split; [set_solver|].
  rewrite <- !(assoc_L (∪)). f_equal. apply map_union_comm.
  apply map_disjoint_dom. set_solver.
Qed.

Lemma mergeNoDuplicates_Permutation {V} (acc : gmap string V) ms ms' :
  ms ≡ₚ ms' -> (mergeNoDuplicates acc ms).2 = [] ->
  mergeNoDuplicates acc ms' = mergeNoDuplicates acc ms.
Proof.
  intros H. apply (joinAll_Permutation _ _ union_exchange _ _ H).
Qed.


(** *** Groups *)

Lemma omap_map {A B C} (f : B -> option C) (h : A -> B) (l : list A) :
  omap f (map h l) = omap (fun a => f (h a)) l.
Proof. induction l as [|a l IH]; [done|]. cbn. by rewrite IH. Qed.

Lemma NoDup_map_omap {A B} (f : A -> option B) (g : B -> A) (l : list A) :
  (forall a b, f a = Some b -> g b = a) ->
  NoDup l -> NoDup (map g (omap f l)).
Proof.
  intros Hfg. induction 1 as [|a l Ha _ IH]; cbn; [constructor|].
  destruct (f a) as [b|] eqn:Hb; [|done].
  cbn. constructor; [|done].
  rewrite (Hfg _ _ Hb). intros (b' & Hb' & Hin)%list_elem_of_fmap.
  apply list_elem_of_omap in Hin as (a' & Ha' & Hfa').
  apply Hfg in Hfa'. congruence.
Qed.

Lemma elem_of_groupOf id (elements : list Element) e :
  e ∈ groupOf id elements <-> elemID e = id /\ e ∈ elements.
Proof. unfold groupOf. by rewrite list_elem_of_filter. Qed.

Lemma head_filter_elem {A} (P : A -> Prop) `{!forall x, Decision (P x)} (l : list A) x rest :
  filter P l = x :: rest -> P x /\ x ∈ l.
Proof.
  intros Hf. apply (list_elem_of_filter P l x). rewrite Hf. left.
Qed.

Lemma head_omap_elem {A B} (f : A -> option B) (l : list A) y rest :
  omap f l = y :: rest -> exists x, x ∈ l /\ f x = Some y.
Proof.
  intros Hf. apply list_elem_of_omap. rewrite Hf. left.
Qed.

Lemma asInstance_Some e iname itype v a :
  asInstance e = Some (iname, itype, (v, a)) -> e = InstanceElement iname itype v a.
Proof. destruct e; cbn; congruence. Qed.

Lemma mergeObjectDefinitions_elemID id objs others e :
  (mergeObjectDefinitions id objs others).1 = Some e -> elemID e = id.
Proof.
  unfold mergeObjectDefinitions.
  destruct (filter _ objs) as [|base rest]; [done|]. cbn.
  destruct (_ ≫= _); [|done]. by intros [= <-].
Qed.

(** The element a group yields carries the ElemID of the group. *)
Lemma mergeGroup_elemID store id g e :
  (forall x, x ∈ g -> elemID x = id) ->
  (mergeGroup store id g).1 = Some e -> elemID e = id.
Proof.
  intros Hg. unfold mergeGroup.
  destruct (filter (fun e => isPrimitiveType e = true) g) as [|p ps] eqn:Hp.
  2:{ cbn. intros [= <-]. by apply Hg, (head_filter_elem _ _ _ _ Hp). }
  destruct (filter (fun e => isVariable e = true) g) as [|v vs] eqn:Hv.
  2:{ cbn. intros [= <-]. by apply Hg, (head_filter_elem _ _ _ _ Hv). }
  destruct (omap asObject g) as [|o os] eqn:Ho.
  - destruct (omap asInstance g) as [|[[iname itype] [v a]] irest] eqn:Hi; [done|].
    cbn. intros [= <-]. cbn.
    destruct (head_omap_elem _ _ _ _ Hi) as (x & Hx & Hxi).
    apply asInstance_Some in Hxi as ->. by apply (Hg _ Hx).
  - destruct (omap asInstance g); apply mergeObjectDefinitions_elemID.
Qed.

Lemma merged_mergeElements store (elements : list Element) :
  merged (mergeElements store elements)
  = outputOrder
      (omap (fun id => (mergeGroup store id (groupOf id (canonical elements))).1)
         (uniq (map elemID (canonical elements)))).
Proof. unfold mergeElements. cbn. by rewrite omap_map. Qed.

Lemma elem_of_merged store (elements : list Element) e :
  e ∈ merged (mergeElements store elements)
  <-> (mergeGroup store (elemID e) (groupOf (elemID e) (canonical elements))).1 = Some e
      /\ elemID e ∈ map elemID elements.
Proof.
  rewrite merged_mergeElements. unfold outputOrder.
  rewrite merge_sort_Permutation, list_elem_of_omap.
  assert (elemID e ∈ map elemID elements
          <-> elemID e ∈ map elemID (canonical elements)) as ->
    by by rewrite canonical_Permutation.
  split.
  - intros (id & Hid & He). rewrite elem_of_uniq in Hid.
    assert (elemID e = id) as Heq.
    { apply (mergeGroup_elemID _ _ _ _
               (fun x Hx => proj1 (proj1 (elem_of_groupOf _ _ _) Hx)) He). }
    subst id. split; assumption.
  - intros [He Hid]. exists (elemID e). by rewrite elem_of_uniq.
Qed.

(** C2: the merged output of [mergeElements] holds at most one element per
    ElemID: the ElemIDs of the merged elements are pairwise different. *)
Theorem mergeElements_one_per_ElemID store (elements : list Element) :
  NoDup (map elemID (merged (mergeElements store elements))).
Proof.
  rewrite merged_mergeElements. unfold outputOrder.
  rewrite merge_sort_Permutation.
  apply NoDup_map_omap; [|apply NoDup_uniq].
  intros id e. apply mergeGroup_elemID. intros x Hx.
  by apply elem_of_groupOf in Hx as [? _].
Qed.

(** C5: the string of a merge error is
    ["Error merging <full name of its ElemID>: <its message>"]. *)
Theorem toString_merge_error (e : MergeError) :
  toString e = "Error merging " ++ getFullName (MergeErrors.elemID e) ++ ": " ++ error e.
Proof. reflexivity. Qed.


(** *** Instances and defaults *)

Lemma mergeGroup_instance store id g iname itype value annos :
  (mergeGroup store id g).1 = Some (InstanceElement iname itype value annos) ->
  value = injectDefaults store itype
            (mergeInstanceValues (map fst (map snd (omap asInstance g)))).1.
Proof.
  unfold mergeGroup.
  destruct (filter (fun e => isPrimitiveType e = true) g) as [|p ps] eqn:Hp.
  2:{ cbn. intros [= ->]. by destruct (head_filter_elem _ _ _ _ Hp). }
  destruct (filter (fun e => isVariable e = true) g) as [|v vs] eqn:Hv.
  2:{ cbn. intros [= ->]. by destruct (head_filter_elem _ _ _ _ Hv). }
  destruct (omap asObject g) as [|o os] eqn:Ho.
  - destruct (omap asInstance g) as [|[[iname' itype'] [v a]] irest] eqn:Hi; [done|].
    cbn. by intros [= _ <- <- _].
  - intros He. exfalso. revert He. unfold mergeObjectDefinitions.
    destruct (omap asInstance g); destruct (filter _ (o :: os)); try done;
      cbn; destruct (_ ≫= _); done.
Qed.

Lemma lookup_injectDefaults store itype (raw : gmap string Value) f fld :
  fieldsOf store itype !! f = Some fld ->
  injectDefaults store itype raw !! f
  = match raw !! f with
    | Some v => Some v
    | None => defaultOf store fld
    end.
Proof.
  intros Hf. unfold injectDefaults. rewrite lookup_union, lookup_omap, Hf. cbn.
  destruct (raw !! f); [by destruct (defaultOf store fld)|].
  by destruct (defaultOf store fld).
Qed.

Lemma lookup_mergeValues (acc m : gmap string Value) f :
  mergeValues acc m !! f = None <-> acc !! f = None /\ m !! f = None.
Proof.
  unfold mergeValues. rewrite lookup_union_with.
  destruct (acc !! f), (m !! f); cbn; naive_solver.
Qed.

Lemma joinAll_mergeValues_None (vs : list (gmap string Value)) acc f :
  (joinAll mergeValues valueConflicts acc vs).1 !! f = None
  <-> acc !! f = None /\ forall v, v ∈ vs -> v !! f = None.
Proof.
  revert acc. induction vs as [|v vs IH]; intros acc.
  - cbn. split; [|tauto]. intros H. split; [done|]. by intros v ?%elem_of_nil.
  - rewrite joinAll_cons. cbn. rewrite IH, lookup_mergeValues. split.
    + intros [[Ha Hv] Hvs]. split; [done|].
      intros v' [-> | Hin]%elem_of_cons; auto.
    + intros [Ha Hvs]. repeat split; [done|apply Hvs; left|].
      intros v' Hin. apply Hvs. by right.
Qed.

Lemma instanceID_inj iname itype iname' itype' :
  instanceID iname itype = instanceID iname' itype' -> iname = iname' /\ itype = itype'.
Proof. destruct itype, itype'. unfold instanceID. cbn. by intros [= -> -> ->]. Qed.

Lemma instanceValues_elem iname itype (elements : list Element) v :
  v ∈ instanceValues (instanceID iname itype) elements
  <-> exists a, InstanceElement iname itype v a ∈ elements.
Proof.
  unfold instanceValues. rewrite list_elem_of_fmap. split.
  - intros (va & -> & ([[iname' itype'] [v' a]] & -> & He)%list_elem_of_fmap).
    apply list_elem_of_omap in He as (e & [Hid He]%elem_of_groupOf & Hi).
    apply asInstance_Some in Hi as ->. cbn in Hid.
    apply instanceID_inj in Hid as [-> ->]. by exists a.
  - intros [a Ha]. exists (v, a). split; [done|].
    apply list_elem_of_fmap. exists (iname, itype, (v, a)). split; [done|].
    apply list_elem_of_omap. exists (InstanceElement iname itype v a).
    by rewrite elem_of_groupOf.
Qed.

(** The merged value lacks a key exactly when every declaration of the
    instance lacks it. *)
Lemma rawValue_None iname itype (elements : list Element) f :
  rawValue (instanceID iname itype) elements !! f = None
  <-> forall v a, InstanceElement iname itype v a ∈ elements -> v !! f = None.
Proof.
  unfold rawValue, mergeInstanceValues. rewrite joinAll_mergeValues_None.
  rewrite lookup_empty. split.
  - intros [_ H] v a Hin. apply H, instanceValues_elem. exists a.
    by apply elem_of_canonical.
  - intros H. split; [done|]. intros v [a Ha]%instanceValues_elem.
    rewrite elem_of_canonical in Ha. by apply (H v a).
Qed.

(** C3: in a merged instance of type [T], a field [f] of [T] that no
    declaration of the instance holds receives the [_default] of the field's
    own annotations when there is one (also when the declared type has one
    too), otherwise the [_default] of the annotations of the type that the
    field's type reference names in the store, a primitive or an object
    type, when there is one, and nothing otherwise; a key the merged
    declarations hold, a null included, keeps its value. *)
Theorem merged_instance_defaults store (elements : list Element)
    iname itype value annos tid fields tannos tatypes tsettings f fld :
  InstanceElement iname itype value annos ∈ merged (mergeElements store elements) ->
  store !! typeNameID itype = Some (ObjectType tid fields tannos tatypes tsettings) ->
  fields !! f = Some fld ->
  ((forall v a, InstanceElement iname itype v a ∈ elements -> v !! f = None) ->
   value !! f
   = match annotations fld !! DEFAULT with
     | Some d => Some d
     | None =>
         match type fld with
         | RefTo n =>
             match store !! typeNameID n with
             | Some (PrimitiveType _ _ a _) => a !! DEFAULT
             | Some (ObjectType _ _ a _ _) => a !! DEFAULT
             | _ => None
             end
         | ListOf _ => None
         end
     end)
  /\ (forall v, rawValue (instanceID iname itype) elements !! f = Some v ->
      value !! f = Some v).
Proof.
  intros [He _]%elem_of_merged Hstore Hf. cbn in He.
  apply mergeGroup_instance in He.
  fold (instanceValues (instanceID iname itype) (canonical elements)) in He.
  fold (rawValue (instanceID iname itype) elements) in He. subst value.
  assert (fieldsOf store itype !! f = Some fld) as Hfld
    by (unfold fieldsOf; by rewrite Hstore).
  rewrite (lookup_injectDefaults _ _ _ _ _ Hfld). split.
  - intros Hnone. apply rawValue_None in Hnone. rewrite Hnone.
    unfold defaultOf, typeAnnotations.
    destruct (annotations fld !! DEFAULT); [done|].
    destruct (type fld) as [n|]; [|done].
    by destruct (store !! typeNameID n) as [[]|].
  - by intros v ->.
Qed.


(** *** Deep merge *)

(** Induction on values through the entries of maps. *)
Lemma Value_map_ind (P : Value -> Prop) :
  (forall v, (forall m, v <> VMap m) -> P v) ->
  (forall m, (forall k x, m !! k = Some x -> P x) -> P (VMap m)) ->
  forall v, P v.
Proof.
  intros Hleaf Hmap v. remember (vsize v) as n eqn:Hn. revert v Hn.
  induction n as [n IH] using lt_wf_ind. intros v ->.
  destruct v; try (apply Hleaf; discriminate).
  apply Hmap. intros k x Hk. apply (IH (vsize x)); [by eapply vsize_lookup | done].
Qed.

Lemma conflicts_foldr (c : string -> Value -> Value -> list (list string))
    (m2 : gmap string Value) (l : list (string * Value)) :
  foldr (uncurry (fun k x acc =>
                    match m2 !! k with
                    | Some y => (c k x y ++ acc)%list
                    | None => acc
                    end)) [] l = []
  <-> forall k x y, (k, x) ∈ l -> m2 !! k = Some y -> c k x y = [].
Proof.
  induction l as [|[k x] l IH]; cbn.
  - split; [|done]. by intros _ k x y ?%elem_of_nil.
  - destruct (m2 !! k) as [y|] eqn:Hk.
    + rewrite app_nil, IH. split.
      * intros [Hc Hl] k' x' y' [[= -> ->] | Hin]%elem_of_cons Hk'; [congruence | eauto].
      * intros H. split; [apply H; [left | done] |].
        intros k' x' y' Hin. apply H. by right.
    + rewrite IH. split.
      * intros Hl k' x' y' [[= -> ->] | Hin]%elem_of_cons Hk'; [congruence | eauto].
      * intros H k' x' y' Hin. apply H. by right.
Qed.

Lemma conflicts_maps_nil path (m1 m2 : gmap string Value) :
  conflicts path (VMap m1) (VMap m2) = []
  <-> forall k x y, m1 !! k = Some x -> m2 !! k = Some y ->
                    conflicts (path ++ [k]) x y = [].
Proof.
  cbn. rewrite map_fold_foldr, (conflicts_foldr (fun k => conflicts (path ++ [k]))).
  by setoid_rewrite elem_of_map_to_list.
Qed.

(** No collision is reported exactly for compatible values. *)
Lemma conflicts_nil_Compatible a : forall path b,
  conflicts path a b = [] <-> Compatible a b.
Proof.
  induction a as [a Ha | m1 IH] using Value_map_ind; intros path b.
  - split.
    + destruct a; try discriminate. by destruct (Ha entries).
    + intros Hc. inversion Hc; subst. by destruct (Ha m1).
  - destruct b as [| | | | |m2|]; try (split; [discriminate | intros Hc; inversion Hc]).
    rewrite conflicts_maps_nil. split.
    + intros H. constructor. intros k x y Hx Hy.
      by apply (IH k x Hx (path ++ [k])%list), H.
    + intros Hc k x y Hx Hy. inversion Hc as [? ? Hall]; subst.
      apply (IH k x Hx). by apply (Hall k).
Qed.

Lemma Compatible_sym a b : Compatible a b -> Compatible b a.
Proof.
  induction 1 as [m1 m2 _ IH]. constructor. intros k y x Hy Hx. by apply (IH k x y).
Qed.

Lemma lookup_deepMerge_maps (m1 m2 : gmap string Value) k :
  union_with (fun x y => Some (deepMerge x y)) m1 m2 !! k
  = match m1 !! k, m2 !! k with
    | Some x, Some y => Some (deepMerge x y)
    | Some x, None => Some x
    | None, o => o
    end.
Proof.
  rewrite lookup_union_with. by destruct (m1 !! k), (m2 !! k).
Qed.

Lemma deepMerge_comm a b : Compatible a b -> deepMerge a b = deepMerge b a.
Proof.
  induction 1 as [m1 m2 _ IH]. cbn. f_equal. apply map_eq. intros k.
  rewrite !lookup_deepMerge_maps.
  destruct (m1 !! k) as [x|] eqn:Hx, (m2 !! k) as [y|] eqn:Hy; try done.
  f_equal. by apply (IH k).
Qed.

(** Two values that merge into an accumulator without a collision merge
    into it in either order. *)
Lemma deepMerge_exchange s : forall x y,
  Compatible s x -> Compatible (deepMerge s x) y ->
  Compatible s y /\ Compatible (deepMerge s y) x
  /\ deepMerge (deepMerge s x) y = deepMerge (deepMerge s y) x.
Proof.
  induction s as [s Hs | ms IH] using Value_map_ind; intros x y Hsx Hsxy.
  { inversion Hsx; subst. by destruct (Hs m1). }
  inversion Hsx as [? mx Hx]; subst. cbn in Hsxy.
  inversion Hsxy as [? my Hy]; subst. cbn.
  assert (forall k,
    match ms !! k, mx !! k, my !! k with
    | Some sk, Some xk, Some yk =>
        Compatible sk yk /\ Compatible (deepMerge sk yk) xk
        /\ deepMerge (deepMerge sk xk) yk = deepMerge (deepMerge sk yk) xk
    | None, Some xk, Some yk =>
        Compatible yk xk /\ deepMerge xk yk = deepMerge yk xk
    | Some sk, None, Some yk => Compatible sk yk
    | _, _, _ => True
    end) as Hk.
  { intros k.
    destruct (ms !! k) as [sk|] eqn:Hsk, (mx !! k) as [xk|] eqn:Hxk,
      (my !! k) as [yk|] eqn:Hyk; try done.
    - apply (IH k sk Hsk); [by apply (Hx k)|].
      apply (Hy k); [|done]. by rewrite lookup_deepMerge_maps, Hsk, Hxk.
    - apply (Hy k); [|done]. by rewrite lookup_deepMerge_maps, Hsk, Hxk.
    - assert (Compatible xk yk) as Hc.
      { apply (Hy k); [|done]. by rewrite lookup_deepMerge_maps, Hsk, Hxk. }
      split; [by apply Compatible_sym | by apply deepMerge_comm]. }
  split; [|split].
  - constructor. intros k sk yk Hsk Hyk. specialize (Hk k). rewrite Hsk, Hyk in Hk.
    destruct (mx !! k); [apply Hk | done].
  - constructor. intros k v xk Hv Hxk. specialize (Hk k).
    rewrite lookup_deepMerge_maps in Hv. rewrite Hxk in Hk.
    destruct (ms !! k) as [sk|] eqn:Hsk, (my !! k) as [yk|] eqn:Hyk;
      simplify_eq; try tauto.
    by apply (Hx k).
  - f_equal. apply map_eq. intros k. specialize (Hk k).
    rewrite !lookup_deepMerge_maps.
    destruct (ms !! k) as [sk|], (mx !! k) as [xk|], (my !! k) as [yk|];
      try done; f_equal; tauto.
Qed.

Lemma mergeValues_exchange (s x y : gmap string Value) :
  valueConflicts s x = [] -> valueConflicts (mergeValues s x) y = [] ->
  valueConflicts s y = [] /\ valueConflicts (mergeValues s y) x = []
  /\ mergeValues (mergeValues s x) y = mergeValues (mergeValues s y) x.
Proof.
  unfold valueConflicts. rewrite !conflicts_nil_Compatible. intros H1 H2.
  destruct (deepMerge_exchange (VMap s) (VMap x) (VMap y) H1 H2) as (H3 & H4 & H5).
  split; [done|]. split; [done|]. unfold mergeValues. cbn in H5. by injection H5.
Qed.

Lemma mergeInstanceValues_Permutation (vs vs' : list (gmap string Value)) :
  vs ≡ₚ vs' -> (mergeInstanceValues vs).2 = [] ->
  mergeInstanceValues vs' = mergeInstanceValues vs.
Proof.
  intros H. apply (joinAll_Permutation _ _ mergeValues_exchange _ _ H).
Qed.


(** *** Groups under permutation *)

Lemma bind_nil_iff {A B} (f : A -> list B) (l : list A) :
  l ≫= f = [] <-> forall x, x ∈ l -> f x = [].
Proof.
  induction l as [|a l IH]; cbn.
  - split; [|done]. by intros _ x ?%elem_of_nil.
  - rewrite app_nil, IH. split.
    + intros [Ha Hl] x [-> | Hin]%elem_of_cons; auto.
    + intros H. split; [apply H; left|]. intros x Hx. apply H. by right.
Qed.

Lemma map_nil_iff {A B} (f : A -> B) (l : list A) : map f l = [] <-> l = [].
Proof. by destruct l. Qed.

Lemma bind_ext_in {A B} (f g : A -> list B) (l : list A) :
  (forall x, x ∈ l -> f x = g x) -> l ≫= f = l ≫= g.
Proof.
  induction l as [|a l IH]; intros H; [done|]. cbn.
  rewrite (H a) by left. f_equal. apply IH. intros x Hx. apply H. by right.
Qed.

Lemma omap_ext_in {A B} (f g : A -> option B) (l : list A) :
  (forall x, x ∈ l -> f x = g x) -> omap f l = omap g l.
Proof.
  induction l as [|a l IH]; intros H; [done|]. cbn.
  rewrite (H a) by left. rewrite IH; [done|]. intros x Hx. apply H. by right.
Qed.

Lemma mergeInstances_Permutation store iname itype insts insts' :
  insts ≡ₚ insts' ->
  (mergeInstances store iname itype insts).2 = [] ->
  mergeInstances store iname itype insts' = mergeInstances store iname itype insts.
Proof.
  intros Hp. unfold mergeInstances. cbn.
  intros [Hraw Hannos]%app_nil. apply map_nil_iff in Hraw, Hannos.
  assert (map fst insts ≡ₚ map fst insts') as Hp1 by (by apply fmap_Permutation).
  assert (map snd insts ≡ₚ map snd insts') as Hp2 by (by apply fmap_Permutation).
  by rewrite (mergeInstanceValues_Permutation _ _ Hp1 Hraw),
    (mergeNoDuplicates_Permutation _ _ _ Hp2 Hannos).
Qed.

Lemma fieldContributions_Permutation updates updates' n :
  updates ≡ₚ updates' -> fieldContributions updates n ≡ₚ fieldContributions updates' n.
Proof. intros H. unfold fieldContributions. by rewrite H. Qed.

Lemma mergeObjectDefinitions_Permutation id objs objs' others :
  objs ≡ₚ objs' ->
  (mergeObjectDefinitions id objs others).2 = [] ->
  mergeObjectDefinitions id objs' others = mergeObjectDefinitions id objs others.
Proof.
  intros Hp. unfold mergeObjectDefinitions.
  assert (filter (fun o => isUpdate o = false) objs
          ≡ₚ filter (fun o => isUpdate o = false) objs') as Hb by (by rewrite Hp).
  assert (filter (fun o => isUpdate o = true) objs
          ≡ₚ filter (fun o => isUpdate o = true) objs') as Hu by (by rewrite Hp).
  destruct (filter (fun o => isUpdate o = false) objs) as [|base rest]; [done|].
  set (updates := filter (fun o => isUpdate o = true) objs) in *.
  set (updates' := filter (fun o => isUpdate o = true) objs') in *.
  cbn.
  intros Herr. rewrite !app_nil, !map_nil_iff in Herr.
  destruct Herr as (Hmulti & Hmissing & Hfields & Hannos & Htypes).
  destruct (decide (length rest + others = 0)) as [Hone|]; [|done].
  destruct rest; [|cbn in Hone; lia].
  apply Permutation_singleton_l in Hb as <-.
  destruct (decide (length (@nil ObjectDecl) + others = 0)); [|done].
  assert (updates' ≫= missingFields base = updates ≫= missingFields base) as E1.
  { rewrite Hmissing. apply Permutation_nil_r. by rewrite <- Hu, Hmissing. }
  assert (mergeNoDuplicates (o_annotations base) (map o_annotations updates')
          = mergeNoDuplicates (o_annotations base) (map o_annotations updates)) as E2.
  { apply mergeNoDuplicates_Permutation; [by apply fmap_Permutation | done]. }
  assert (mergeNoDuplicates (o_annotationTypes base) (map o_annotationTypes updates')
          = mergeNoDuplicates (o_annotationTypes base) (map o_annotationTypes updates))
    as E3.
  { apply mergeNoDuplicates_Permutation; [by apply fmap_Permutation | done]. }
  assert (forall n, n ∈ dom (o_fields base) ->
            mergeNoDuplicates ∅ (fieldContributions updates' n)
            = mergeNoDuplicates ∅ (fieldContributions updates n)) as E4.
  { intros n Hn. apply mergeNoDuplicates_Permutation.
    - by apply fieldContributions_Permutation.
    - rewrite bind_nil_iff in Hfields. specialize (Hfields n).
      unfold fieldErrors in Hfields. rewrite map_nil_iff in Hfields.
      apply Hfields. by apply elem_of_elements. }
  rewrite E1, E2, E3. f_equal.
  - destruct (updates ≫= missingFields base); [|done]. do 2 f_equal.
    apply map_eq. intros n. rewrite !map_lookup_imap.
    destruct (o_fields base !! n) as [fb|] eqn:Hfb; [|done]. cbn.
    unfold mergeField. rewrite E4; [done|]. by apply elem_of_dom_2 in Hfb.
  - do 2 f_equal. f_equal. apply bind_ext_in. intros n Hn%elem_of_elements.
    unfold fieldErrors. by rewrite E4.
Qed.

Lemma mergeUnique_Permutation k id e (g g' : list Element) :
  g ≡ₚ g' -> (mergeUnique k id e g).2 = [] -> g' = g.
Proof.
  unfold mergeUnique. cbn. intros Hp. destruct g as [|x [|y l]]; try done.
  intros _. symmetry. by apply Permutation_singleton_l.
Qed.

Lemma mergeGroup_Permutation store id g g' :
  (forall x, x ∈ g -> elemID x = id) ->
  g ≡ₚ g' ->
  (mergeGroup store id g).2 = [] ->
  mergeGroup store id g' = mergeGroup store id g.
Proof.
  intros Hid Hp. unfold mergeGroup.
  assert (filter (fun e => isPrimitiveType e = true) g
          ≡ₚ filter (fun e => isPrimitiveType e = true) g') as Hprim by (by rewrite Hp).
  assert (filter (fun e => isVariable e = true) g
          ≡ₚ filter (fun e => isVariable e = true) g') as Hvar by (by rewrite Hp).
  assert (omap asObject g ≡ₚ omap asObject g') as Hobj by (by rewrite Hp).
  assert (omap asInstance g ≡ₚ omap asInstance g') as Hinst by (by rewrite Hp).
  assert (forall k e, (mergeUnique k id e g).2 = [] -> g' = g) as Hunique.
  { intros k e. by apply mergeUnique_Permutation. }
  destruct (filter (fun e => isPrimitiveType e = true) g) as [|p ps] eqn:Hfp.
  2:{ intros He. rewrite (Hunique _ _ He). by rewrite Hfp. }
  apply Permutation_nil_l in Hprim as <-.
  destruct (filter (fun e => isVariable e = true) g) as [|v vs] eqn:Hfv.
  2:{ intros He. rewrite (Hunique _ _ He). by rewrite Hfv. }
  apply Permutation_nil_l in Hvar as <-.
  destruct (omap asObject g) as [|o os] eqn:Ho.
  - apply Permutation_nil_l in Hobj as <-.
    destruct (omap asInstance g) as [|[[iname itype] va] irest] eqn:Hi.
    { by apply Permutation_nil_l in Hinst as <-. }
    destruct (omap asInstance g') as [|[[iname' itype'] va'] irest'] eqn:Hi'.
    { by apply Permutation_nil_r in Hinst. }
    assert (iname' = iname /\ itype' = itype) as [-> ->].
    { destruct va as [v a], va' as [v' a'].
      destruct (head_omap_elem _ _ _ _ Hi) as (x & Hx & Hxi).
      destruct (head_omap_elem _ _ _ _ Hi') as (x' & Hx' & Hxi').
      apply asInstance_Some in Hxi as ->. apply asInstance_Some in Hxi' as ->.
      rewrite <- Hp in Hx'. apply Hid in Hx, Hx'. cbn in Hx, Hx'.
      apply instanceID_inj. congruence. }
    apply mergeInstances_Permutation. by apply fmap_Permutation.
  - destruct (omap asObject g') as [|o' os'] eqn:Ho'.
    { by apply Permutation_nil_r in Hobj. }
    rewrite <- Ho'.
    assert (length (omap asInstance g') = length (omap asInstance g)) as Hlen
      by (by rewrite Hinst).
    intros He.
    assert (mergeObjectDefinitions id (omap asObject g') (length (omap asInstance g'))
            = mergeObjectDefinitions id (o :: os) (length (omap asInstance g))) as <-.
    { rewrite Hlen, Ho'. apply mergeObjectDefinitions_Permutation; [done|].
      by destruct (omap asInstance g). }
    rewrite Ho'. by destruct (omap asInstance g').
Qed.


(** *** Permutations of the input *)

Lemma groupOf_Permutation id (elements elements' : list Element) :
  elements ≡ₚ elements' -> groupOf id elements ≡ₚ groupOf id elements'.
Proof. intros H. unfold groupOf. by rewrite H. Qed.



(** *** The scenarios of merger.test.ts *)

Example merges_multiple_update_fields_blocks :
  mergeElements testStore [base; unrelated; update1; update2; updateAnno; updateAnnoValues]
  = mkMergeResult [mergedObject; unrelated] [].
Proof. vm_compute. reflexivity. Qed.

Example same_result_regardless_of_order :
  mergeElements testStore [update1; updateAnno; base; unrelated; update2; updateAnnoValues]
  = mkMergeResult [mergedObject; unrelated] [].
Proof. vm_compute. reflexivity. Qed.

Example multiple_updates_same_field :
  errorKinds (mergeElements testStore [base; update1; update1])
  = [(DuplicateAnnotationFieldDefinitionError, "salto.base.field.field1.label")].
Proof. vm_compute. reflexivity. Qed.

Example update_of_missing_field :
  mergeElements testStore [base; missingUpdate]
  = mkMergeResult [] [errNoBase (mkElemID "salto" "base" IdField ["field3"])].
Proof. vm_compute. reflexivity. Qed.

Example multiple_updates_same_annotation_type :
  errorKinds (mergeElements testStore [base; updateAnno; updateAnno])
  = [(DuplicateAnnotationTypeError, "salto.base.annotation.anno1")].
Proof. vm_compute. reflexivity. Qed.

Example multiple_updates_same_annotation_value :
  errorKinds (mergeElements testStore [base; updateAnnoValues; updateAnnoValues])
  = [(DuplicateAnnotationError, "salto.base.attr.anno1")].
Proof. vm_compute. reflexivity. Qed.

Example multiple_base_definitions :
  map toString (errors (mergeElements testStore [base; multipleBase]))
  = ["Error merging salto.base: Cannot merge 'salto': field 'base' has multiple definitions"].
Proof. vm_compute. reflexivity. Qed.

Example update_type_pointers :
  let r := mergeElements testStore
             [base; unrelated; update1; update2; updateAnno; updateAnnoValues;
              instanceElement; instanceElement2] in
  errors r = [] /\ length (merged r) = 4.
Proof. vm_compute. by split. Qed.

Example merged_by_kind_and_name :
  let r := mergeElements testStore [strType; base; nested] in
  errors r = [] /\ map elemID (merged r) = map elemID [strType; base; nested].
Proof. vm_compute. by split. Qed.

(** Primitive types, object types, instances and variables, each kind by
    name, wherever they stand in the input. *)
Example merged_kinds_in_turn :
  map (fun e => getFullName (elemID e))
    (merged (mergeElements testStore
               [instanceElement2; varName2; unrelated; strType; varName; base;
                instanceElement]))
  = ["salto.string"; "salto.base"; "salto.unrelated"; "salto.base.instance.inst";
     "salto.unrelated.instance.inst2"; "var.varName"; "var.varName2"].
Proof. vm_compute. reflexivity. Qed.

(** Two updates give [field1] a label: one failure, and the same label
    stays whichever update comes first in the input. *)
Example clash_keeps_one_value_in_any_order :
  errorKinds (mergeElements testStore [base; update1; update1Other])
  = [(DuplicateAnnotationFieldDefinitionError, "salto.base.field.field1.label")]
  /\ field1Label (merged (mergeElements testStore [base; update1; update1Other]))
     = Some (VStr "other")
  /\ field1Label (merged (mergeElements testStore [base; update1Other; update1]))
     = Some (VStr "other").
Proof. repeat split; vm_compute; reflexivity. Qed.

(** A scalar and two maps under one key of an instance: the same
    collisions are reported wherever the scalar stands in the input. *)
Example collisions_in_any_order :
  errorKinds (mergeElements testStore [insMapOne; insScalar; insMapTwo])
  = errorKinds (mergeElements testStore [insScalar; insMapOne; insMapTwo])
  /\ length (errors (mergeElements testStore [insMapOne; insScalar; insMapTwo])) = 2.
Proof. split; vm_compute; reflexivity. Qed.

Example should_not_fail_with_recursive_types :
  mergeElements testStore [recursiveInstance] = mkMergeResult [recursiveInstance] [].
Proof. vm_compute. reflexivity. Qed.

Example should_merge_instances :
  mergeElements testStore [ins1; ins2]
  = mkMergeResult
      [InstanceElement "ins" nestedName
         {[ "field1" := VStr "ins1"; "field2" := VStr "ins1";
            "base" := VMap {[ "field1" := VStr "ins2"; "field2" := VStr "ins2" ]} ]}
         {[ "anno" := VNum 1; "anno2" := VNum 1 ]}] [].
Proof. vm_compute. reflexivity. Qed.

Example should_use_field_defaults :
  mergeElements testStore [shouldUseFieldDef; ins2]
  = mkMergeResult [mergedFieldDef] [].
Proof. vm_compute. reflexivity. Qed.

Example should_use_type_defaults :
  mergeElements testStore [shouldUseTypeDef; ins2]
  = mkMergeResult
      [InstanceElement "ins" nestedName
         {[ "field1" := VStr "ins1"; "field2" := VStr "type";
            "base" := VMap {[ "field1" := VStr "ins2"; "field2" := VStr "ins2" ]} ]}
         {[ "anno2" := VNum 1 ]}] [].
Proof. vm_compute. reflexivity. Qed.

Example should_use_object_defaults :
  mergeElements testStore [ins1]
  = mkMergeResult
      [InstanceElement "ins" nestedName
         {[ "field1" := VStr "ins1"; "field2" := VStr "ins1";
            "base" := VMap {[ "field1" := VStr "base1"; "field2" := VStr "base2" ]} ]}
         {[ "anno" := VNum 1 ]}] [].
Proof. vm_compute. reflexivity. Qed.

Example null_is_not_overwritten :
  mergeElements testStore [insWithNull]
  = mkMergeResult
      [InstanceElement "ins" nestedName
         {[ "field1" := VNull; "field2" := VStr "type";
            "base" := VMap {[ "field1" := VStr "base1"; "field2" := VStr "base2" ]} ]}
         ∅] [].
Proof. vm_compute. reflexivity. Qed.

Example multiple_values_for_same_key :
  errorKinds (mergeElements testStore [ins1; shouldUseFieldDef])
  = [(DuplicateInstanceKeyError, "salto.nested.instance.ins.field2")].
Proof. vm_compute. reflexivity. Qed.

Example more_than_one_primitive :
  errorKinds (mergeElements testStore [strType; strType])
  = [(MultiplePrimitiveTypesUnsupportedError, "salto.string")].
Proof. vm_compute. reflexivity. Qed.

Example more_than_one_variable :
  errorKinds (mergeElements testStore [varName; varName])
  = [(DuplicateVariableNameError, "var.varName")].
Proof. vm_compute. reflexivity. Qed.

Example distinct_variables :
  mergeElements testStore [varName; varName2] = mkMergeResult [varName; varName2] [].
Proof. vm_compute. reflexivity. Qed.

Example default_instance_from_type :
  createDefaultInstanceFromType "test" configType
  = InstanceElement "test" (mkTypeName "test" "") {[ "val1" := VStr "test" ]} ∅.
Proof. vm_compute. reflexivity. Qed.

(** *** Concrete inputs *)


Lemma merged_instance_defaults_witness :
  mergedTypeDefValue !! "field2" = Some (VStr "type").
Proof.
  assert (mergedTypeDef ∈ merged (mergeElements testStore [shouldUseTypeDef; ins2]))
    as Hin.
  { replace (merged (mergeElements testStore [shouldUseTypeDef; ins2]))
      with [mergedTypeDef] by (vm_compute; reflexivity).
    apply list_elem_of_here. }
  assert (testStore !! typeNameID nestedName
          = Some (ObjectType nestedElemID nestedFields ∅ ∅ false)) as Hstore
    by (vm_compute; reflexivity).
  assert (nestedFields !! "field2" = Some nestedField2) as Hf
    by (vm_compute; reflexivity).
  apply (proj1 (merged_instance_defaults testStore [shouldUseTypeDef; ins2]
                  "ins" nestedName mergedTypeDefValue {[ "anno2" := VNum 1 ]}
                  nestedElemID nestedFields ∅ ∅ false
                  "field2" nestedField2 Hin Hstore Hf)).
  intros v a Hv.
  apply elem_of_cons in Hv as [[= -> ->] | Hv]; [reflexivity|].
  apply elem_of_cons in Hv as [[= -> ->] | Hv]; [reflexivity|].
  by apply elem_of_nil in Hv.
Defined.

End MergerProps.

(** ** Formatter: elapsed time and text layout *)

Module FormatterTextProps.
Import Changes Formatter FormatterText.

(** X1: for a valid start date no further than [2^53] milliseconds from the
    clock, [getElapsedTime] is the number of started seconds: the elapsed
    milliseconds are above [1000 * (elapsed - 1)] and at most
    [1000 * elapsed]; in particular it is 0 only when no time has passed and
    never negative once the clock has reached the start. *)
Theorem getElapsedTime_bounds (now start : Z) :
  (Z.abs (now - start) <= 2 ^ 53)%Z ->
  exists elapsed,
    getElapsedTime now (Some start) = Some elapsed
    /\ (1000 * (elapsed - 1) < now - start <= 1000 * elapsed)%Z
    /\ ((start <= now)%Z -> (0 <= elapsed)%Z)
    /\ ((start < now)%Z -> (1 <= elapsed)%Z).
Proof.
  intros Hrange. eexists. split; [reflexivity|].
  unfold subDouble, ceilDiv1000. rewrite (proj2 (Z.leb_le _ _) Hrange).
  pose proof (Z.div_mod (- (now - start)) 1000 ltac:(lia)) as Hdm.
  pose proof (Z.mod_pos_bound (- (now - start)) 1000 ltac:(lia)) as Hm.
  repeat split; intros; lia.
Qed.

Lemma getElapsedTime_bounds_witness :
  exists elapsed,
    getElapsedTime 7001 (Some 0%Z) = Some elapsed
    /\ (1000 * (elapsed - 1) < 7001 - 0 <= 1000 * elapsed)%Z
    /\ ((0 <= 7001)%Z -> (0 <= elapsed)%Z)
    /\ ((0 < 7001)%Z -> (1 <= elapsed)%Z).
Proof. apply (getElapsedTime_bounds 7001 0). vm_compute. discriminate. Defined.

(** *** Lines *)

Lemma split_nonempty sep s : split sep s <> [].
Proof.
  destruct s as [|c rest]; cbn; [done|].
  destruct (Ascii.eqb c sep); [done|]. by destruct (split sep rest).
Qed.

Lemma split_single_cons sep c s :
  split sep (String c s) = [String c s] ->
  Ascii.eqb c sep = false /\ split sep s = [s].
Proof.
  cbn. destruct (Ascii.eqb c sep).
  - by intros [=].
  - destruct (split sep s) as [|p ps] eqn:Hs; [by destruct (split_nonempty sep s)|].
    by intros [= -> ->].
Qed.

Lemma app_String c (a b : string) : String c a ++ b = String c (a ++ b).
Proof. reflexivity. Qed.

Lemma app_empty (b : string) : EmptyString ++ b = b.
Proof. reflexivity. Qed.

Lemma split_app_single sep a b :
  split sep a = [a] ->
  split sep (a ++ b)
  = match split sep b with
    | piece :: pieces => (a ++ piece) :: pieces
    | [] => [a]
    end.
Proof.
  induction a as [|c a IH]; intros Ha.
  - rewrite app_empty.
    destruct (split sep b) eqn:Hb; [by destruct (split_nonempty sep b)|done].
  - apply split_single_cons in Ha as [Hc Ha]. rewrite app_String. cbn [split].
    rewrite Hc, (IH Ha).
    destruct (split sep b) as [|p ps] eqn:Hb; [|done].
    by destruct (split_nonempty sep b).
Qed.

Lemma split_app_sep sep a b :
  split sep a = [a] ->
  split sep (a ++ String sep b) = a :: split sep b.
Proof.
  intros Ha. rewrite (split_app_single _ _ _ Ha). cbn [split].
  rewrite Ascii.eqb_refl. f_equal.
  clear. induction a as [|c a IH]; [done|]. by rewrite app_String, IH.
Qed.

(** Splitting what was joined gives the lines back. *)
Lemma split_joinWith sep line (lines : list string) :
  Forall (fun l => split sep l = [l]) (line :: lines) ->
  split sep (joinWith (String sep EmptyString) (line :: lines)) = line :: lines.
Proof.
  revert line. induction lines as [|l2 lines IH]; intros line Hall.
  - cbn. by inversion Hall.
  - inversion Hall as [|? ? Hline Hrest]; subst.
    change (joinWith (String sep EmptyString) (line :: l2 :: lines))
      with (line ++ String sep (joinWith (String sep EmptyString) (l2 :: lines))).
    rewrite (split_app_sep _ _ _ Hline). f_equal. by apply IH.
Qed.

(** Joining what was split gives the text back. *)
Lemma joinWith_split sep s :
  joinWith (String sep EmptyString) (split sep s) = s.
Proof.
  induction s as [|c s IH]; cbn; [done|].
  destruct (Ascii.eqb_spec c sep) as [->|Hne].
  - destruct (split sep s) as [|p ps] eqn:Hs; [by destruct (split_nonempty sep s)|].
    cbn in *. by rewrite IH.
  - destruct (split sep s) as [|p ps] eqn:Hs; [by destruct (split_nonempty sep s)|].
    destruct ps; cbn in *; by rewrite <- IH.
Qed.

Lemma split_pieces_single sep s :
  Forall (fun p => split sep p = [p]) (split sep s).
Proof.
  induction s as [|c s IH]; cbn; [by constructor|].
  destruct (Ascii.eqb c sep) eqn:Hc; [by constructor|].
  destruct (split sep s) as [|p ps]; [constructor; [|done]; cbn; by rewrite Hc|].
  inversion IH as [|? ? Hp Hps]; subst. constructor; [|done].
  cbn. by rewrite Hc, Hp.
Qed.

Lemma split_app_both sep a b :
  split sep a = [a] -> split sep b = [b] -> split sep (a ++ b) = [a ++ b].
Proof. intros Ha Hb. by rewrite (split_app_single _ _ _ Ha), Hb. Qed.

Lemma split_spaces n : split newline (repeatString "  " n) = [repeatString "  " n].
Proof.
  induction n as [|n IH]; [done|]. cbn [repeatString].
  by apply split_app_both.
Qed.

Lemma append_assoc (a b c : string) : (a ++ b) ++ c = a ++ (b ++ c).
Proof. induction a as [|x a IH]; [done|]. by rewrite !app_String, IH. Qed.

Lemma app_empty_r (a : string) : a ++ EmptyString = a.
Proof. induction a as [|x a IH]; [done|]. by rewrite app_String, IH. Qed.

Lemma repeatString_comm s a :
  s ++ repeatString s a = repeatString s a ++ s.
Proof.
  induction a as [|a IH]; cbn [repeatString].
  - by rewrite app_empty, app_empty_r.
  - by rewrite append_assoc, <- IH.
Qed.

Lemma repeatString_add s a b :
  repeatString s b ++ repeatString s a = repeatString s (a + b).
Proof.
  induction b as [|b IH]; cbn [repeatString].
  - by rewrite Nat.add_0_r.
  - rewrite append_assoc, IH. by rewrite Nat.add_succ_r.
Qed.

(** X2: [indent] works line by line: the lines of its result are the lines
    of the text, each behind [2 * level] spaces; their number is kept. *)
Theorem indent_lines (text : string) (level : nat) :
  split newline (indent text level)
  = map (fun line => repeatString "  " level ++ line) (split newline text).
Proof.
  unfold indent.
  destruct (split newline text) as [|l ls] eqn:Hs; [by destruct (split_nonempty _ _ Hs)|].
  cbn [map]. apply split_joinWith.
  change (Forall (fun l => split newline l = [l])
            (map (fun line => repeatString "  " level ++ line) (l :: ls))).
  apply Forall_fmap. rewrite <- Hs.
  eapply Forall_impl; [apply split_pieces_single|].
  intros p Hp. cbn. apply split_app_both; [apply split_spaces | done].
Qed.

(** X3: indenting by no level gives the text back, and indenting twice
    indents by the sum of the levels. *)
Theorem indent_compose (text : string) (a b : nat) :
  indent text 0 = text
  /\ indent (indent text a) b = indent text (a + b).
Proof.
  split.
  - unfold indent. cbn. rewrite <- (joinWith_split newline text) at 2.
    f_equal. induction (split newline text) as [|l ls IH]; [done|]. cbn. by rewrite IH.
  - unfold indent at 1. rewrite indent_lines. unfold indent.
    f_equal. rewrite <- list_fmap_compose. apply list_fmap_ext.
    intros _ line _. cbn. by rewrite <- append_assoc, repeatString_add.
Qed.


(** *** Missing levels of a plan step *)

Section MissingChangesProps.
Context {ID V : Type}.
Variable createParentID : ID -> ID.
Variable nameParts : ID -> list string.
Variable getFullName : ID -> string.

#[local] Abbreviation Change' := (@DetailedChange ID V).
#[local] Abbreviation nameOfChange := (fun c : Change' => getFullName (dc_id c)).
#[local] Abbreviation createMissing :=
  (@createMissingChanges ID V createParentID nameParts getFullName).
#[local] Abbreviation missingOf :=
  (@missingChangesOf ID V createParentID nameParts getFullName).

#[local] Abbreviation parentKnown :=
  (@parentKnown ID createParentID nameParts getFullName).

Lemma createMissingChanges_spec fuel : forall id existingIds missing existingIds',
  createMissing fuel id existingIds = Some (missing, existingIds') ->
  existingIds' = existingIds ∪ list_to_set (map nameOfChange missing)
  /\ Forall (fun c => c = emptyChange (dc_id c)) missing
  /\ NoDup (map nameOfChange missing)
  /\ (forall c, c ∈ missing -> nameOfChange c ∉ existingIds)
  /\ parentKnown existingIds' id
  /\ (forall c, c ∈ missing -> parentKnown existingIds' (dc_id c)).
Proof.
  induction fuel as [|fuel IH]; intros id ex missing ex' H; [done|]. cbn in H.
  destruct (_ || _) eqn:Hstop.
  - simplify_eq. cbn. repeat split.
    + set_solver.
    + constructor.
    + constructor.
    + by intros c ?%elem_of_nil.
    + apply orb_true_iff in Hstop as [Hlen | Hin].
      * left. apply Nat.eqb_eq in Hlen. by destruct (nameParts (createParentID id)).
      * right. by apply bool_decide_eq_true in Hin.
    + by intros c ?%elem_of_nil.
  - apply orb_false_iff in Hstop as [_ Hnew]. apply bool_decide_eq_false in Hnew.
    destruct (createMissing fuel _ _) as [[rest ex1]|] eqn:Hrec; [|done].
    cbn in H. simplify_eq.
    apply IH in Hrec as (-> & Hempty & Hnodup & Hfresh & Hparent & Hclosed).
    cbn. repeat split.
    + set_solver.
    + by constructor.
    + constructor; [|done]. intros (c & Hc & Hin)%list_elem_of_fmap.
      apply (Hfresh c Hin). rewrite <- Hc. set_solver.
    + intros c [-> | Hin]%elem_of_cons; [done|].
      intros Hex. apply (Hfresh c Hin). set_solver.
    + right. set_solver.
    + intros c [-> | Hin]%elem_of_cons; [done | by apply Hclosed].
Qed.

Lemma parentKnown_mono (names names' : gset string) id :
  names ⊆ names' -> parentKnown names id -> parentKnown names' id.
Proof. intros Hsub [H | H]; [by left | right; set_solver]. Qed.

Lemma missingChangesOf_spec fuel (changes : list Change') :
  forall existingIds missing existingIds',
  missingOf fuel changes existingIds = Some (missing, existingIds') ->
  existingIds' = existingIds ∪ list_to_set (map nameOfChange missing)
  /\ Forall (fun c => c = emptyChange (dc_id c)) missing
  /\ NoDup (map nameOfChange missing)
  /\ (forall c, c ∈ missing -> nameOfChange c ∉ existingIds)
  /\ (forall c, c ∈ changes \/ c ∈ missing -> parentKnown existingIds' (dc_id c)).
Proof.
  induction changes as [|c changes IH]; intros ex missing ex' H; cbn in H.
  - simplify_eq. cbn. repeat split; try constructor; try set_solver.
    all: intros c [?%elem_of_nil | ?%elem_of_nil]; done.
  - destruct (createMissing fuel _ _) as [[ms ex1]|] eqn:H1; [|done]. cbn in H.
    destruct (missingOf fuel changes ex1) as [[more ex2]|] eqn:H2; [|done].
    cbn in H. simplify_eq.
    apply createMissingChanges_spec in H1 as (-> & He1 & Hn1 & Hf1 & Hp1 & Hc1).
    apply IH in H2 as (-> & He2 & Hn2 & Hf2 & Hc2).
    rewrite map_app, list_to_set_app_L. repeat split.
    + set_solver.
    + by apply Forall_app.
    + apply NoDup_app. repeat split; [done| |done].
      intros x (c1 & -> & Hin1)%list_elem_of_fmap (c2 & Hx & Hin2)%list_elem_of_fmap.
      apply (Hf2 c2 Hin2). rewrite <- Hx.
      apply elem_of_union_r, elem_of_list_to_set, list_elem_of_fmap. by exists c1.
    + intros x [Hin | Hin]%elem_of_app.
      * by apply Hf1.
      * intros Hex. apply (Hf2 x Hin). set_solver.
    + intros x Hx.
      assert (x = c \/ x ∈ ms \/ (x ∈ changes \/ x ∈ more)) as [-> | [Hin | Hin]].
      { rewrite elem_of_cons, elem_of_app in Hx. tauto. }
      * eapply parentKnown_mono; [|exact Hp1]. set_solver.
      * eapply parentKnown_mono; [|exact (Hc1 x Hin)]. set_solver.
      * eapply parentKnown_mono; [|exact (Hc2 x Hin)]. set_solver.
Qed.

(** X4: in the list [addMissingEmptyChanges] returns no level is missing:
    for every change of the list, the parent of its id has no name parts or
    is the id, by full name, of a change of the list. *)
Theorem addMissingEmptyChanges_closed fuel (changes result : list Change') c :
  addMissingEmptyChanges createParentID nameParts getFullName fuel changes = Some result ->
  c ∈ result ->
  nameParts (createParentID (dc_id c)) = []
  \/ exists p, p ∈ result /\ nameOfChange p = getFullName (createParentID (dc_id c)).
Proof.
  unfold addMissingEmptyChanges. intros H Hc.
  destruct (missingOf fuel changes _) as [[missing ex]|] eqn:Hm; [|done].
  cbn in H. simplify_eq.
  apply missingChangesOf_spec in Hm as (-> & _ & _ & _ & Hclosed).
  apply elem_of_app in Hc. destruct (Hclosed c Hc) as [Hnone | Hknown]; [by left|].
  right. rewrite <- list_to_set_app_L, <- map_app in Hknown.
  apply elem_of_list_to_set, list_elem_of_fmap in Hknown as (p & Hp & Hin).
  by exists p.
Qed.

(** Going up shortens the name parts, until none are left. *)
Hypothesis parent_shorter : forall id,
  length (nameParts (createParentID id)) < length (nameParts id)
  \/ nameParts (createParentID id) = [].

Lemma createMissingChanges_total fuel : forall id existingIds,
  length (nameParts (createParentID id)) < fuel ->
  is_Some (createMissing fuel id existingIds).
Proof.
  induction fuel as [|fuel IH]; intros id ex Hfuel; [lia|]. cbn.
  destruct (_ || _) eqn:Hstop; [by eexists|].
  apply orb_false_iff in Hstop as [Hlen _]. apply Nat.eqb_neq in Hlen.
  destruct (IH (createParentID id) ({[getFullName (createParentID id)]} ∪ ex))
    as [[rest ex'] ->]; [|by eexists].
  destruct (parent_shorter (createParentID id)) as [Hlt | ->]; cbn; lia.
Qed.

Lemma missingChangesOf_total fuel (changes : list Change') : forall existingIds,
  Forall (fun c => length (nameParts (dc_id c)) < fuel) changes ->
  is_Some (missingOf fuel changes existingIds).
Proof.
  induction changes as [|c changes IH]; intros ex Hall; cbn; [by eexists|].
  inversion Hall as [|? ? Hc Hrest]; subst.
  destruct (createMissingChanges_total fuel (dc_id c) ex) as [[ms ex1] ->].
  { destruct (parent_shorter (dc_id c)) as [Hlt | ->]; cbn; lia. }
  cbn. destruct (IH ex1 Hrest) as [[more ex2] ->]. by eexists.
Qed.

(** X5: with enough fuel for the longest identifier, [addMissingEmptyChanges]
    returns the changes followed by added changes; every added change is an
    empty ['modify'] change (no [before], no [after]), and the full names
    of the added changes differ from each other and from the full names of
    the changes given. *)
Theorem addMissingEmptyChanges_adds_fresh_titles fuel (changes : list Change') :
  Forall (fun c => length (nameParts (dc_id c)) < fuel) changes ->
  exists missing,
    addMissingEmptyChanges createParentID nameParts getFullName fuel changes
    = Some (changes ++ missing)%list
    /\ Forall (fun c => dc_action c = modify /\ dc_before c = None /\ dc_after c = None)
         missing
    /\ NoDup (map nameOfChange missing)
    /\ (forall c c', c ∈ missing -> c' ∈ changes -> nameOfChange c <> nameOfChange c').
Proof.
  intros Hfuel. unfold addMissingEmptyChanges.
  destruct (missingChangesOf_total fuel changes
              (list_to_set (map nameOfChange changes)) Hfuel) as [[missing ex] Hm].
  rewrite Hm. cbn. exists missing. split; [done|].
  apply missingChangesOf_spec in Hm as (_ & Hempty & Hnodup & Hfresh & _).
  repeat split; [|done|].
  - eapply Forall_impl; [exact Hempty|]. intros c ->. done.
  - intros c c' Hc Hc' Heq. apply (Hfresh c Hc). rewrite Heq.
    apply elem_of_list_to_set, list_elem_of_fmap. by exists c'.
Qed.

End MissingChangesProps.

(** *** The identifiers of adapter-api *)

Lemma createParentID_shorter (id : ElemID) :
  length (nameParts (createParentID id)) < length (nameParts id)
  \/ nameParts (createParentID id) = [].
Proof.
  unfold createParentID. destruct (nameParts id) as [|a [|b l]]; [by right..|].
  left. cbn [nameParts]. generalize (b :: l). clear. intros l. revert a.
  induction l as [|b l IH]; intros a; cbn; [lia|].
  specialize (IH b). cbn in IH. lia.
Qed.

Lemma addMissingEmptyChanges_adds_fresh_titles_witness :
  exists missing,
    addMissingEmptyChanges createParentID nameParts getFullName 3
      [FormatterTextSamples.nestedChange]
    = Some ([FormatterTextSamples.nestedChange] ++ missing)%list
    /\ Forall (fun c => dc_action c = modify /\ dc_before c = None /\ dc_after c = None)
         missing
    /\ NoDup (map (fun c => getFullName (dc_id c)) missing)
    /\ (forall c c', c ∈ missing -> c' ∈ [FormatterTextSamples.nestedChange] ->
          getFullName (dc_id c) <> getFullName (dc_id c')).
Proof.
  apply (addMissingEmptyChanges_adds_fresh_titles createParentID nameParts getFullName
           createParentID_shorter 3 [FormatterTextSamples.nestedChange]).
  repeat constructor.
Defined.

Lemma addMissingEmptyChanges_closed_witness :
  nameParts (createParentID (dc_id FormatterTextSamples.nestedChange)) = []
  \/ exists p,
       p ∈ [FormatterTextSamples.nestedChange; FormatterTextSamples.missingLevel]
       /\ getFullName (dc_id p)
          = getFullName (createParentID (dc_id FormatterTextSamples.nestedChange)).
Proof.
  apply (addMissingEmptyChanges_closed createParentID nameParts getFullName 3
           [FormatterTextSamples.nestedChange]).
  - vm_compute. reflexivity.
  - apply list_elem_of_here.
Defined.

End FormatterTextProps.

(** ** Workspace: building and editing the state *)

Module WorkspaceOpsProps.
Import Workspace WorkspaceOps.

Lemma elem_of_markDirtyIn (names dirty : list string) x :
  x ∈ markDirtyIn names dirty <-> x ∈ dirty \/ x ∈ names.
Proof.
  unfold markDirtyIn. revert dirty.
  induction names as [|n names IH]; intros dirty; cbn.
  - rewrite elem_of_nil. tauto.
  - rewrite IH. unfold set_add. destruct (decide (n ∈ dirty)).
    + rewrite elem_of_cons. split; [tauto|]. intros [?|[->|?]]; tauto.
    + rewrite elem_of_app, list_elem_of_singleton, elem_of_cons. tauto.
Qed.

Lemma NoDup_markDirtyIn (names dirty : list string) :
  NoDup dirty -> NoDup (markDirtyIn names dirty).
Proof.
  unfold markDirtyIn. revert dirty.
  induction names as [|n names IH]; intros dirty Hd; [done|]. cbn.
  apply IH. unfold set_add. destruct (decide (n ∈ dirty)); [done|].
  apply NoDup_app. repeat split; [done| |apply NoDup_singleton].
  intros x Hx ->%list_elem_of_singleton. done.
Qed.

Lemma omit_lookup {Element} (names : list string) (m : gmap string (@ParsedBlueprint Element)) k :
  omit names m !! k = if decide (k ∈ names) then None else m !! k.
Proof.
  unfold omit. destruct (decide (k ∈ names)) as [Hin|Hnin].
  - apply map_lookup_filter_None. right. intros bp _. cbn. tauto.
  - destruct (m !! k) as [bp|] eqn:Hk.
    + by apply map_lookup_filter_Some.
    + apply map_lookup_filter_None. by left.
Qed.

Section Props.
Context {Element : Type}.
Variable mergeElementsOf : list Element -> list Element * list MergeErrors.MergeError.
Variable validateElementsOf : list Element -> list ValidationError.
Variable saltoConfigType : Element.
Variable parse : string -> string -> @ParseResult Element.
Variable objectValues : gmap string (@ParsedBlueprint Element) -> list (@ParsedBlueprint Element).

#[local] Abbreviation PB := (@ParsedBlueprint Element).
#[local] Abbreviation build :=
  (createWorkspaceState mergeElementsOf validateElementsOf saltoConfigType).
#[local] Abbreviation setBlueprints' :=
  (setBlueprints mergeElementsOf validateElementsOf saltoConfigType parse objectValues).
#[local] Abbreviation removeBlueprints' :=
  (removeBlueprints mergeElementsOf validateElementsOf saltoConfigType objectValues).

(** [Object.values] enumerates the values of the map, whatever the order. *)
Hypothesis objectValues_elem : forall (m : gmap string PB) bp,
  bp ∈ objectValues m <-> exists k, m !! k = Some bp.

Lemma last_filter_elem {A} (P : A -> Prop) `{!forall x, Decision (P x)} (l : list A) x :
  last (filter P l) = Some x -> P x /\ x ∈ l.
Proof.
  intros Hl. apply (list_elem_of_filter P l x).
  destruct (filter P l) as [|y ys] using rev_ind; [done|].
  rewrite last_snoc in Hl. simplify_eq. apply elem_of_app. right. left.
Qed.

Lemma last_filter_fmap {A B} (f : A -> B) (P : B -> Prop)
    `{!forall y, Decision (P y)} (l : list A) :
  last (filter P (map f l)) = f <$> last (filter (fun x => P (f x)) l).
Proof.
  induction l as [|x l IH] using rev_ind; [done|].
  rewrite map_app, !filter_app. cbn [map].
  rewrite (filter_singleton P (f x) []), (filter_singleton (fun x => P (f x)) x []).
  destruct (decide (P (f x))).
  - by rewrite !last_snoc.
  - by rewrite !app_nil_r.
Qed.

Lemma insertBlueprints_lookup (l : list PB) : forall (m : gmap string PB) k,
  insertBlueprints m l !! k
  = match last (filter (fun bp => filename bp = k) l) with
    | Some bp => Some bp
    | None => m !! k
    end.
Proof.
  induction l as [|bp l IH]; intros m k; [done|].
  change (insertBlueprints m (bp :: l)) with (insertBlueprints (<[filename bp := bp]> m) l).
  rewrite IH. rewrite filter_cons.
  destruct (decide (filename bp = k)) as [<-|Hne].
  - destruct (filter _ l) as [|y ys] eqn:Hf; cbn.
    + by rewrite lookup_insert_eq.
    + change (last (bp :: y :: ys)) with (last (y :: ys)).
      destruct (last (y :: ys)) eqn:Hl; [done|]. by apply last_None in Hl.
  - destruct (last _); [done|]. by rewrite lookup_insert_ne.
Qed.

Lemma insertBlueprints_keyed (l : list PB) (m : gmap string PB) :
  keyedByFilename m -> keyedByFilename (insertBlueprints m l).
Proof.
  intros Hm k bp. rewrite insertBlueprints_lookup.
  destruct (last _) as [bp'|] eqn:Hl; [|apply Hm].
  intros [= ->]. by apply last_filter_elem in Hl as [? _].
Qed.

Lemma parsedBlueprints_build (l : list PB) :
  parsedBlueprints (build l) = insertBlueprints ∅ l.
Proof. reflexivity. Qed.

Lemma createWorkspaceState_keyed (l : list PB) :
  keyedByFilename (parsedBlueprints (build l)).
Proof.
  rewrite parsedBlueprints_build.
  apply insertBlueprints_keyed. by intros ? ? ?%lookup_empty_Some.
Qed.

Lemma assignBlueprints_lookup (l : list PB) (m : gmap string PB) k :
  assignBlueprints m l !! k
  = if decide (k = "__proto__") then None
    else match last (filter (fun bp => filename bp = k) l) with
         | Some bp => Some bp
         | None => m !! k
         end.
Proof.
  unfold assignBlueprints. destruct (decide (k = "__proto__")) as [->|Hne].
  - apply lookup_delete_eq.
  - rewrite lookup_delete_ne by done. apply insertBlueprints_lookup.
Qed.

Lemma assignBlueprints_keyed (l : list PB) (m : gmap string PB) :
  keyedByFilename m -> keyedByFilename (assignBlueprints m l).
Proof.
  intros Hm k bp. rewrite assignBlueprints_lookup.
  destruct (decide _); [done|]. rewrite <- insertBlueprints_lookup.
  by apply insertBlueprints_keyed.
Qed.

(** X6: in the state [createWorkspaceState] builds, a filename leads to the
    last of the blueprints given under it (none when there is none), and
    every blueprint of the map sits under its own filename. *)
Theorem createWorkspaceState_keyBy (blueprints : list PB) (k : string) :
  parsedBlueprints (build blueprints) !! k
  = last (filter (fun bp => filename bp = k) blueprints)
  /\ keyedByFilename (parsedBlueprints (build blueprints)).
Proof.
  rewrite parsedBlueprints_build. split.
  - rewrite insertBlueprints_lookup, lookup_empty. by destruct (last _).
  - apply insertBlueprints_keyed. by intros ? ? ?%lookup_empty_Some.
Qed.


(** Building the state from the values of a map keyed by filename gives the
    map back. *)
Lemma build_objectValues (m : gmap string PB) :
  keyedByFilename m -> parsedBlueprints (build (objectValues m)) = m.
Proof.
  intros Hm. rewrite parsedBlueprints_build. apply map_eq. intros k.
  rewrite insertBlueprints_lookup, lookup_empty.
  destruct (last _) as [bp|] eqn:Hl.
  - apply last_filter_elem in Hl as [<- Hin].
    apply objectValues_elem in Hin as [k' Hk']. by rewrite (Hm _ _ Hk').
  - destruct (m !! k) as [bp|] eqn:Hk; [|done].
    assert (bp ∈ filter (fun bp => filename bp = k) (objectValues m)) as Hin.
    { apply list_elem_of_filter. split; [by apply Hm|].
      apply objectValues_elem. by exists k. }
    destruct (filter _ (objectValues m)) as [|y ys] using rev_ind;
      [by apply elem_of_nil in Hin|].
    by rewrite last_snoc in Hl.
Qed.

(** X7: [markDirty] adds to a set: afterwards a name is dirty exactly when
    it was dirty or is one of the names given; no name is held twice, and
    the names that were dirty keep their place at the front. *)
Theorem markDirty_is_set_union (names : list string) (ws : @Workspace Element) :
  (forall x, x ∈ dirtyBlueprints (markDirty names ws)
             <-> x ∈ dirtyBlueprints ws \/ x ∈ names)
  /\ (NoDup (dirtyBlueprints ws) -> NoDup (dirtyBlueprints (markDirty names ws)))
  /\ dirtyBlueprints ws `prefix_of` dirtyBlueprints (markDirty names ws).
Proof.
  cbn. split; [intros x; apply elem_of_markDirtyIn|].
  split; [apply NoDup_markDirtyIn|].
  unfold markDirtyIn. generalize (dirtyBlueprints ws). 
  induction names as [|n names IH]; intros dirty; cbn; [done|].
  etrans; [|apply IH]. unfold set_add. destruct (decide (n ∈ dirty)); [done|].
  by apply prefix_app_r.
Qed.

Lemma removeBlueprints_lookup (names : list string) (ws : @Workspace Element) k :
  keyedByFilename (parsedBlueprints (state ws)) ->
  parsedBlueprints (state (removeBlueprints' names ws)) !! k
  = if decide (k ∈ names) then None else parsedBlueprints (state ws) !! k.
Proof.
  intros Hkeyed. unfold removeBlueprints. cbn [state].
  rewrite build_objectValues; [apply omit_lookup|].
  intros k' bp. rewrite omit_lookup. destruct (decide _); [done|apply Hkeyed].
Qed.

Lemma setBlueprints_lookup (blueprints : list (@Blueprint)) (ws : @Workspace Element) k :
  keyedByFilename (parsedBlueprints (state ws)) ->
  parsedBlueprints (state (setBlueprints' blueprints ws)) !! k
  = if decide (k = "__proto__") then None
    else match last (filter (fun bp => bp_filename bp = k) blueprints) with
         | Some bp => Some (parseBlueprint parse bp)
         | None => parsedBlueprints (state ws) !! k
         end.
Proof.
  intros Hkeyed. unfold setBlueprints. cbn [state].
  rewrite build_objectValues by by apply assignBlueprints_keyed.
  rewrite assignBlueprints_lookup. destruct (decide _); [done|].
  unfold parseBlueprints.
  rewrite (last_filter_fmap (parseBlueprint parse) (fun bp => filename bp = k)).
  cbn. by destruct (last _).
Qed.

(** X8: on a workspace whose blueprints sit under their filenames,
    [removeBlueprints] of names that are read as keys leaves exactly the
    blueprints whose name is not removed, each unchanged, and the names
    removed are dirty afterwards. *)
Theorem removeBlueprints_omits (names : list string) (ws : @Workspace Element) :
  keyedByFilename (parsedBlueprints (state ws)) ->
  forallb (readAsKey (parsedBlueprints (state ws))) names = true ->
  (forall k, parsedBlueprints (state (removeBlueprints' names ws)) !! k
             = if decide (k ∈ names) then None
               else parsedBlueprints (state ws) !! k)
  /\ (forall x, x ∈ names -> x ∈ dirtyBlueprints (removeBlueprints' names ws)).
Proof.
  intros Hkeyed _. split.
  - intros k. by apply removeBlueprints_lookup.
  - intros x Hx. cbn. apply elem_of_markDirtyIn. by right.
Qed.

(** X9: on a workspace whose blueprints sit under their filenames,
    [setBlueprints] puts under every filename given, other than
    [__proto__], the parse of the last blueprint given under it and keeps
    every other blueprint; afterwards no blueprint is held under
    [__proto__], whether one was held before or is given; and the filenames
    given are dirty. *)
Theorem setBlueprints_overwrites (blueprints : list (@Blueprint)) (ws : @Workspace Element) :
  keyedByFilename (parsedBlueprints (state ws)) ->
  (forall k, parsedBlueprints (state (setBlueprints' blueprints ws)) !! k
             = if decide (k = "__proto__") then None
               else match last (filter (fun bp => bp_filename bp = k) blueprints) with
                    | Some bp => Some (parseBlueprint parse bp)
                    | None => parsedBlueprints (state ws) !! k
                    end)
  /\ (forall bp, bp ∈ blueprints ->
        bp_filename bp ∈ dirtyBlueprints (setBlueprints' blueprints ws)).
Proof.
  intros Hkeyed. split.
  - intros k. by apply setBlueprints_lookup.
  - intros bp Hbp. cbn. apply elem_of_markDirtyIn. right.
    apply list_elem_of_fmap. by exists bp.
Qed.

End Props.

(** *** A concrete workspace *)

Import WorkspaceSamples WorkspaceOpsSamples.

Lemma sampleObjectValues_elem (m : gmap string (@ParsedBlueprint ElemID)) bp :
  bp ∈ sampleObjectValues m <-> exists k, m !! k = Some bp.
Proof.
  unfold sampleObjectValues. rewrite list_elem_of_fmap. split.
  - intros ([k bp'] & -> & H%elem_of_map_to_list). by exists k.
  - intros [k H]. exists (k, bp). by rewrite elem_of_map_to_list.
Qed.

Lemma loadedWorkspace_keyed :
  keyedByFilename (parsedBlueprints (state loadedWorkspace)).
Proof. apply createWorkspaceState_keyed. Qed.

Lemma removeBlueprints_omits_witness :
  (forall k, parsedBlueprints (state (sampleRemove ["a.bp"] loadedWorkspace)) !! k
             = if decide (k ∈ ["a.bp"]) then None
               else parsedBlueprints (state loadedWorkspace) !! k)
  /\ (forall x, x ∈ ["a.bp"] -> x ∈ dirtyBlueprints (sampleRemove ["a.bp"] loadedWorkspace)).
Proof.
  apply (removeBlueprints_omits sampleMerge sampleValidate sampleConfigType
           sampleObjectValues sampleObjectValues_elem ["a.bp"] loadedWorkspace
           loadedWorkspace_keyed).
  vm_compute. reflexivity.
Defined.

Lemma setBlueprints_overwrites_witness :
  (forall k, parsedBlueprints (state (sampleSet [newBlueprint] loadedWorkspace)) !! k
             = if decide (k = "__proto__") then None
               else match last (filter (fun bp => bp_filename bp = k) [newBlueprint]) with
                    | Some bp => Some (parseBlueprint sampleParse bp)
                    | None => parsedBlueprints (state loadedWorkspace) !! k
                    end)
  /\ (forall bp, bp ∈ [newBlueprint] ->
        bp_filename bp ∈ dirtyBlueprints (sampleSet [newBlueprint] loadedWorkspace)).
Proof.
  apply (setBlueprints_overwrites sampleMerge sampleValidate sampleConfigType
           sampleParse sampleObjectValues sampleObjectValues_elem [newBlueprint]
           loadedWorkspace loadedWorkspace_keyed).
Defined.

End WorkspaceOpsProps.

(** ** Workspace: flush, call by call *)

Module FlushCallsProps.
Import Workspace WorkspaceOps.

Section Props.
Context {Element : Type}.
Variable elemIDOf : Element -> ElemID.
Variable isConfig : ElemID -> bool.
Variable path_join : string -> string -> string.
Variable path_dirname : string -> string.
Variable fileOk : @FileOp Element -> bool.
Variable dateNow : string -> Z.

#[local] Abbreviation flushBlueprint' :=
  (flushBlueprint elemIDOf isConfig path_join path_dirname fileOk dateNow).
#[local] Abbreviation flushAll' :=
  (flushAll elemIDOf isConfig path_join path_dirname fileOk dateNow).
#[local] Abbreviation flush' :=
  (flush elemIDOf isConfig path_join path_dirname fileOk dateNow).
#[local] Abbreviation flushPath' := (flushPath elemIDOf isConfig path_join).
#[local] Abbreviation fileCalls' :=
  (fileCalls elemIDOf isConfig path_join path_dirname dateNow).

(** The workspace with another dirty set. *)
#[local] Abbreviation withDirty := (fun (ws : @Workspace Element) d =>
  mkWorkspace (config ws) (state ws) (useCache ws) d).

Lemma flushBlueprint_calls fname (w : @World Element) :
  flushBlueprint' fname w
  = if negb (readsInherited w.1 fname) && forallb fileOk (fileCalls' w.1 fname)
    then Some (withDirty w.1 (set_delete fname (dirtyBlueprints w.1)),
               (w.2 ++ fileCalls' w.1 fname)%list)
    else None.
Proof.
  destruct w as [ws log].
  unfold flushBlueprint, fileCalls, readsInherited, perform, dropDirty. cbn [fst snd].
  destruct (parsedBlueprints (state ws) !! fname) as [bp|]; cbn.
  - destruct (fileOk (Mkdirp _)); cbn; [|done].
    destruct (fileOk (WriteTextFile _ _)); cbn; [|done].
    destruct (useCache ws) eqn:Hc; cbn.
    + destruct (fileOk (CachePut _ _ _)); cbn; [|done].
      by rewrite <- !app_assoc, Hc.
    + by rewrite <- !app_assoc, Hc.
  - destruct (inherited fname); cbn; [done|]. by destruct (fileOk (Rm _)).
Qed.

Lemma flushAll_calls names : forall (w : @World Element),
  flushAll' names (Some w)
  = if forallb (fun fname => negb (readsInherited w.1 fname)
                             && forallb fileOk (fileCalls' w.1 fname)) names
    then Some (withDirty w.1 (filter (fun x => x ∉ names) (dirtyBlueprints w.1)),
               (w.2 ++ (names ≫= fileCalls' w.1))%list)
    else None.
Proof.
  induction names as [|n names IH]; intros w.
  - cbn. rewrite app_nil_r.
    rewrite (FlushProps.filter_keeps_all _ (dirtyBlueprints w.1))
      by (intros x _; apply not_elem_of_nil).
    by destruct w as [[] ?].
  - rewrite FlushProps.flushAll_cons, flushBlueprint_calls. cbn [forallb].
    destruct (negb (readsInherited w.1 n) && forallb fileOk (fileCalls' w.1 n));
      cbn [andb]; [|apply FlushProps.flushAll_None].
    rewrite IH. cbn [fst snd config state useCache dirtyBlueprints].
    change (fileCalls' (withDirty w.1 (set_delete n (dirtyBlueprints w.1))))
      with (fileCalls' w.1).
    change (readsInherited (withDirty w.1 (set_delete n (dirtyBlueprints w.1))))
      with (readsInherited w.1).
    destruct (forallb _ names); [|done].
    f_equal. f_equal.
    + f_equal. unfold set_delete. rewrite list_filter_filter.
      apply list_filter_iff. intros x. rewrite elem_of_cons. tauto.
    + cbn. by rewrite <- app_assoc.
Qed.

Lemma flush_effect (ws : @Workspace Element) :
  flush' ws
  = if forallb (fun fname => negb (readsInherited ws fname)
                             && forallb fileOk (fileCalls' ws fname))
         (dirtyBlueprints ws)
    then Some (withDirty ws [], dirtyBlueprints ws ≫= fileCalls' ws)
    else None.
Proof.
  unfold flush. rewrite flushAll_calls. cbn.
  destruct (forallb _ _); [|done]. do 3 f_equal.
  apply elem_of_nil_inv. intros x [Hx1 Hx2]%list_elem_of_filter. done.
Qed.

Lemma flush_Some_inv (ws : @Workspace Element) (w' : @World Element) :
  flush' ws = Some w' ->
  w' = (withDirty ws [], dirtyBlueprints ws ≫= fileCalls' ws).
Proof. rewrite flush_effect. destruct (forallb _ _); [|done]. by intros [= <-]. Qed.

Lemma flush_Some_reads (ws : @Workspace Element) (w' : @World Element) fname :
  flush' ws = Some w' -> fname ∈ dirtyBlueprints ws ->
  readsInherited ws fname = false.
Proof.
  rewrite flush_effect. destruct (forallb _ _) eqn:Hall; [|done].
  intros _ Hf%list_elem_of_In. rewrite forallb_forall in Hall.
  apply Hall, andb_true_iff in Hf as [Hf _]. by destruct (readsInherited ws fname).
Qed.

Lemma sublist_bind {A B} (f : A -> list B) (l : list A) x :
  x ∈ l -> f x `sublist_of` l ≫= f.
Proof.
  induction l as [|y l IH]; [by intros ?%elem_of_nil|].
  intros [->|Hx]%elem_of_cons; cbn.
  - by apply sublist_inserts_r.
  - by apply sublist_inserts_l, IH.
Qed.

(** X10: a flush that completes has made exactly the calls of the dirty
    filenames, those of one filename in their order: [rm] of the path for a
    filename without a blueprint; [mkdirp] of the directory, then
    [writeTextFile] of the buffer, then the cache entry when the cache is in
    use, for a filename with one.  Config, state and cache setting are as
    before and no filename is dirty. *)
Theorem flush_calls (ws : @Workspace Element) (w' : @World Element) :
  flush' ws = Some w' ->
  w'.2 ≡ₚ dirtyBlueprints ws ≫= fileCalls' ws
  /\ (forall fname, fname ∈ dirtyBlueprints ws ->
        fileCalls' ws fname `sublist_of` w'.2)
  /\ w'.1 = withDirty ws [].
Proof.
  intros ->%flush_Some_inv. cbn [fst snd]. split; [done|]. split; [|done].
  intros fname Hf. by apply sublist_bind.
Qed.

(** X11: flush completes exactly when no dirty filename without a
    blueprint is a name the map inherits from [Object.prototype] (reading
    it makes [isNewConfig] throw) and every call of every dirty filename is
    granted; one rejected call rejects the flush. *)
Theorem flush_completes_iff (ws : @Workspace Element) :
  is_Some (flush' ws)
  <-> (forall fname, fname ∈ dirtyBlueprints ws ->
         parsedBlueprints (state ws) !! fname = None -> inherited fname = false)
      /\ (forall fname op, fname ∈ dirtyBlueprints ws -> op ∈ fileCalls' ws fname ->
                           fileOk op = true).
Proof.
  rewrite flush_effect.
  destruct (forallb _ _) eqn:Hall.
  - split; [|by eexists]. intros _. rewrite forallb_forall in Hall. split.
    + intros fname Hf%list_elem_of_In Hnone. apply Hall in Hf.
      apply andb_true_iff in Hf as [Hf _]. unfold readsInherited in Hf.
      rewrite Hnone in Hf. by destruct (inherited fname).
    + intros fname op Hf%list_elem_of_In Hop. apply Hall in Hf.
      apply andb_true_iff in Hf as [_ Hf]. rewrite forallb_forall in Hf.
      apply Hf. by apply list_elem_of_In.
  - split; [by intros [? ?]|]. intros [Hread Hok]. exfalso.
    apply not_true_iff_false in Hall. apply Hall.
    apply forallb_forall. intros fname Hf%list_elem_of_In.
    apply andb_true_iff. split.
    + unfold readsInherited.
      destruct (parsedBlueprints (state ws) !! fname) eqn:Hl; [done|].
      by rewrite (Hread fname Hf Hl).
    + apply forallb_forall. intros op Hop%list_elem_of_In. by apply (Hok fname).
Qed.

(** X12: flushing again after a flush that completed makes no call, whatever
    the file layer would grant, and changes nothing. *)
Theorem flush_twice (ws : @Workspace Element) (w' : @World Element) :
  flush' ws = Some w' ->
  flush' w'.1 = Some (w'.1, []).
Proof.
  intros ->%flush_Some_inv. by rewrite flush_effect.
Qed.

(** X13: flush touches the files of the dirty filenames only: the path of
    every call is the path of a dirty filename or its directory; a file is
    removed only when its filename has no blueprint and written only with
    the buffer of its blueprint; without the cache no cache entry is
    written. *)
Theorem flush_touches_dirty_only (ws : @Workspace Element) (w' : @World Element) op :
  flush' ws = Some w' ->
  op ∈ w'.2 ->
  exists fname,
    fname ∈ dirtyBlueprints ws
    /\ match op with
       | Rm p =>
           p = flushPath' ws fname /\ parsedBlueprints (state ws) !! fname = None
       | Mkdirp p => p = path_dirname (flushPath' ws fname)
       | WriteTextFile p contents =>
           p = flushPath' ws fname
           /\ (buffer <$> parsedBlueprints (state ws) !! fname) = Some contents
       | CachePut p _ bp =>
           p = flushPath' ws fname /\ useCache ws = true
           /\ parsedBlueprints (state ws) !! fname = Some bp
       end.
Proof.
  intros ->%flush_Some_inv (fname & Hop & Hf)%list_elem_of_bind.
  exists fname. split; [done|]. unfold fileCalls in Hop.
  destruct (parsedBlueprints (state ws) !! fname) as [bp|] eqn:Hbp.
  - apply elem_of_cons in Hop as [-> | Hop]; [done|].
    apply elem_of_cons in Hop as [-> | Hop]; [done|].
    destruct (useCache ws); [|by apply elem_of_nil in Hop].
    by apply list_elem_of_singleton in Hop as ->.
  - destruct (inherited fname); [by apply elem_of_nil in Hop|].
    by apply list_elem_of_singleton in Hop as ->.
Qed.

End Props.

(** *** A concrete flush *)

Import WorkspaceSamples.

Lemma flush_calls_witness :
  credsWorkspaceFlushed.2
  ≡ₚ dirtyBlueprints credsWorkspace
       ≫= fileCalls id sampleIsConfig sampleJoin sampleDirname (fun _ => 0%Z) credsWorkspace
  /\ (forall fname, fname ∈ dirtyBlueprints credsWorkspace ->
        fileCalls id sampleIsConfig sampleJoin sampleDirname (fun _ => 0%Z)
          credsWorkspace fname `sublist_of` credsWorkspaceFlushed.2)
  /\ credsWorkspaceFlushed.1
     = mkWorkspace (config credsWorkspace) (state credsWorkspace)
         (useCache credsWorkspace) [].
Proof.
  apply (flush_calls id sampleIsConfig sampleJoin sampleDirname (fun _ => true)
           (fun _ => 0%Z) credsWorkspace credsWorkspaceFlushed).
  vm_compute. reflexivity.
Defined.

Lemma flush_twice_witness :
  sampleFlush credsWorkspaceFlushed.1 = Some (credsWorkspaceFlushed.1, []).
Proof.
  apply (flush_twice id sampleIsConfig sampleJoin sampleDirname (fun _ => true)
           (fun _ => 0%Z) credsWorkspace credsWorkspaceFlushed).
  vm_compute. reflexivity.
Defined.

Lemma flush_touches_dirty_only_witness :
  exists fname,
    fname ∈ dirtyBlueprints credsWorkspace
    /\ "/ws/gone.bp" = flushPath id sampleIsConfig sampleJoin credsWorkspace fname
    /\ parsedBlueprints (state credsWorkspace) !! fname = None.
Proof.
  apply (flush_touches_dirty_only id sampleIsConfig sampleJoin sampleDirname
           (fun _ => true) (fun _ => 0%Z) credsWorkspace credsWorkspaceFlushed
           (Rm "/ws/gone.bp")).
  - vm_compute. reflexivity.
  - apply list_elem_of_here.
Defined.

End FlushCallsProps.

(** ** Workspace: source maps and error reports *)

Module WorkspaceErrorsProps.
Import Workspace WorkspaceOps.

(** X14: [strings] gives one string per error, and [hasErrors] holds exactly
    when [strings] is not empty. *)
Theorem strings_per_error (e : Errors) :
  length (strings e) = length (parse e) + length (merge e) + length (validation e)
  /\ (hasErrors e = true <-> strings e <> []).
Proof.
  unfold strings, hasErrors. split.
  - rewrite !length_app, !length_map. lia.
  - destruct (parse e), (merge e), (validation e); cbn; split; done.
Qed.

Lemma length_substring (s : string) : forall n m,
  String.length (String.substring n m s) <= m
  /\ String.length (String.substring n m s) <= String.length s - n.
Proof.
  induction s as [|c s IH]; intros n m.
  - destruct n, m; cbn; lia.
  - destruct n as [|n]; cbn [String.substring].
    + destruct m as [|m]; cbn; [lia|]. destruct (IH 0 m). lia.
    + destruct (IH n m). cbn. lia.
Qed.

Lemma elem_of_concat {A} (x : A) (ls : list (list A)) :
  x ∈ concat ls <-> exists l, x ∈ l /\ l ∈ ls.
Proof.
  rewrite list_elem_of_In, in_concat. split; intros (l & H1 & H2); exists l.
  - by rewrite !list_elem_of_In.
  - by rewrite <- !list_elem_of_In.
Qed.

Section Props.
Context {Element : Type}.
Variable mergeElementsOf : list Element -> list Element * list MergeErrors.MergeError.
Variable validateElementsOf : list Element -> list ValidationError.
Variable saltoConfigType : Element.

#[local] Abbreviation PB := (@ParsedBlueprint Element).
#[local] Abbreviation State := (@WorkspaceState Element).
#[local] Abbreviation build :=
  (createWorkspaceState mergeElementsOf validateElementsOf saltoConfigType).

(** X15: [resolveSourceFragment] throws exactly when no blueprint is loaded
    under the filename of the range.  Otherwise the fragment keeps the range
    and its text is cut from the buffer of that blueprint: the same text
    when start and end are exchanged, never longer than the distance of the
    two offsets, nor than what the buffer holds from the lower one on. *)
Theorem resolveSourceFragment_cuts_buffer (st : State) (sr : SourceRange) :
  match parsedBlueprints st !! sr_filename sr with
  | None => resolveSourceFragment st sr = None
  | Some bp =>
      exists sf,
        resolveSourceFragment st sr = Some sf
        /\ sourceRange sf = sr
        /\ fragment sf = js_substring (buffer bp) (byte (sr_end sr)) (byte (sr_start sr))
        /\ String.length (fragment sf)
           <= (byte (sr_start sr) `max` byte (sr_end sr))
              - (byte (sr_start sr) `min` byte (sr_end sr))
        /\ String.length (fragment sf)
           <= String.length (buffer bp)
              - (byte (sr_start sr) `min` byte (sr_end sr))
  end.
Proof.
  unfold resolveSourceFragment.
  destruct (parsedBlueprints st !! sr_filename sr) as [bp|]; [|done].
  eexists. split; [done|]. cbn. split; [done|]. unfold js_substring. split.
  - by rewrite (Nat.min_comm (byte (sr_end sr))), (Nat.max_comm (byte (sr_end sr))).
  - apply length_substring.
Qed.

Lemma mergeOne_lookup (result m : gmap string (list SourceRange)) k :
  map_fold (fun key ranges res =>
              <[key := (default [] (res !! key) ++ ranges)%list]> res) result m !! k
  = match m !! k with
    | Some ranges => Some (default [] (result !! k) ++ ranges)%list
    | None => result !! k
    end.
Proof.
  apply (map_fold_weak_ind (fun r m =>
    r !! k = match m !! k with
             | Some ranges => Some (default [] (result !! k) ++ ranges)%list
             | None => result !! k
             end)); [done|].
  intros i x m' r Hi IH. destruct (decide (i = k)) as [->|Hne].
  - rewrite !lookup_insert_eq, IH, Hi. done.
  - by rewrite !lookup_insert_ne.
Qed.

Lemma mergeSourceMaps_from (bps : list PB) : forall (result : gmap string (list SourceRange)) k,
  foldl (fun result bp =>
           map_fold (fun key ranges res =>
                       <[key := (default [] (res !! key) ++ ranges)%list]> res)
             result (sourceMap bp)) result bps !! k
  = if decide (is_Some (result !! k) \/ Exists (fun bp => is_Some (sourceMap bp !! k)) bps)
    then Some (default [] (result !! k)
               ++ concat (map (fun bp => default [] (sourceMap bp !! k)) bps))%list
    else None.
Proof.
  induction bps as [|bp bps IH]; intros result k.
  - cbn. rewrite app_nil_r. destruct (decide _) as [[[r Hr]|H]|H].
    + by rewrite Hr.
    + by apply Exists_nil in H.
    + destruct (result !! k) eqn:Hr; [|done]. destruct H. left. by eexists.
  - cbn [foldl]. rewrite IH, mergeOne_lookup. cbn [map concat].
    destruct (sourceMap bp !! k) as [ranges|] eqn:Hbp; cbn [default].
    + rewrite decide_True by (left; by eexists).
      rewrite decide_True by (right; left; by eexists).
      cbn. by rewrite <- app_assoc.
    + destruct (decide (is_Some (result !! k) \/ _)) as [H|H].
      * rewrite decide_True; [done|]. destruct H as [H|H]; [by left|].
        right. by right.
      * rewrite decide_False; [done|]. intros [H'|H']; [tauto|].
        apply Exists_cons in H' as [H'|H'];
          [rewrite Hbp in H'; by destruct H' as [? [=]]|].
        apply H. by right.
Qed.

(** X16: the merged source map holds under a name the ranges that the
    blueprints hold under it, appended in the order of the blueprints, and
    holds nothing under a name that no blueprint has. *)
Theorem mergeSourceMaps_appends (bps : list PB) (k : string) :
  mergeSourceMaps bps !! k
  = if decide (Exists (fun bp => is_Some (sourceMap bp !! k)) bps)
    then Some (concat (map (fun bp => default [] (sourceMap bp !! k)) bps))
    else None.
Proof.
  unfold mergeSourceMaps. rewrite mergeSourceMaps_from, lookup_empty. cbn.
  destruct (decide (Exists _ bps)) as [H|H].
  - by rewrite decide_True by by right.
  - rewrite decide_False; [done|]. by intros [[? [=]]|?].
Qed.

Lemma getWorkspaceErrors_is_Some (st : State) :
  rangesResolve st -> is_Some (getWorkspaceErrors st).
Proof.
  intros (Hp & Hm & Hv). unfold getWorkspaceErrors.
  assert (is_Some (mapM (parseWorkspaceError st) (parse (st_errors st)))) as [ps ->].
  { apply mapM_is_Some, Forall_forall. intros pe Hpe.
    unfold compose, parseWorkspaceError.
    destruct (WorkspaceProps.resolveSourceFragment_is_Some st _ (Hp _ Hpe)) as [sf ->].
    by eexists. }
  assert (is_Some (mapM (mergeWorkspaceError st) (merge (st_errors st)))) as [ms ->].
  { apply mapM_is_Some, Forall_forall. intros me Hme.
    unfold compose, mergeWorkspaceError.
    destruct (WorkspaceProps.resolve_all_is_Some st _ (fun sr => Hm me sr Hme)) as [sfs ->].
    by eexists. }
  assert (is_Some (mapM (validationWorkspaceError st) (validation (st_errors st))))
    as [vs ->].
  { apply mapM_is_Some, Forall_forall. intros ve Hve.
    unfold compose, validationWorkspaceError.
    destruct (WorkspaceProps.resolve_all_is_Some st _ (fun sr => Hv ve sr Hve)) as [sfs ->].
    by eexists. }
  by eexists.
Qed.

Lemma resolveSourceFragment_Some_inv (st : State) sr sf :
  resolveSourceFragment st sr = Some sf ->
  is_Some (parsedBlueprints st !! sr_filename sr) /\ sourceRange sf = sr.
Proof.
  unfold resolveSourceFragment.
  destruct (parsedBlueprints st !! sr_filename sr); [|done].
  intros [= <-]. split; [by eexists|done].
Qed.

Lemma resolve_all_Some_inv (st : State) srs sfs :
  mapM (resolveSourceFragment st) srs = Some sfs ->
  (forall sr, sr ∈ srs -> is_Some (parsedBlueprints st !! sr_filename sr))
  /\ map sourceRange sfs = srs
  /\ Forall (fun sf => resolveSourceFragment st (sourceRange sf) = Some sf) sfs.
Proof.
  rewrite mapM_Some. induction 1 as [|sr sf srs sfs H _ IH].
  - split; [by intros ? ?%elem_of_nil|done].
  - destruct IH as (IH1 & IH2 & IH3).
    destruct (resolveSourceFragment_Some_inv _ _ _ H) as [Hs Hr].
    split; [|split].
    + intros sr' [->|?]%elem_of_cons; auto.
    + cbn. by rewrite Hr, IH2.
    + constructor; [by rewrite Hr|done].
Qed.

(** X17: [getWorkspaceErrors] returns exactly when every source range it has
    to resolve names a loaded blueprint: the subject of every parse error
    and every range the source map holds for the element of a merge or a
    validation error.  Otherwise it throws. *)
Theorem getWorkspaceErrors_returns_iff (st : State) :
  is_Some (getWorkspaceErrors st) <-> rangesResolve st.
Proof.
  split; [|apply getWorkspaceErrors_is_Some].
  intros [errs (ps & ms & vs & _ & Fp & Fm & Fv)%WorkspaceProps.getWorkspaceErrors_Some].
  split; [|split].
  - intros pe (i & Hi)%list_elem_of_lookup.
    destruct (Forall2_lookup_l _ _ _ _ _ Fp Hi) as (we & _ & Hwe).
    unfold parseWorkspaceError in Hwe.
    destruct (resolveSourceFragment st (subject pe)) as [sf|] eqn:Hsf; [|done].
    by apply resolveSourceFragment_Some_inv in Hsf as [? _].
  - intros me sr (i & Hi)%list_elem_of_lookup Hsr.
    destruct (Forall2_lookup_l _ _ _ _ _ Fm Hi) as (we & _ & Hwe).
    unfold mergeWorkspaceError in Hwe.
    destruct (mapM _ _) as [sfs|] eqn:Hsfs; [|done].
    apply resolve_all_Some_inv in Hsfs as (H & _). by apply H.
  - intros ve sr (i & Hi)%list_elem_of_lookup Hsr.
    destruct (Forall2_lookup_l _ _ _ _ _ Fv Hi) as (we & _ & Hwe).
    unfold validationWorkspaceError in Hwe.
    destruct (mapM _ _) as [sfs|] eqn:Hsfs; [|done].
    apply resolve_all_Some_inv in Hsfs as (H & _). by apply H.
Qed.

(** X18: what a workspace error reports.  Its message is the detail of the
    parse error, or the message of the merge or validation error, that
    caused it; its fragments stand for the subject of the parse error, or
    for the ranges the source map holds under the full name of the element
    of the merge or validation error, one fragment per range in the same
    order; and every fragment is the resolution of its own range. *)
Theorem getWorkspaceErrors_reports (st : State) errs we :
  getWorkspaceErrors st = Some errs ->
  we ∈ errs ->
  match cause we with
  | Some (CauseParse pe) =>
      we_error we = detail pe
      /\ map sourceRange (sourceFragments we) = [subject pe]
  | Some (CauseMerge me) =>
      we_error we = MergeErrors.message me
      /\ map sourceRange (sourceFragments we)
         = sourceRangesOf st (getFullName (MergeErrors.elemID me))
  | Some (CauseValidation ve) =>
      we_error we = ve_message ve
      /\ map sourceRange (sourceFragments we)
         = sourceRangesOf st (getFullName (ve_elemID ve))
  | None => False
  end
  /\ Forall (fun sf => resolveSourceFragment st (sourceRange sf) = Some sf)
       (sourceFragments we).
Proof.
  intros (ps & ms & vs & -> & Fp & Fm & Fv)%WorkspaceProps.getWorkspaceErrors_Some Hin.
  rewrite !elem_of_app in Hin. destruct Hin as [Hin | [Hin | Hin]];
    apply list_elem_of_lookup in Hin as [i Hi].
  - destruct (Forall2_lookup_r _ _ _ _ _ Fp Hi) as (pe & _ & Hpe).
    unfold parseWorkspaceError in Hpe.
    destruct (resolveSourceFragment st (subject pe)) as [sf|] eqn:Hsf; [|done].
    injection Hpe as <-. cbn.
    destruct (resolveSourceFragment_Some_inv _ _ _ Hsf) as [_ Hr].
    rewrite Hr. repeat split. constructor; [by rewrite Hr|constructor].
  - destruct (Forall2_lookup_r _ _ _ _ _ Fm Hi) as (me & _ & Hme).
    unfold mergeWorkspaceError in Hme.
    destruct (mapM _ _) as [sfs|] eqn:Hsfs; [|done].
    injection Hme as <-. cbn.
    by apply resolve_all_Some_inv in Hsfs as (_ & ? & ?).
  - destruct (Forall2_lookup_r _ _ _ _ _ Fv Hi) as (ve & _ & Hve).
    unfold validationWorkspaceError in Hve.
    destruct (mapM _ _) as [sfs|] eqn:Hsfs; [|done].
    injection Hve as <-. cbn.
    by apply resolve_all_Some_inv in Hsfs as (_ & ? & ?).
Qed.

(** X19: a state built from blueprints whose parse errors and source ranges
    point into the blueprint they come from has a blueprint loaded for
    every range of every error: [getWorkspaceErrors] returns on it. *)
Theorem createWorkspaceState_errors_resolve (bps : list PB) :
  Forall ownRanges bps ->
  rangesResolve (build bps) /\ is_Some (getWorkspaceErrors (build bps)).
Proof.
  intros Hown.
  assert (forall bp, bp ∈ bps -> is_Some (parsedBlueprints (build bps) !! filename bp))
    as Hloaded.
  { intros bp Hbp. rewrite WorkspaceOpsProps.parsedBlueprints_build,
      WorkspaceOpsProps.insertBlueprints_lookup.
    destruct (last _) eqn:Hl; [by eexists|]. apply last_None in Hl.
    assert (bp ∈ filter (fun bp0 => filename bp0 = filename bp) bps) as Hin
      by by apply list_elem_of_filter.
    rewrite Hl in Hin. by apply elem_of_nil in Hin. }
  assert (forall name sr, sr ∈ sourceRangesOf (build bps) name ->
            is_Some (parsedBlueprints (build bps) !! sr_filename sr)) as Hranges.
  { intros name sr. unfold sourceRangesOf.
    change (st_sourceMap (build bps)) with (mergeSourceMaps bps).
    rewrite mergeSourceMaps_appends. destruct (decide _); [|by intros ?%elem_of_nil].
    cbn. intros (l & Hsr & (bp & -> & Hbp)%list_elem_of_fmap)%elem_of_concat.
    rewrite Forall_forall in Hown. destruct (Hown _ Hbp) as [_ Hmap].
    destruct (sourceMap bp !! name) as [ranges|] eqn:Hn; [|by apply elem_of_nil in Hsr].
    rewrite (Hmap _ _ _ Hn Hsr). by apply Hloaded. }
  assert (rangesResolve (build bps)) as Hres.
  { split; [|split]; [|intros; by eapply Hranges..].
    intros pe. change (parse (st_errors (build bps))) with (concat (map errors bps)).
    intros (l & Hpe & (bp & -> & Hbp)%list_elem_of_fmap)%elem_of_concat.
    rewrite Forall_forall in Hown. destruct (Hown _ Hbp) as [Herr _].
    rewrite (Herr _ Hpe). by apply Hloaded. }
  split; [done|]. by apply getWorkspaceErrors_is_Some.
Qed.

End Props.

(** *** Concrete states *)

Import WorkspaceSamples WorkspaceOpsSamples.

Lemma getWorkspaceErrors_reports_witness :
  (we_error sampleWarning = ve_message sampleInvalid
   /\ map sourceRange (sourceFragments sampleWarning)
      = sourceRangesOf sampleState (getFullName (ve_elemID sampleInvalid)))
  /\ Forall (fun sf => resolveSourceFragment sampleState (sourceRange sf) = Some sf)
       (sourceFragments sampleWarning).
Proof.
  apply (getWorkspaceErrors_reports sampleState sampleWorkspaceErrors sampleWarning).
  - vm_compute. reflexivity.
  - apply list_elem_of_further, list_elem_of_further, list_elem_of_here.
Defined.

Lemma ownBlueprint_ownRanges : Forall ownRanges [ownBlueprint].
Proof.
  constructor; [|constructor]. split.
  - by intros pe ->%list_elem_of_singleton.
  - intros name ranges sr H. unfold ownBlueprint in H. cbn [sourceMap] in H.
    apply lookup_singleton_Some in H as [_ <-].
    by intros ->%list_elem_of_singleton.
Qed.

Lemma createWorkspaceState_errors_resolve_witness :
  rangesResolve (createWorkspaceState sampleMerge sampleValidate sampleConfigType
                   [ownBlueprint])
  /\ is_Some (getWorkspaceErrors
                (createWorkspaceState sampleMerge sampleValidate sampleConfigType
                   [ownBlueprint])).
Proof.
  apply (createWorkspaceState_errors_resolve sampleMerge sampleValidate sampleConfigType
           [ownBlueprint] ownBlueprint_ownRanges).
Defined.

End WorkspaceErrorsProps.

(** ** Workspace: an edit followed by flush *)

Module EditFlushProps.
Import Workspace WorkspaceOps.

Section Props.
Context {Element : Type}.
Variable elemIDOf : Element -> ElemID.
Variable isConfig : ElemID -> bool.
Variable path_join : string -> string -> string.
Variable path_dirname : string -> string.
Variable mergeElementsOf : list Element -> list Element * list MergeErrors.MergeError.
Variable validateElementsOf : list Element -> list ValidationError.
Variable saltoConfigType : Element.
Variable fileOk : @FileOp Element -> bool.
Variable dateNow : string -> Z.
Variable parse : string -> string -> @ParseResult Element.
Variable objectValues : gmap string (@ParsedBlueprint Element) -> list (@ParsedBlueprint Element).

#[local] Abbreviation flush' :=
  (flush elemIDOf isConfig path_join path_dirname fileOk dateNow).
#[local] Abbreviation flushPath' := (flushPath elemIDOf isConfig path_join).
#[local] Abbreviation setBlueprints' :=
  (setBlueprints mergeElementsOf validateElementsOf saltoConfigType parse objectValues).
#[local] Abbreviation removeBlueprints' :=
  (removeBlueprints mergeElementsOf validateElementsOf saltoConfigType objectValues).

Hypothesis objectValues_elem : forall (m : gmap string (@ParsedBlueprint Element)) bp,
  bp ∈ objectValues m <-> exists k, m !! k = Some bp.

(** X20: removing blueprints and flushing deletes their files: when the
    names are read as keys and the flush completes, it has called [rm] on
    the path of every removed name under the base directory. *)
Theorem removeBlueprints_then_flush (names : list string) (ws : @Workspace Element)
    (w' : @World Element) (name : string) :
  keyedByFilename (parsedBlueprints (state ws)) ->
  forallb (readAsKey (parsedBlueprints (state ws))) names = true ->
  flush' (removeBlueprints' names ws) = Some w' ->
  name ∈ names ->
  Rm (path_join (baseDir (config ws)) name) ∈ w'.2.
Proof.
  intros Hkeyed _ Hflush Hname.
  assert (name ∈ dirtyBlueprints (removeBlueprints' names ws)) as Hdirty.
  { cbn. apply WorkspaceOpsProps.elem_of_markDirtyIn. by right. }
  pose proof (FlushCallsProps.flush_Some_reads _ _ _ _ _ _ _ _ _ Hflush Hdirty) as Hr.
  unfold readsInherited in Hr.
  rewrite WorkspaceOpsProps.removeBlueprints_lookup in Hr by done.
  rewrite decide_True in Hr by done.
  apply FlushCallsProps.flush_Some_inv in Hflush as ->. cbn [snd].
  apply list_elem_of_bind. exists name. split; [|done].
  unfold fileCalls, flushPath.
  rewrite WorkspaceOpsProps.removeBlueprints_lookup by done.
  rewrite decide_True by done. rewrite Hr. cbn. apply list_elem_of_here.
Qed.

(** X21: setting blueprints and flushing writes them: when the flush
    completes, it has created the directory and written the buffer of the
    last blueprint given under each filename, at the path flush chooses for
    that filename. *)
Theorem setBlueprints_then_flush (blueprints : list (@Blueprint)) (ws : @Workspace Element)
    (w' : @World Element) (k : string) (bp : @Blueprint) :
  keyedByFilename (parsedBlueprints (state ws)) ->
  flush' (setBlueprints' blueprints ws) = Some w' ->
  last (filter (fun bp => bp_filename bp = k) blueprints) = Some bp ->
  Mkdirp (path_dirname (flushPath' (setBlueprints' blueprints ws) k)) ∈ w'.2
  /\ WriteTextFile (flushPath' (setBlueprints' blueprints ws) k) (bp_buffer bp) ∈ w'.2.
Proof.
  intros Hkeyed Hflush Hlast.
  assert (k ∈ dirtyBlueprints (setBlueprints' blueprints ws)) as Hdirty.
  { cbn. apply WorkspaceOpsProps.elem_of_markDirtyIn. right.
    apply WorkspaceOpsProps.last_filter_elem in Hlast as [<- Hin].
    apply list_elem_of_fmap. by exists bp. }
  assert (k <> "__proto__") as Hne.
  { intros ->.
    pose proof (FlushCallsProps.flush_Some_reads _ _ _ _ _ _ _ _ _ Hflush Hdirty) as Hr.
    unfold readsInherited in Hr.
    rewrite WorkspaceOpsProps.setBlueprints_lookup in Hr by done.
    by rewrite decide_True in Hr by done. }
  apply FlushCallsProps.flush_Some_inv in Hflush as ->. cbn [snd].
  split; apply list_elem_of_bind; exists k; (split; [|done]); unfold fileCalls;
    rewrite WorkspaceOpsProps.setBlueprints_lookup by done;
    rewrite decide_False by done;
    rewrite Hlast; cbn [parseBlueprint buffer].
  - apply list_elem_of_here.
  - apply list_elem_of_further, list_elem_of_here.
Qed.

End Props.

(** *** Concrete edits *)

Import WorkspaceSamples WorkspaceOpsSamples.

Lemma removeBlueprints_then_flush_witness :
  Rm (sampleJoin (baseDir (config loadedWorkspace)) "a.bp") ∈ removedFlushed.2.
Proof.
  apply (removeBlueprints_then_flush id sampleIsConfig sampleJoin sampleDirname
           sampleMerge sampleValidate sampleConfigType (fun _ => true) (fun _ => 0%Z)
           sampleObjectValues WorkspaceOpsProps.sampleObjectValues_elem
           ["a.bp"] loadedWorkspace removedFlushed "a.bp").
  - apply WorkspaceOpsProps.loadedWorkspace_keyed.
  - vm_compute. reflexivity.
  - vm_compute. reflexivity.
  - apply list_elem_of_here.
Defined.

Lemma setBlueprints_then_flush_witness :
  Mkdirp (sampleDirname (flushPath id sampleIsConfig sampleJoin
                           (sampleSet [newBlueprint] loadedWorkspace) "b.bp"))
    ∈ setFlushed.2
  /\ WriteTextFile (flushPath id sampleIsConfig sampleJoin
                      (sampleSet [newBlueprint] loadedWorkspace) "b.bp")
       (bp_buffer newBlueprint) ∈ setFlushed.2.
Proof.
  apply (setBlueprints_then_flush id sampleIsConfig sampleJoin sampleDirname
           sampleMerge sampleValidate sampleConfigType (fun _ => true) (fun _ => 0%Z)
           sampleParse sampleObjectValues WorkspaceOpsProps.sampleObjectValues_elem
           [newBlueprint] loadedWorkspace setFlushed "b.bp" newBlueprint).
  - apply WorkspaceOpsProps.loadedWorkspace_keyed.
  - vm_compute. reflexivity.
  - reflexivity.
Defined.

End EditFlushProps.

(** ** devaluate *)

Module DevaluateProps.
Import FormatterText Devaluate.

Section Props.
Context {Other : Type}.
Variable TRAVERSAL_SEPERATOR : Ascii.ascii.

#[local] Abbreviation Value := (@JSValue Other).
#[local] Abbreviation devaluate' := (@devaluate Other TRAVERSAL_SEPERATOR).

Lemma JSValue_nested_ind (P : Value -> Prop) :
  (forall str, P (JString str)) ->
  (forall arr, Forall P arr -> P (JArray arr)) ->
  (forall obj, Forall (fun kv => P kv.2) obj -> P (JObject obj)) ->
  (forall traversal, P (JReference traversal)) ->
  (forall o, P (JOther o)) ->
  forall v, P v.
Proof.
  intros Hs Ha Ho Hr Hx.
  exact (fix go (v : Value) : P v :=
    match v with
    | JString str => Hs str
    | JArray arr =>
        Ha arr ((fix all (l : list Value) : Forall P l :=
                   match l with
                   | [] => @List.Forall_nil _ _
                   | x :: xs => @List.Forall_cons _ P x xs (go x) (all xs)
                   end) arr)
    | JObject obj =>
        Ho obj ((fix all (l : list (string * Value)) : Forall (fun kv => P kv.2) l :=
                   match l with
                   | [] => @List.Forall_nil _ _
                   | (k, x) :: xs =>
                       @List.Forall_cons _ (fun kv => P kv.2) (k, x) xs (go x) (all xs)
                   end) obj)
    | JReference traversal => Hr traversal
    | JOther o => Hx o
    end).
Qed.

(** X22: the expressions of a map are the devaluated keys and values of the
    object in turn, [devaluate] mapped over the flattened entries: two
    expressions per entry, the key as a template before its value. *)
Theorem devaluate_map_entries (obj : list (string * Value)) :
  expressions (devaluate' (JObject obj)) = map devaluate' (flattenEntries obj)
  /\ length (expressions (devaluate' (JObject obj))) = 2 * length obj
  /\ (forall i k x, obj !! i = Some (k, x) ->
        expressions (devaluate' (JObject obj)) !! (2 * i) = Some (devaluateString k)
        /\ expressions (devaluate' (JObject obj)) !! (2 * i + 1) = Some (devaluate' x)).
Proof.
  cbn [devaluate expressions]. unfold flattenEntries.
  induction obj as [|[k x] obj (IH1 & IH2 & IH3)]; [done|].
  split; [|split].
  - cbn. by rewrite IH1.
  - cbn in *. lia.
  - intros [|i] k' x' Hi.
    + injection Hi as -> ->. done.
    + replace (2 * S i) with (S (S (2 * i))) by lia.
      replace (S (S (2 * i)) + 1) with (S (S (2 * i + 1))) by lia.
      apply (IH3 i k' x' Hi).
Qed.

Lemma map_JString_inj (l l' : list string) :
  map (@JString Other) l = map JString l' -> l = l'.
Proof.
  revert l'. induction l as [|x l IH]; intros [|y l'] H; try done.
  injection H as -> H. by rewrite (IH _ H).
Qed.

(** X23: [devaluate] loses nothing: two values with the same expression are
    the same value. *)
Theorem devaluate_injective (v v' : Value) :
  devaluate' v = devaluate' v' -> v = v'.
Proof.
  revert v'. induction v as [str|arr IH|obj IH|traversal|o] using JSValue_nested_ind;
    intros [str'|arr'|obj'|traversal'|o'] H; try done; cbn in H.
  - by injection H as ->.
  - injection H as H. f_equal. revert arr' H.
    induction IH as [|x arr Hx _ IHarr]; intros [|y arr'] H; try done.
    injection H as Hxy H. by rewrite (Hx _ Hxy), (IHarr _ H).
  - injection H as H. f_equal. revert obj' H.
    induction IH as [|[k x] obj Hx _ IHobj]; intros [|[k' y] obj'] H; try done.
    cbn in H, Hx. injection H as Hk Hxy H. subst k'.
    by rewrite (Hx _ Hxy), (IHobj _ H).
  - injection H as H%map_JString_inj.
    by rewrite <- (FormatterTextProps.joinWith_split TRAVERSAL_SEPERATOR traversal),
      H, FormatterTextProps.joinWith_split.
  - by injection H as ->.
Qed.

Lemma nodes_devaluate_array (P : @HCLExpression Other -> Prop) (arr : list Value) :
  Forall (fun v => Forall P (nodes (devaluate' v))) arr ->
  Forall P (flat_map nodes (map devaluate' arr)).
Proof.
  induction 1 as [|x arr Hx _ IH]; [constructor|].
  cbn [map flat_map]. by apply Forall_app.
Qed.

(** X24: every expression in the result of [devaluate] is of one of five
    shapes: a literal with a value and nothing below it; a template over
    exactly one literal of a string; a reference with nothing below it whose
    value is a non-empty array of strings; a list or a map without a
    value. *)
Theorem devaluate_nodes (v : Value) (e : @HCLExpression Other) :
  e ∈ nodes (devaluate' v) ->
  (type e = "literal" /\ expressions e = [] /\ is_Some (value e))
  \/ (type e = "template" /\ value e = None
      /\ exists str, expressions e = [devaluateValue (JString str)])
  \/ (type e = "reference" /\ expressions e = []
      /\ exists part parts, value e = Some (JArray (map JString (part :: parts))))
  \/ (type e = "list" /\ value e = None)
  \/ (type e = "map" /\ value e = None).
Proof.
  revert e. apply Forall_forall.
  induction v as [str|arr IH|obj IH|traversal|o] using JSValue_nested_ind.
  - cbn. constructor; [right; left; by eauto|].
    constructor; [left; by eauto|constructor].
  - cbn [devaluate nodes]. constructor; [by do 3 right; left|].
    by apply nodes_devaluate_array.
  - cbn [devaluate nodes]. constructor; [by do 4 right|].
    induction IH as [|[k x] obj Hx _ IHobj]; [constructor|].
    cbn [flat_map]. rewrite flat_map_app. apply Forall_app. split; [|done].
    cbn [flat_map app]. rewrite app_nil_r. apply Forall_app. split; [|done].
    cbn. constructor; [right; left; by eauto|].
    constructor; [left; by eauto|constructor].
  - cbn. constructor; [|constructor]. right; right; left.
    split; [done|]. split; [done|].
    destruct (split TRAVERSAL_SEPERATOR traversal) as [|part parts] eqn:Hs;
      [by destruct (FormatterTextProps.split_nonempty TRAVERSAL_SEPERATOR traversal)|].
    by exists part, parts.
  - cbn. constructor; [left; by eauto|constructor].
Qed.

End Props.

(** *** Concrete values *)

Import DevaluateSamples.

Lemma devaluate_injective_witness : sampleObject = sampleObject.
Proof.
  apply (devaluate_injective dot sampleObject sampleObject). reflexivity.
Defined.

Lemma devaluate_nodes_witness :
  (type sampleReferenceExpression = "literal"
   /\ expressions sampleReferenceExpression = []
   /\ is_Some (value sampleReferenceExpression))
  \/ (type sampleReferenceExpression = "template"
      /\ value sampleReferenceExpression = None
      /\ exists str, expressions sampleReferenceExpression
                     = [devaluateValue (JString str)])
  \/ (type sampleReferenceExpression = "reference"
      /\ expressions sampleReferenceExpression = []
      /\ exists part parts,
           value sampleReferenceExpression
           = Some (JArray (map JString (part :: parts))))
  \/ (type sampleReferenceExpression = "list"
      /\ value sampleReferenceExpression = None)
  \/ (type sampleReferenceExpression = "map"
      /\ value sampleReferenceExpression = None).
Proof.
  apply (devaluate_nodes dot sampleObject sampleReferenceExpression).
  do 9 apply list_elem_of_further. apply list_elem_of_here.
Defined.

End DevaluateProps.
